(** * The Nuclide RPC transport: server sessions and client dispatcher

    A shallow embedding of two classes of the repository:

    - [NuclideServer] (the second file of [pkg/nuclide/server/lib/main.js]):
      the per-client session table, the connection handshake, the outbound
      message queue and its acknowledgement callbacks;
    - [ClientComponent] (the service-framework client): request
      identifiers, the event emitter used as RPC table, promise and
      observable call shapes, timeouts, and [decodeError].

    Objects that the JavaScript code mutates in place are fields of an
    explicit state record; every listener the code registers is an event of
    a step function.  Values that travel on the wire are [JsVal]s.

    Further modules embed the registry of remote objects of the client,
    the service registry and the HTTP routes of the server, the server
    process ([main], the one live server, [shutdown]), the keys of the
    file tree, the validation of a connection profile and the grouping
    of the Hack diagnostics. *)

From Stdlib Require Floats.PrimFloat.
From Stdlib Require Import Ascii.
From stdpp Require Import gmap strings list pretty.

Local Open Scope Z_scope.

(** ** JavaScript values

    JSON values and the Error objects built from them.  Numbers are
    integers, which is all the modelled code produces or looks at. *)

Inductive ObjKind := PlainObject | ArrayObject | ErrorObject.

#[local] Set Warnings "-register-all".

Inductive JsVal :=
| JUndefined
| JNull
| JBool (b : bool)
| JNum (n : Z)
| JStr (s : string)
| JObj (kind : ObjKind) (props : list (string * JsVal)).

Global Instance ObjKind_eq_dec : EqDecision ObjKind.
Proof. solve_decision. Defined.

(** [typeof v]. *)
Definition typeof (v : JsVal) : string :=
  match v with
  | JUndefined => "undefined"
  | JNull => "object"
  | JBool _ => "boolean"
  | JNum _ => "number"
  | JStr _ => "string"
  | JObj _ _ => "object"
  end.

(** [v != null]: the loose comparison is false exactly for [null] and
    [undefined]. *)
Definition not_nullish (v : JsVal) : bool :=
  match v with
  | JUndefined | JNull => false
  | _ => true
  end.

(** [v === s] for a string literal or string constant [s]. *)
Definition strict_eq_str (v : JsVal) (s : string) : bool :=
  match v with
  | JStr s' => bool_decide (s' = s)
  | _ => false
  end.

(** Truthiness, as used by [if (v)], [v && w] and [invariant(v)]. *)
Definition truthy (v : JsVal) : bool :=
  match v with
  | JUndefined | JNull => false
  | JBool b => b
  | JNum n => negb (n =? 0)
  | JStr s => negb (bool_decide (s = ""%string))
  | JObj _ _ => true
  end.

Fixpoint assoc (k : string) (ps : list (string * JsVal)) : option JsVal :=
  match ps with
  | [] => None
  | (k', v) :: t => if bool_decide (k' = k) then Some v else assoc k t
  end.

(** [o.k] on a value that is not [null] or [undefined]: a missing property
    reads as [undefined]. *)
Definition js_prop (o : JsVal) (k : string) : JsVal :=
  match o with
  | JObj _ ps => default JUndefined (assoc k ps)
  | _ => JUndefined
  end.

(** [o.k] in general: reading a property of [null] or [undefined] raises a
    TypeError, here [None]. *)
Definition js_member (o : JsVal) (k : string) : option JsVal :=
  if not_nullish o then Some (js_prop o k) else None.

Fixpoint assoc_set (k : string) (v : JsVal) (ps : list (string * JsVal))
  : list (string * JsVal) :=
  match ps with
  | [] => [(k, v)]
  | (k', v') :: t =>
      if bool_decide (k' = k) then (k, v) :: t else (k', v') :: assoc_set k v t
  end.

(** [o.k = v] on an object. *)
Definition js_set (o : JsVal) (k : string) (v : JsVal) : JsVal :=
  match o with
  | JObj kind ps => JObj kind (assoc_set k v ps)
  | _ => o
  end.

(** [new Error()].  The stack the engine records at construction is
    overwritten by [decodeError] before the object escapes. *)
Definition new_Error : JsVal := JObj ErrorObject [].

Definition is_Error (v : JsVal) : Prop :=
  match v with
  | JObj ErrorObject _ => True
  | _ => False
  end.

(** ** [decodeError] *)

Definition decodeError (encodedError : JsVal) : JsVal :=
  if not_nullish encodedError && bool_decide (typeof encodedError = "object"%string)
  then
    let resultError := new_Error in
    let resultError := js_set resultError "message" (js_prop encodedError "message") in
    let resultError := js_set resultError "code" (js_prop encodedError "code") in
    let resultError := js_set resultError "stack" (js_prop encodedError "stack") in
    resultError
  else encodedError.

(** ** Logging *)

Inductive Level := Debug | Info | Warn | Err | Fatal.

Record LogEntry := { level : Level; text : string; params : list string }.

Global Instance Level_eq_dec : EqDecision Level.
Proof. solve_decision. Defined.

(** Exceptions the modelled code can raise. *)
Inductive Exn :=
| AssertionError
| SyntaxError
| TypeError
| Error (message : string).

(** The names that a plain object, [{}], inherits from [Object.prototype]:
    reading one of them on an object that has no property of its own
    under the name gives the member of the prototype, a function or, for
    [__proto__], the prototype itself. *)
Definition Object_prototype : list string :=
  ["constructor"; "hasOwnProperty"; "isPrototypeOf"; "propertyIsEnumerable";
   "toLocaleString"; "toString"; "valueOf"; "__defineGetter__"; "__defineSetter__";
   "__lookupGetter__"; "__lookupSetter__"; "__proto__"]%string.

(** The value the client writes in the [protocol] field of every request.
    The concrete runs below use it as the channel tag; the theorems hold
    for every tag. *)
Definition rpc_channel : string := "service_framework3_rpc".

(** ** The server: [NuclideServer] *)

Module Server.

(** The wrapper object [{data}] that [_sendSocketMessage] pushes on the
    queue.  The code finds it again with [indexOf], that is by object
    identity; [ref] is that identity. *)
Record QueuedMessage := { ref : nat; data : JsVal }.

(** [SocketClient].  A socket is named by its index in the server's table
    of accepted sockets; [None] is a null or missing [socket] field. *)
Record SocketClient := {
  id : string;
  subscriptions : gmap string nat;
  socket : option nat;
  messageQueue : list QueuedMessage;
}.

(** What the model keeps of a [ws] socket: whether the server has called
    [close()] on it, the frames handed to [send] in call order, and the
    variable [client] captured by the listeners that [_onConnection]
    installs on it ([None] until the first message has been handled). *)
Record WebSocket := {
  closed : bool;
  outbox : list JsVal;
  client : option string;
}.

(** The callback passed to [socket.send], not yet invoked by the socket
    layer.  It captures the client's id and queue and the wrapper. *)
Record SendCallback := {
  cb_client : string;
  cb_message : QueuedMessage;
}.

(** The server.  [_clients] holds the properties of the session table
    that are its own (what it inherits from [Object.prototype] is looked
    up by [inherits] below);
    [sockets] are the sockets accepted so far; [callbacks] are the
    callbacks of [socket.send] that the socket layer has still to invoke;
    [next_ref] is the next object identity; [handled] lists the calls of
    [_serverComponent.handleMessage]; [log] is what went to the logger. *)
Record NuclideServer := {
  _clients : gmap string SocketClient;
  sockets : list WebSocket;
  callbacks : list SendCallback;
  next_ref : nat;
  handled : list (string * JsVal);
  log : list LogEntry;
}.

(** [new NuclideServer(options)], as far as the session table goes. *)
Definition constructor : NuclideServer :=
  {| _clients := ∅; sockets := []; callbacks := []; next_ref := 0%nat;
     handled := []; log := [] |}.

Definition set_clients (f : gmap string SocketClient → gmap string SocketClient)
    (st : NuclideServer) : NuclideServer :=
  {| _clients := f (_clients st); sockets := sockets st; callbacks := callbacks st;
     next_ref := next_ref st; handled := handled st; log := log st |}.

Definition set_sockets (f : list WebSocket → list WebSocket)
    (st : NuclideServer) : NuclideServer :=
  {| _clients := _clients st; sockets := f (sockets st); callbacks := callbacks st;
     next_ref := next_ref st; handled := handled st; log := log st |}.

Definition set_callbacks (f : list SendCallback → list SendCallback)
    (st : NuclideServer) : NuclideServer :=
  {| _clients := _clients st; sockets := sockets st; callbacks := f (callbacks st);
     next_ref := next_ref st; handled := handled st; log := log st |}.

Definition bump_ref (st : NuclideServer) : NuclideServer :=
  {| _clients := _clients st; sockets := sockets st; callbacks := callbacks st;
     next_ref := S (next_ref st); handled := handled st; log := log st |}.

Definition add_handled (c : string) (m : JsVal) (st : NuclideServer) : NuclideServer :=
  {| _clients := _clients st; sockets := sockets st; callbacks := callbacks st;
     next_ref := next_ref st; handled := handled st ++ [(c, m)]; log := log st |}.

Definition logger (l : Level) (t : string) (ps : list string)
    (st : NuclideServer) : NuclideServer :=
  {| _clients := _clients st; sockets := sockets st; callbacks := callbacks st;
     next_ref := next_ref st; handled := handled st;
     log := log st ++ [{| level := l; text := t; params := ps |}] |}.

Definition with_socket (s : option nat) (c : SocketClient) : SocketClient :=
  {| id := id c; subscriptions := subscriptions c; socket := s;
     messageQueue := messageQueue c |}.

Definition with_queue (q : list QueuedMessage) (c : SocketClient) : SocketClient :=
  {| id := id c; subscriptions := subscriptions c; socket := socket c;
     messageQueue := q |}.

Definition ws_close (w : WebSocket) : WebSocket :=
  {| closed := true; outbox := outbox w; client := client w |}.

Definition ws_send (d : JsVal) (w : WebSocket) : WebSocket :=
  {| closed := closed w; outbox := outbox w ++ [d]; client := client w |}.

Definition ws_bind (c : string) (w : WebSocket) : WebSocket :=
  {| closed := closed w; outbox := outbox w; client := Some c |}.

(** Accessors used in statements. *)
Definition queue_of (c : string) (st : NuclideServer) : list QueuedMessage :=
  from_option messageQueue [] (_clients st !! c).

Definition socket_of (c : string) (st : NuclideServer) : option nat :=
  _clients st !! c ≫= socket.

Definition outbox_of (s : nat) (st : NuclideServer) : list JsVal :=
  from_option outbox [] (sockets st !! s).

(** [messageQueue.indexOf(message)] followed by [splice(index, 1)] when the
    index is not -1: the first element that is the same object goes. *)
Fixpoint remove_message (r : nat) (q : list QueuedMessage) : list QueuedMessage :=
  match q with
  | [] => []
  | m :: t => if bool_decide (ref m = r) then t else m :: remove_message r t
  end.

(** [_sendSocketMessage(client, data)].  The client object is named by its
    key in [_clients]; every [SocketClient] the server creates is stored
    there under its id and is never replaced or deleted. *)
Definition _sendSocketMessage (c : string) (d : JsVal) (st : NuclideServer)
  : NuclideServer :=
  match _clients st !! c with
  | None => st
  | Some cl =>
      let message := {| ref := next_ref st; data := d |} in
      let st := bump_ref st in
      (* messageQueue.push(message) *)
      let st := set_clients <[c := with_queue (messageQueue cl ++ [message]) cl]> st in
      match socket cl with
      | None => st
      | Some s =>
          (* socket.send(JSON.stringify(data), callback) *)
          let st := set_sockets (alter (ws_send d) s) st in
          set_callbacks (λ l, l ++ [{| cb_client := c; cb_message := message |}]) st
      end
  end.

(** The callback of [socket.send], invoked with [err].  The log entry
    keeps the client id and leaves the data out. *)
Definition send_callback (cb : SendCallback) (err : bool) (st : NuclideServer)
  : NuclideServer :=
  if err then
    logger Warn "Failed sending socket message to client:" [cb_client cb] st
  else
    set_clients
      (alter (λ cl, with_queue (remove_message (ref (cb_message cb)) (messageQueue cl)) cl)
             (cb_client cb)) st.

(** [webSocketServer.on('connection', ...)]: [_onConnection(socket)] up to
    the registration of the listeners. *)
Definition _onConnection (st : NuclideServer) : NuclideServer :=
  let st := logger Debug "WebSocket connecting" [] st in
  set_sockets (λ l, l ++ [{| closed := false; outbox := []; client := None |}]) st.

(** [this._clients[clientId]] finds a member of [Object.prototype]: the
    table has no session under the name and the prototype has a member
    of that name. *)
Definition inherits (clientId : string) (st : NuclideServer) : bool :=
  bool_decide (_clients st !! clientId = None) && bool_decide (clientId ∈ Object_prototype).

(** The [once('message')] listener of socket [s], run on its first
    message [clientId], when [this._clients[clientId]] is a session or
    is undefined. *)
Definition attach_session (s : nat) (clientId : string) (st : NuclideServer)
  : NuclideServer :=
  let cl := default {| id := clientId; subscriptions := ∅; socket := None;
                       messageQueue := [] |} (_clients st !! clientId) in
  let st := set_sockets (alter (ws_bind clientId) s) st in
  let st :=
    match socket cl with
    | Some old => set_sockets (alter ws_close old) st
    | None => st
    end in
  let st := logger Info "Client #%s connecting with a new socket!" [clientId] st in
  (* client.socket = socket; client.messageQueue.splice(0) *)
  let queued := messageQueue cl in
  let st := set_clients <[clientId := with_queue [] (with_socket (Some s) cl)]> st in
  foldl (λ st message, _sendSocketMessage clientId (data message) st) st queued.

Inductive Outcome :=
| Normal (st : NuclideServer)
| Thrown (e : Exn) (st : NuclideServer).

(** The [once('message')] listener of socket [s], run on its first
    message [clientId].  When [this._clients[clientId]] is a member of
    [Object.prototype], that member is taken for the client: it is
    truthy, it has no [socket], the connection is logged, and
    [client.messageQueue.splice] raises a TypeError, [messageQueue]
    being undefined.  The listener for the later messages is not
    registered.  What the listener has written by then (the member
    stored in the table under the name, the [socket] property of the
    member, the variable [client] of the connection) is not part of the
    state: no run goes on from an exception. *)
Definition on_first_message (s : nat) (clientId : string) (st : NuclideServer)
  : Outcome :=
  if inherits clientId st
  then Thrown TypeError
         (logger Info "Client #%s connecting with a new socket!" [clientId] st)
  else Normal (attach_session s clientId st).

Section Dispatch.

(** The channel tag imported from [./config]. *)
Variable SERVICE_FRAMEWORK3_CHANNEL : string.

(** [_onSocketMessage(client, message)].  [parsed] is what [JSON.parse]
    yields on the text, [None] when it raises.  The call of
    [_serverComponent.handleMessage] is recorded in [handled]. *)
Definition _onSocketMessage (c : string) (parsed : option JsVal) (st : NuclideServer)
  : Outcome :=
  match parsed with
  | None => Thrown SyntaxError st
  | Some message =>
      match js_member message "protocol" with
      | None => Thrown TypeError st
      | Some protocol =>
          if truthy protocol && strict_eq_str protocol SERVICE_FRAMEWORK3_CHANNEL
          then Normal (add_handled c message st)
          else Thrown AssertionError st
      end
  end.

(** The [close] listener of socket [s]. *)
Definition on_close (s : nat) (st : NuclideServer) : NuclideServer :=
  match sockets st !! s ≫= client with
  | None => st
  | Some c =>
      let st :=
        if bool_decide (socket_of c st = Some s)
        then set_clients (alter (with_socket None) c) st
        else st in
      logger Info "Client #%s closing a socket!" [c] st
  end.

(** The [error] listener of socket [s]. *)
Definition on_error (s : nat) (message : string) (st : NuclideServer) : NuclideServer :=
  let who := default "unkown"%string (sockets st !! s ≫= client) in
  logger Err "Client #%s error: %s" [who; message] st.

(** What can happen to a running server. *)
Inductive Event :=
| Connection
| Message (s : nat) (text : string) (parsed : option JsVal)
| Close (s : nat)
| SocketError (s : nat) (message : string)
| Send (c : string) (d : JsVal)
| SendDone (k : nat) (err : bool).

Definition step (ev : Event) (st : NuclideServer) : Outcome :=
  match ev with
  | Connection => Normal (_onConnection st)
  | Message s text parsed =>
      match sockets st !! s with
      | None => Normal st
      | Some w =>
          match client w with
          | None => on_first_message s text st
          | Some c => _onSocketMessage c parsed st
          end
      end
  | Close s => Normal (on_close s st)
  | SocketError s m => Normal (on_error s m st)
  | Send c d => Normal (_sendSocketMessage c d st)
  | SendDone k err =>
      match callbacks st !! k with
      | None => Normal st
      | Some cb => Normal (send_callback cb err (set_callbacks (delete k) st))
      end
  end.

(** An exception that leaves a listener is not caught anywhere in the
    server; a run goes on only from normal completions. *)
Fixpoint run (evs : list Event) (st : NuclideServer) : option NuclideServer :=
  match evs with
  | [] => Some st
  | ev :: evs =>
      match step ev st with
      | Normal st' => run evs st'
      | Thrown _ _ => None
      end
  end.

Definition reachable (st : NuclideServer) : Prop :=
  ∃ evs, run evs constructor = Some st.

(** The event is the first message of a socket and names client [c]: a
    socket attaches to the session of [c]. *)
Definition attaches (c : string) (ev : Event) (st : NuclideServer) : Prop :=
  ∃ s w parsed,
    ev = Message s c parsed ∧ sockets st !! s = Some w ∧ client w = None.

(** The event is the socket layer reporting success for one of the
    wrappers [mid] of client [c]. *)
Definition acks (c : string) (mid : list QueuedMessage) (ev : Event)
    (st : NuclideServer) : Prop :=
  ∃ k cb,
    ev = SendDone k false ∧ callbacks st !! k = Some cb ∧
    cb_client cb = c ∧ ref (cb_message cb) ∈ (ref <$> mid).

(** A run of normally completing events none of which is [bad]. *)
Inductive run_avoiding (bad : Event → NuclideServer → Prop)
  : NuclideServer → list Event → NuclideServer → Prop :=
| run_done st : run_avoiding bad st [] st
| run_next st ev st' evs st'' :
    ¬ bad ev st →
    step ev st = Normal st' →
    run_avoiding bad st' evs st'' →
    run_avoiding bad st (ev :: evs) st''.

End Dispatch.

(** A sequence of calls [_sendSocketMessage(client, d)], one per element. *)
Definition send_all (c : string) (ds : list JsVal) (st : NuclideServer)
  : NuclideServer :=
  foldl (λ st d, _sendSocketMessage c d st) st ds.

(** The wrappers that [send_all] creates, starting at identity [r]. *)
Definition fresh_messages (r : nat) (ds : list JsVal) : list QueuedMessage :=
  imap (λ i d, {| ref := (r + i)%nat; data := d |}) ds.

Definition mk_callback (c : string) (m : QueuedMessage) : SendCallback :=
  {| cb_client := c; cb_message := m |}.

(** [this._clients[clientId] || {subscriptions: {}, id: clientId,
    messageQueue: []}], when the table inherits nothing under the name. *)
Definition session_or_new (c : string) (st : NuclideServer) : SocketClient :=
  default {| id := c; subscriptions := ∅; socket := None; messageQueue := [] |}
          (_clients st !! c).

(** Well-formed server states: an attached socket is one the server
    accepted, its listeners hold the session it is attached to, and no
    wrapper in a queue or a pending callback has an identity that is
    still to be allocated. *)
Record wf (st : NuclideServer) : Prop := {
  wf_socket : ∀ c cl s,
    _clients st !! c = Some cl → socket cl = Some s → (s < length (sockets st))%nat;
  wf_bound : ∀ c cl s,
    _clients st !! c = Some cl → socket cl = Some s →
    sockets st !! s ≫= client = Some c;
  wf_queue : ∀ c cl m,
    _clients st !! c = Some cl → m ∈ messageQueue cl → (ref m < next_ref st)%nat;
  wf_callbacks : ∀ cb,
    cb ∈ callbacks st → (ref (cb_message cb) < next_ref st)%nat;
}.

(** The wrappers [mid] sit in the queue of [c], contiguous and in order. *)
Definition queued (c : string) (mid : list QueuedMessage) (st : NuclideServer) : Prop :=
  (∃ pre post, queue_of c st = pre ++ mid ++ post) ∧
  (∀ m, m ∈ mid → (ref m < next_ref st)%nat).

(** No pending callback of client [c] belongs to a wrapper of [mid]. *)
Definition unacknowledgeable (c : string) (mid : list QueuedMessage)
    (st : NuclideServer) : Prop :=
  ∀ cb, cb ∈ callbacks st → cb_client cb = c → ref (cb_message cb) ∉ (ref <$> mid).

(** ** Concrete runs *)

(** The state after a run of [evs] on a new server. *)
Definition after (evs : list Event) : NuclideServer :=
  default constructor (run rpc_channel evs constructor).

(** Client [c1] connects, then connects again with a second socket. *)
Definition run_reconnected : list Event :=
  [Connection; Message 0 "c1" None; Connection; Message 1 "c1" None].

(** Client [c1] connects and is sent a frame on its socket; a second
    socket is accepted but has not greeted yet. *)
Definition run_busy : list Event :=
  [Connection; Message 0 "c1" None; Send "c1" (JStr "a"); Connection].

(** Client [c1] connects and loses its socket; a second socket is accepted
    but has not greeted yet. *)
Definition run_idle : list Event :=
  [Connection; Message 0 "c1" None; Close 0; Connection].

(** Client [c1] is connected. *)
Definition run_attached : list Event :=
  [Connection; Message 0 "c1" None].

(** The text of a frame that has a request id and no protocol, and what
    [JSON.parse] makes of it. *)
Definition frame_without_protocol_text : string :=
  "{" +:+ String "034"%char "requestId" +:+ String "034"%char ":1}".

Definition frame_without_protocol : JsVal :=
  JObj PlainObject [("requestId"%string, JNum 1)].

(** The text of a frame with the protocol tag and no channel, and what
    [JSON.parse] makes of it. *)
Definition frame_without_channel_text : string :=
  "{" +:+ String "034"%char "protocol" +:+ String "034"%char ":"
  +:+ String "034"%char rpc_channel +:+ String "034"%char ","
  +:+ String "034"%char "requestId" +:+ String "034"%char ":1}".

Definition frame_without_channel : JsVal :=
  JObj PlainObject [("protocol"%string, JStr rpc_channel); ("requestId"%string, JNum 1)].

End Server.

(** ** The client: [ClientComponent] *)

Module Client.

(** The [returnType] argument; [ROther] is any string the [switch] does
    not know. *)
Inductive ReturnType := RVoid | RPromise | RObservable | ROther (s : string).

(** The request messages the four operations build, and the message that
    disposes a remote observable.  Every one carries the protocol
    ['service_framework3_rpc']. *)
Inductive RequestMessage :=
| FunctionCall (function : string) (requestId : Z) (args : list JsVal)
| MethodCall (method : string) (objectId : Z) (requestId : Z) (args : list JsVal)
| NewObject (interface : string) (requestId : Z) (args : list JsVal)
| DisposeObject (requestId : Z) (objectId : Z)
| DisposeObservable (requestId : Z).

Definition message_requestId (m : RequestMessage) : Z :=
  match m with
  | FunctionCall _ r _ => r
  | MethodCall _ _ r _ => r
  | NewObject _ r _ => r
  | DisposeObject r _ => r
  | DisposeObservable r => r
  end.

Definition message_protocol (m : RequestMessage) : string := "service_framework3_rpc".

Definition message_type (m : RequestMessage) : string :=
  match m with
  | FunctionCall _ _ _ => "FunctionCall"
  | MethodCall _ _ _ _ => "MethodCall"
  | NewObject _ _ _ => "NewObject"
  | DisposeObject _ _ => "DisposeObject"
  | DisposeObservable _ => "DisposeObservable"
  end.

(** A message delivered by the socket.  [_handleSocketMessage] reads
    [channel], [requestId], [hadError], [error] and [result]; it never
    reads [protocol].  A missing [requestId] is [None]. *)
Record Response := {
  protocol : JsVal;
  channel : JsVal;
  requestId : option Z;
  hadError : bool;
  error : JsVal;
  result : JsVal;
}.

Inductive PromiseState :=
| Pending
| Resolved (value : JsVal)
| Rejected (reason : JsVal).

(** The two kinds of function the code hands to the emitter: the one-shot
    listener of a promise call (registered with [once]), which settles
    promise [p], and the listener of an observable subscription
    (registered with [on]), which feeds the observer of subscription
    [sub]. *)
Inductive Listener :=
| PromiseListener (p : nat)
| ObserverListener (sub : nat).

Global Instance Listener_eq_dec : EqDecision Listener.
Proof. solve_decision. Defined.

(** A pending [setTimeout] callback of a promise call. *)
Record Timer := {
  timer_requestId : Z;
  timer_promise : nat;
  timer_message : string;
}.

(** What an observer has been told. *)
Inductive Notification :=
| OnNext (value : JsVal)
| OnError (e : JsVal)
| OnCompleted.

(** One subscription to an observable returned by the client: the
    message its subscribe function closes over, the [isStopped] flag of
    the observer that Rx wraps around the subscriber, and what has been
    delivered to the subscriber. *)
Record Subscription := {
  sub_message : RequestMessage;
  isStopped : bool;
  seen : list Notification;
}.

(** [_emitter] maps an event name to its listeners in registration order.
    [_socket] keeps the frames passed to [this._socket.send], oldest
    first.  Promises, timers, observables and subscriptions are the
    objects the operations create; they are named by their position. *)
Record ClientComponent := {
  _rpcRequestId : Z;
  _emitter : gmap string (list Listener);
  _socket : list RequestMessage;
  promises : list PromiseState;
  timers : list Timer;
  observables : list RequestMessage;
  subscriptions : list Subscription;
  log : list LogEntry;
}.

(** The constructor.  Service registration fills the type registry and
    the object registry and is left out. *)
Definition constructor : ClientComponent :=
  {| _rpcRequestId := 1; _emitter := ∅; _socket := []; promises := [];
     timers := []; observables := []; subscriptions := []; log := [] |}.

Definition set_rpcRequestId (n : Z) (st : ClientComponent) : ClientComponent :=
  {| _rpcRequestId := n; _emitter := _emitter st; _socket := _socket st;
     promises := promises st; timers := timers st; observables := observables st;
     subscriptions := subscriptions st; log := log st |}.

Definition set_emitter (f : gmap string (list Listener) → gmap string (list Listener))
    (st : ClientComponent) : ClientComponent :=
  {| _rpcRequestId := _rpcRequestId st; _emitter := f (_emitter st); _socket := _socket st;
     promises := promises st; timers := timers st; observables := observables st;
     subscriptions := subscriptions st; log := log st |}.

(** [this._socket.send(message)]. *)
Definition socket_send (m : RequestMessage) (st : ClientComponent) : ClientComponent :=
  {| _rpcRequestId := _rpcRequestId st; _emitter := _emitter st; _socket := _socket st ++ [m];
     promises := promises st; timers := timers st; observables := observables st;
     subscriptions := subscriptions st; log := log st |}.

Definition set_promises (f : list PromiseState → list PromiseState)
    (st : ClientComponent) : ClientComponent :=
  {| _rpcRequestId := _rpcRequestId st; _emitter := _emitter st; _socket := _socket st;
     promises := f (promises st); timers := timers st; observables := observables st;
     subscriptions := subscriptions st; log := log st |}.

Definition set_timers (f : list Timer → list Timer)
    (st : ClientComponent) : ClientComponent :=
  {| _rpcRequestId := _rpcRequestId st; _emitter := _emitter st; _socket := _socket st;
     promises := promises st; timers := f (timers st); observables := observables st;
     subscriptions := subscriptions st; log := log st |}.

Definition set_observables (f : list RequestMessage → list RequestMessage)
    (st : ClientComponent) : ClientComponent :=
  {| _rpcRequestId := _rpcRequestId st; _emitter := _emitter st; _socket := _socket st;
     promises := promises st; timers := timers st; observables := f (observables st);
     subscriptions := subscriptions st; log := log st |}.

Definition set_subscriptions (f : list Subscription → list Subscription)
    (st : ClientComponent) : ClientComponent :=
  {| _rpcRequestId := _rpcRequestId st; _emitter := _emitter st; _socket := _socket st;
     promises := promises st; timers := timers st; observables := observables st;
     subscriptions := f (subscriptions st); log := log st |}.

(** *** Numbers *)

(** JavaScript numbers are IEEE doubles.  On the integers from 1 to 2^53
    the increment is exact below 2^53, and at 2^53 the sum rounds back to
    2^53.  A counter that starts at 1 never leaves that range. *)
Definition MAX_EXACT : Z := 2 ^ 53.

Definition number_succ (n : Z) : Z := if n <? MAX_EXACT then n + 1 else n.

(** [_generateRequestId()]: [return this._rpcRequestId++]. *)
Definition _generateRequestId (st : ClientComponent) : Z * ClientComponent :=
  (_rpcRequestId st, set_rpcRequestId (number_succ (_rpcRequestId st)) st).

(** *** The event emitter *)

Definition listeners (name : string) (st : ClientComponent) : list Listener :=
  default [] (_emitter st !! name).

(** [on] and [once] append to the listeners of the name. *)
Definition add_listener (name : string) (l : Listener) (st : ClientComponent)
  : ClientComponent :=
  set_emitter <[name := listeners name st ++ [l]]> st.

Definition removeAllListeners (name : string) (st : ClientComponent) : ClientComponent :=
  set_emitter (delete name) st.

Fixpoint remove_first (l : Listener) (ls : list Listener) : list Listener :=
  match ls with
  | [] => []
  | x :: t => if bool_decide (x = l) then t else x :: remove_first l t
  end.

(** [removeListener]: the name goes with its last listener. *)
Definition removeListener (name : string) (l : Listener) (st : ClientComponent)
  : ClientComponent :=
  match remove_first l (listeners name st) with
  | [] => set_emitter (delete name) st
  | ls => set_emitter <[name := ls]> st
  end.

(** *** Promises *)

(** [resolve] and [reject] act on a pending promise only. *)
Definition settle (p : nat) (s : PromiseState) (st : ClientComponent) : ClientComponent :=
  match promises st !! p with
  | Some Pending => set_promises <[p := s]> st
  | _ => st
  end.

(** *** Observers *)

Definition tell (sub : nat) (n : Notification) (stop : bool) (st : ClientComponent)
  : ClientComponent :=
  set_subscriptions
    (alter (λ s, {| sub_message := sub_message s;
                    isStopped := isStopped s || stop;
                    seen := seen s ++ [n] |}) sub) st.

Definition stop (sub : nat) (st : ClientComponent) : ClientComponent :=
  set_subscriptions
    (alter (λ s, {| sub_message := sub_message s; isStopped := true; seen := seen s |}) sub)
    st.

(** The dispose function that the subscribe function returns. *)
Definition dispose (message : RequestMessage) (st : ClientComponent) : ClientComponent :=
  let st := removeAllListeners (pretty (message_requestId message)) st in
  socket_send (DisposeObservable (message_requestId message)) st.

(** [observer.onNext(v)]: ignored once the observer is stopped. *)
Definition observer_onNext (sub : nat) (v : JsVal) (st : ClientComponent)
  : ClientComponent :=
  match subscriptions st !! sub with
  | Some s => if isStopped s then st else tell sub (OnNext v) false st
  | None => st
  end.

(** [observer.onError(e)] and [observer.onCompleted()]: the first of them
    stops the observer, reaches the subscriber and runs the dispose
    function; later ones are ignored. *)
Definition observer_finish (sub : nat) (n : Notification) (st : ClientComponent)
  : ClientComponent :=
  match subscriptions st !! sub with
  | Some s => if isStopped s then st else dispose (sub_message s) (tell sub n true st)
  | None => st
  end.

(** Disposing the subscription: the dispose function runs unless it has
    run already. *)
Definition unsubscribe (sub : nat) (st : ClientComponent) : ClientComponent :=
  match subscriptions st !! sub with
  | Some s => if isStopped s then st else dispose (sub_message s) (stop sub st)
  | None => st
  end.

Inductive Returned :=
| ReturnedUndefined
| ReturnedPromise (p : nat)
| ReturnedObservable (o : nat)
| ReturnedSubscription (sub : nat).

Inductive Outcome :=
| Normal (r : Returned) (st : ClientComponent)
| Thrown (e : Exn) (st : ClientComponent).

Definition state_of (o : Outcome) : ClientComponent :=
  match o with
  | Normal _ st => st
  | Thrown _ st => st
  end.

(** Calling one listener with [(hadError, error, result)]. *)
Definition call_listener (name : string) (l : Listener)
    (hadError : bool) (error result : JsVal) (st : ClientComponent) : Outcome :=
  match l with
  | PromiseListener p =>
      (* registered with [once]: it is removed, then called *)
      let st := removeListener name l st in
      Normal ReturnedUndefined
        (if hadError then settle p (Rejected (decodeError error)) st
         else settle p (Resolved result) st)
  | ObserverListener sub =>
      if hadError then
        Normal ReturnedUndefined (observer_finish sub (OnError (decodeError error)) st)
      else if negb (truthy result) then
        Thrown AssertionError st
      else if strict_eq_str (js_prop result "type") "completed" then
        Normal ReturnedUndefined (observer_finish sub OnCompleted st)
      else if strict_eq_str (js_prop result "type") "next" then
        Normal ReturnedUndefined (observer_onNext sub (js_prop result "data") st)
      else
        Normal ReturnedUndefined st
  end.

(** [emit] calls the listeners that are registered when it starts, in
    registration order; an exception ends it. *)
Fixpoint emit_to (ls : list Listener) (name : string)
    (hadError : bool) (error result : JsVal) (st : ClientComponent) : Outcome :=
  match ls with
  | [] => Normal ReturnedUndefined st
  | l :: ls =>
      match call_listener name l hadError error result st with
      | Normal _ st => emit_to ls name hadError error result st
      | Thrown e st => Thrown e st
      end
  end.

Definition emit (name : string) (hadError : bool) (error result : JsVal)
    (st : ClientComponent) : Outcome :=
  emit_to (listeners name st) name hadError error result st.

Section Dispatch.

(** The constants imported from [../config]. *)
Variable SERVICE_FRAMEWORK3_CHANNEL : string.
Variable SERVICE_FRAMEWORK_RPC_TIMEOUT_MS : Z.

(** The reason the timer rejects with. *)
Definition timeout_reason (t : Timer) : JsVal :=
  JStr ("Timeout after " +:+ pretty SERVICE_FRAMEWORK_RPC_TIMEOUT_MS
        +:+ " for requestId: " +:+ pretty (timer_requestId t)
        +:+ ", " +:+ timer_message t +:+ ".").

(** The callback given to [setTimeout]. *)
Definition on_timeout (t : Timer) (st : ClientComponent) : ClientComponent :=
  let st := removeAllListeners (pretty (timer_requestId t)) st in
  settle (timer_promise t) (Rejected (timeout_reason t)) st.

(** [_sendMessageAndListenForResult(message, returnType, timeoutMessage)]. *)
Definition _sendMessageAndListenForResult (message : RequestMessage)
    (returnType : ReturnType) (timeoutMessage : string) (st : ClientComponent)
  : Outcome :=
  match returnType with
  | RVoid => Normal ReturnedUndefined (socket_send message st)
  | RPromise =>
      let p := length (promises st) in
      let st := set_promises (λ l, l ++ [Pending]) st in
      let st := socket_send message st in
      let st := add_listener (pretty (message_requestId message)) (PromiseListener p) st in
      let st := set_timers (λ l, l ++ [{| timer_requestId := message_requestId message;
                                          timer_promise := p;
                                          timer_message := timeoutMessage |}]) st in
      Normal (ReturnedPromise p) st
  | RObservable =>
      Normal (ReturnedObservable (length (observables st)))
             (set_observables (λ l, l ++ [message]) st)
  | ROther s => Thrown (Error ("Unkown return type: " +:+ s +:+ ".")) st
  end.

Definition callRemoteFunction (functionName : string) (returnType : ReturnType)
    (args : list JsVal) (st : ClientComponent) : Outcome :=
  let '(r, st) := _generateRequestId st in
  _sendMessageAndListenForResult (FunctionCall functionName r args) returnType
    ("Calling function " +:+ functionName) st.

Definition callRemoteMethod (objectId : Z) (methodName : string)
    (returnType : ReturnType) (args : list JsVal) (st : ClientComponent) : Outcome :=
  let '(r, st) := _generateRequestId st in
  _sendMessageAndListenForResult (MethodCall methodName objectId r args) returnType
    ("Calling remote method " +:+ methodName +:+ ".") st.

Definition createRemoteObject (interfaceName : string) (args : list JsVal)
    (st : ClientComponent) : Outcome :=
  let '(r, st) := _generateRequestId st in
  _sendMessageAndListenForResult (NewObject interfaceName r args) RPromise
    ("Creating instance of " +:+ interfaceName) st.

Definition disposeRemoteObject (objectId : Z) (st : ClientComponent) : Outcome :=
  let '(r, st) := _generateRequestId st in
  _sendMessageAndListenForResult (DisposeObject r objectId) RPromise
    ("Disposing object " +:+ pretty objectId) st.

(** Subscribing to observable [o] runs the function given to
    [Observable.create]: it sends the message and registers a listener. *)
Definition subscribe (o : nat) (st : ClientComponent) : Outcome :=
  match observables st !! o with
  | None => Normal ReturnedUndefined st
  | Some message =>
      let sub := length (subscriptions st) in
      let st := set_subscriptions
                  (λ l, l ++ [{| sub_message := message; isStopped := false; seen := [] |}])
                  st in
      let st := socket_send message st in
      let st := add_listener (pretty (message_requestId message)) (ObserverListener sub) st in
      Normal (ReturnedSubscription sub) st
  end.

(** [_handleSocketMessage(message)]. *)
Definition _handleSocketMessage (message : Response) (st : ClientComponent) : Outcome :=
  if strict_eq_str (channel message) SERVICE_FRAMEWORK3_CHANNEL then
    match requestId message with
    | None => Thrown TypeError st
    | Some r => emit (pretty r) (hadError message) (error message) (result message) st
    end
  else Thrown AssertionError st.

(** What can happen to a client. *)
Inductive Event :=
| CallRemoteFunction (functionName : string) (returnType : ReturnType) (args : list JsVal)
| CallRemoteMethod (objectId : Z) (methodName : string) (returnType : ReturnType)
    (args : list JsVal)
| CreateRemoteObject (interfaceName : string) (args : list JsVal)
| DisposeRemoteObject (objectId : Z)
| Subscribe (o : nat)
| Unsubscribe (sub : nat)
| SocketMessage (message : Response)
| Timeout (k : nat).

Definition step (ev : Event) (st : ClientComponent) : Outcome :=
  match ev with
  | CallRemoteFunction f rt args => callRemoteFunction f rt args st
  | CallRemoteMethod o m rt args => callRemoteMethod o m rt args st
  | CreateRemoteObject i args => createRemoteObject i args st
  | DisposeRemoteObject o => disposeRemoteObject o st
  | Subscribe o => subscribe o st
  | Unsubscribe sub => Normal ReturnedUndefined (unsubscribe sub st)
  | SocketMessage message => _handleSocketMessage message st
  | Timeout k =>
      match timers st !! k with
      | None => Normal ReturnedUndefined st
      | Some t => Normal ReturnedUndefined (on_timeout t (set_timers (delete k) st))
      end
  end.

(** The message a call builds when the counter is [r], its return type
    and its timeout text. *)
Definition request_of (ev : Event) (r : Z)
  : option (RequestMessage * ReturnType * string) :=
  match ev with
  | CallRemoteFunction f rt args =>
      Some (FunctionCall f r args, rt, "Calling function " +:+ f)
  | CallRemoteMethod o m rt args =>
      Some (MethodCall m o r args, rt, "Calling remote method " +:+ m +:+ ".")
  | CreateRemoteObject i args =>
      Some (NewObject i r args, RPromise, "Creating instance of " +:+ i)
  | DisposeRemoteObject o =>
      Some (DisposeObject r o, RPromise, "Disposing object " +:+ pretty o)
  | _ => None
  end.

Definition run (evs : list Event) (st : ClientComponent) : ClientComponent :=
  foldl (λ st ev, state_of (step ev st)) st evs.

Definition reachable (st : ClientComponent) : Prop :=
  ∃ evs, st = run evs constructor.

End Dispatch.

(** How the table of subscriptions may change: a subscription keeps its
    place and its message, and once stopped it does not change at all. *)
Definition sub_evolves (l l' : list Subscription) : Prop :=
  ∀ i s, l !! i = Some s →
    ∃ s', l' !! i = Some s' ∧ sub_message s' = sub_message s ∧
          (isStopped s = true → s' = s).

(** *** Concrete runs *)

(** A timeout for the concrete runs; the theorems hold for every value. *)
Definition example_timeout : Z := 30000.

(** The state after a run of [evs] on a new client. *)
Definition after (evs : list Event) : ClientComponent :=
  run rpc_channel example_timeout evs constructor.

(** A well-formed reply to request [r] with result [v]. *)
Definition reply (r : Z) (v : JsVal) : Response :=
  {| protocol := JStr rpc_channel; channel := JStr rpc_channel; requestId := Some r;
     hadError := false; error := JUndefined; result := v |}.

(** An observable call, then a promise call, then the subscription to
    the observable. *)
Definition run_out_of_order : list Event :=
  [CallRemoteFunction "watch" RObservable [];
   CallRemoteFunction "add" RPromise [JNum 2; JNum 3];
   Subscribe 0].

(** A promise call and its reply. *)
Definition run_answered : list Event :=
  [CallRemoteFunction "add" RPromise [JNum 2; JNum 3];
   SocketMessage (reply 1 (JNum 5))].

(** An observable call and a subscription to it. *)
Definition run_watching : list Event :=
  [CallRemoteFunction "watch" RObservable []; Subscribe 0].

Definition call_add : Event := CallRemoteFunction "add" RPromise [JNum 2; JNum 3].

Definition call_watch : Event := CallRemoteFunction "watch" RObservable [].

(** The result of a stream frame that carries the value [v]. *)
Definition next (v : JsVal) : JsVal :=
  JObj PlainObject [("type"%string, JStr "next"); ("data"%string, v)].

Definition is_observer (l : Listener) : Prop :=
  match l with
  | ObserverListener _ => True
  | PromiseListener _ => False
  end.

(** The invariant of the RPC table.  Identifiers in use are below the
    counter; a one-shot listener is alone under its name, its promise is
    pending and its timer is armed; a pending promise has its listener; a
    timer's name holds nothing but the listener of its promise; and
    observables share no identifier with timers. *)
Record inv (st : ClientComponent) : Prop := {
  inv_keys : ∀ key ls,
    _emitter st !! key = Some ls → ∃ r, key = pretty r ∧ r < _rpcRequestId st;
  inv_sent : ∀ m, m ∈ _socket st → message_requestId m < _rpcRequestId st;
  inv_observables : ∀ m, m ∈ observables st → message_requestId m < _rpcRequestId st;
  inv_subscriptions : ∀ s, s ∈ subscriptions st → sub_message s ∈ observables st;
  inv_timers : ∀ t, t ∈ timers st →
    timer_requestId t < _rpcRequestId st ∧ (timer_promise t < length (promises st))%nat;
  inv_listener : ∀ (r : Z) p, PromiseListener p ∈ listeners (pretty r) st →
    listeners (pretty r) st = [PromiseListener p] ∧
    promises st !! p = Some Pending ∧
    ∃ text, {| timer_requestId := r; timer_promise := p; timer_message := text |}
            ∈ timers st;
  inv_pending : ∀ p, promises st !! p = Some Pending →
    ∃ r : Z, PromiseListener p ∈ listeners (pretty r) st;
  inv_timer_listener : ∀ t l, t ∈ timers st →
    l ∈ listeners (pretty (timer_requestId t)) st → l = PromiseListener (timer_promise t);
  inv_timer_promise : ∀ t t', t ∈ timers st → t' ∈ timers st →
    timer_promise t = timer_promise t' → timer_requestId t = timer_requestId t';
  inv_apart : ∀ m t, m ∈ observables st → t ∈ timers st →
    message_requestId m ≠ timer_requestId t;
}.

End Client.

(** ** More about the server's sessions *)

Module ServerInvariants.
Import Server.

(** Further facts that every state of a running server satisfies: a
    session sits in the table under its own id, the wrappers of a queue
    are distinct objects, and the listeners of a socket that has greeted
    hold a session of the table. *)
Record wf_sessions (st : NuclideServer) : Prop := {
  wf_id : ∀ c cl, _clients st !! c = Some cl → id cl = c;
  wf_nodup : ∀ c cl, _clients st !! c = Some cl → NoDup (ref <$> messageQueue cl);
  wf_greeted : ∀ s w c,
    sockets st !! s = Some w → client w = Some c → is_Some (_clients st !! c);
}.

(** Sessions come from greetings: a session is stored under a name
    that is not a member of [Object.prototype], and some socket has sent
    that name as its first message. *)
Record wf_names (st : NuclideServer) : Prop := {
  wf_plain : ∀ c, is_Some (_clients st !! c) → c ∉ Object_prototype;
  wf_created : ∀ c, is_Some (_clients st !! c) →
    ∃ s w, sockets st !! s = Some w ∧ client w = Some c;
}.

(** Client [c1] is connected and is sent [a] and [b]; the send of [a]
    is reported as failed and the send of [b] as successful. *)
Definition run_first_send_failed : list Event :=
  [Connection; Message 0 "c1" None; Send "c1" (JStr "a"); Send "c1" (JStr "b");
   SendDone 0 true; SendDone 0 false].

(** Client [c1] is connected and is sent the same data twice. *)
Definition run_twins : list Event :=
  [Connection; Message 0 "c1" None; Send "c1" (JStr "a"); Send "c1" (JStr "a")].

(** A frame that carries the protocol tag. *)
Definition frame_with_protocol : JsVal :=
  JObj PlainObject [("protocol"%string, JStr rpc_channel); ("requestId"%string, JNum 7)].

(** Client [c1] is connected and sends a frame. *)
Definition run_dispatched : list Event :=
  [Connection; Message 0 "c1" None; Message 0 "frame" (Some frame_with_protocol)].

End ServerInvariants.

(** ** More runs of the client *)

Module ClientFrames.
Import Client.

(** A frame for request [r] that passes the check of
    [_handleSocketMessage] when [ch] is the channel tag. *)
Definition frame (ch : string) (r : Z) (hadError : bool) (error result : JsVal)
  : Response :=
  {| protocol := JStr ch; channel := JStr ch; requestId := Some r;
     hadError := hadError; error := error; result := result |}.

(** The result of the frame that ends a stream. *)
Definition completed : JsVal := JObj PlainObject [("type"%string, JStr "completed")].

(** The four operations that take a request id. *)
Definition is_call (ev : Event) : bool :=
  match ev with
  | CallRemoteFunction _ _ _ | CallRemoteMethod _ _ _ _
  | CreateRemoteObject _ _ | DisposeRemoteObject _ => true
  | _ => false
  end.

Definition calls (evs : list Event) : Z := Z.of_nat (length (filter is_call evs)).

(** Is the frame the request of an observable call? *)
Definition is_request (m : RequestMessage) : Prop :=
  match m with
  | FunctionCall _ _ _ | MethodCall _ _ _ _ => True
  | _ => False
  end.

(** What holds of the listeners of subscriptions in every state of a
    client: a registered listener feeds a subscription that exists, that
    is not stopped, and whose request has the identifier the listener is
    registered under; and the request of every subscription has been
    sent. *)
Record inv_streams (st : ClientComponent) : Prop := {
  inv_observer : ∀ n sub, ObserverListener sub ∈ listeners n st →
    ∃ s, subscriptions st !! sub = Some s ∧
         n = pretty (message_requestId (sub_message s)) ∧ isStopped s = false;
  inv_requested : ∀ s, s ∈ subscriptions st →
    is_request (sub_message s) ∧ sub_message s ∈ _socket st;
  inv_requests : ∀ m, m ∈ observables st → is_request m;
}.

(** Every [DisposeObservable] frame among the frames sent comes after
    the request of an observable call with the same identifier. *)
Definition disposals_follow_requests (sent : list RequestMessage) : Prop :=
  ∀ i r, sent !! i = Some (DisposeObservable r) →
    ∃ j m, (j < i)%nat ∧ sent !! j = Some m ∧ is_request m ∧ message_requestId m = r.

(** A void call. *)
Definition call_log : Event := CallRemoteFunction "log" RVoid [JStr "x"].

(** Two promise calls. *)
Definition run_two_calls : list Event :=
  [CallRemoteFunction "add" RPromise [JNum 2; JNum 3];
   CallRemoteFunction "add" RPromise [JNum 4; JNum 5]].

(** An observable call, a subscription, and the end of the
    subscription. *)
Definition run_unsubscribed : list Event :=
  [CallRemoteFunction "watch" RObservable []; Subscribe 0; Unsubscribe 0].

End ClientFrames.

(** ** The client's registry of remote objects *)

Module ObjectRegistry.

(** A proxy of a remote object, as the unmarshaller of an interface makes
    it: [{_idPromise: Promise.resolve(objectId)}] with the prototype of
    the interface's proxy class.  [identity] tells objects apart. *)
Record RemoteProxy := {
  identity : nat;
  _idPromise : Z;
  prototype : string;
}.

(** [_objectRegistry], a [Map] from object ids to proxies, and the next
    object identity. *)
Record Registry := {
  _objectRegistry : gmap Z RemoteProxy;
  next_identity : nat;
}.

(** [new Map()]. *)
Definition empty : Registry := {| _objectRegistry := ∅; next_identity := 0 |}.

(** The marshaller registered for an interface:
    [async object => await object._idPromise]. *)
Definition marshal (object : RemoteProxy) : Z := _idPromise object.

(** The unmarshaller registered for interface [name]. *)
Definition unmarshal (name : string) (objectId : Z) (reg : Registry)
  : RemoteProxy * Registry :=
  match _objectRegistry reg !! objectId with
  | Some object => (object, reg)
  | None =>
      let object := {| identity := next_identity reg; _idPromise := objectId;
                       prototype := name |} in
      (object, {| _objectRegistry := <[objectId := object]> (_objectRegistry reg);
                  next_identity := S (next_identity reg) |})
  end.

(** The registry after the unmarshallers of the interfaces named in
    [calls] have run on the ids beside them. *)
Definition unmarshal_all (calls : list (string * Z)) (reg : Registry) : Registry :=
  foldl (λ reg c, (unmarshal c.1 c.2 reg).2) reg calls.

Definition reachable (reg : Registry) : Prop :=
  ∃ calls, reg = unmarshal_all calls empty.

(** What holds of every registry: an entry sits under the id it
    marshals to, and the objects have identities that are allocated and
    distinct. *)
Record registry_ok (reg : Registry) : Prop := {
  ok_id : ∀ k o, _objectRegistry reg !! k = Some o → _idPromise o = k;
  ok_allocated : ∀ k o,
    _objectRegistry reg !! k = Some o → (identity o < next_identity reg)%nat;
  ok_distinct : ∀ k k' o o',
    _objectRegistry reg !! k = Some o → _objectRegistry reg !! k' = Some o' →
    identity o = identity o' → k = k';
}.

End ObjectRegistry.

(** ** The server's service registry and HTTP routes *)

Module Services.

(** What a service function does when it is applied to arguments: it
    returns a value (for the services of this server, a promise; the
    model writes the value the promise resolves to) or it fails with a
    reason. *)
Inductive ServiceResult :=
| Returns (v : JsVal)
| Fails (e : JsVal).

Definition Service : Type := list JsVal → ServiceResult.

(** A middleware on the stack of the [connect] application: the handler
    that [_registerHttpService] installs through [this._app[method]], or
    the error handler of [_setupServices]. *)
Inductive Middleware :=
| ServiceRoute (uri : string) (methodName : string) (isTextResponse : bool)
| ErrorHandler.

(** The part of a [NuclideServer] that serves HTTP: the registry, the
    middleware in the order of the [use] calls, and the version. *)
Record NuclideServer := {
  _serviceRegistry : gmap string Service;
  _app : list Middleware;
  _version : string;
}.

Definition set_serviceRegistry (f : gmap string Service → gmap string Service)
    (st : NuclideServer) : NuclideServer :=
  {| _serviceRegistry := f (_serviceRegistry st); _app := _app st;
     _version := _version st |}.

(** [this._app.use(...)]. *)
Definition use (m : Middleware) (st : NuclideServer) : NuclideServer :=
  {| _serviceRegistry := _serviceRegistry st; _app := _app st ++ [m];
     _version := _version st |}.

(** The registry is a plain object, [{}]: reading a property that is not
    its own finds the members of [Object.prototype]. *)
Inductive Member :=
| Own (f : Service)
| Inherited.

(** [this._serviceRegistry[serviceName]]; [None] is [undefined].  Every
    member, own or inherited, is truthy. *)
Definition registry_get (serviceName : string) (st : NuclideServer) : option Member :=
  match _serviceRegistry st !! serviceName with
  | Some f => Some (Own f)
  | None =>
      if bool_decide (serviceName ∈ Object_prototype) then Some Inherited else None
  end.

(** [toLowerCase] and [toUpperCase] on the ASCII letters; other
    characters are left as they are.  The strings compared here are the
    four method names below and the method of an HTTP request, which is
    an ASCII token. *)
Definition lower_char (c : ascii) : ascii :=
  let n := nat_of_ascii c in
  if ((65 <=? n) && (n <=? 90))%nat then ascii_of_nat (n + 32) else c.

Definition upper_char (c : ascii) : ascii :=
  let n := nat_of_ascii c in
  if ((97 <=? n) && (n <=? 122))%nat then ascii_of_nat (n - 32) else c.

Fixpoint toLowerCase (s : string) : string :=
  match s with
  | EmptyString => EmptyString
  | String c s => String (lower_char c) (toLowerCase s)
  end.

Fixpoint toUpperCase (s : string) : string :=
  match s with
  | EmptyString => EmptyString
  | String c s => String (upper_char c) (toUpperCase s)
  end.

(** The method handlers that [_attachUtilHandlers] adds to the
    application. *)
Definition methods : list string := ["get"; "post"; "delete"; "put"]%string.

(** How a registration ends.  [AppMember m] stands for the call of
    [this._app[m]] when [m] is not one of the four names above: what that
    member of the [connect] application is and does is not part of this
    code. *)
Inductive Registration :=
| Registered (st : NuclideServer)
| Thrown (e : Exn) (st : NuclideServer)
| AppMember (m : string) (st : NuclideServer).

Definition registration_state (r : Registration) : NuclideServer :=
  match r with
  | Registered st | Thrown _ st | AppMember _ st => st
  end.

(** [_registerHttpService(serviceName, method, isTextResponse)]. *)
Definition _registerHttpService (serviceName method : string) (isTextResponse : bool)
    (st : NuclideServer) : Registration :=
  let loweredCaseMethod := toLowerCase method in
  if bool_decide (loweredCaseMethod ∈ methods)
  then Registered (use (ServiceRoute serviceName loweredCaseMethod isTextResponse) st)
  else AppMember loweredCaseMethod st.

(** [_registerService(serviceName, serviceFunction, method,
    isTextResponse)].  The second argument of [new Error] is not part of
    the message. *)
Definition _registerService (serviceName : string) (serviceFunction : Service)
    (method : string) (isTextResponse : bool) (st : NuclideServer) : Registration :=
  match registry_get serviceName st with
  | Some _ => Thrown (Error "A service with this name is already registered:") st
  | None =>
      let st := set_serviceRegistry <[serviceName := serviceFunction]> st in
      _registerHttpService serviceName method isTextResponse st
  end.

(** How [callService] ends: with what the service function returned,
    with the application of a member of [Object.prototype], or with an
    exception of its own. *)
Inductive Called :=
| Applied (r : ServiceResult)
| AppliedInherited (serviceName : string) (args : list JsVal)
| Raised (e : Exn).

(** [callService(serviceName, args)]. *)
Definition callService (serviceName : string) (args : list JsVal) (st : NuclideServer)
  : Called :=
  match registry_get serviceName st with
  | None => Raised (Error ("No service registered with name: " +:+ serviceName))
  | Some (Own serviceFunction) => Applied (serviceFunction args)
  | Some Inherited => AppliedInherited serviceName args
  end.

(** An HTTP request as the handlers see it: its method and the
    arguments that [deserializeArgs] reads from its URL. *)
Record Request := {
  req_method : string;
  req_args : list JsVal;
}.

(** What a handler does with a request: it sends a text or a JSON
    response, it calls [next()], or it calls [next(e)] with what was
    thrown; [NextInherited] stands for what the application of a member
    of [Object.prototype] would lead to. *)
Inductive Handled :=
| SendText (text : JsVal)
| SendJson (json : JsVal)
| Next
| NextError (e : Exn + JsVal)
| NextInherited (serviceName : string).

(** The handler of a service route: the method filter of
    [_attachUtilHandlers] around the handler of [_registerHttpService]. *)
Definition service_handler (serviceName methodName : string) (isTextResponse : bool)
    (request : Request) (st : NuclideServer) : Handled :=
  if bool_decide (toUpperCase (req_method request) ≠ toUpperCase methodName) then Next
  else
    match callService serviceName (req_args request) st with
    | Applied (Returns result) =>
        if isTextResponse
        then SendText (if truthy result then result else JStr "")
        else SendJson result
    | Applied (Fails e) => NextError (inr e)
    | Raised e => NextError (inl e)
    | AppliedInherited name _ => NextInherited name
    end.

Section Setup.

(** The channel name imported from [./config]. *)
Variable HEARTBEAT_CHANNEL : string.

(** [_setupHeartbeatHandler()]. *)
Definition _setupHeartbeatHandler (st : NuclideServer) : Registration :=
  _registerService ("/" +:+ HEARTBEAT_CHANNEL) (λ _, Returns (JStr (_version st)))
    "post" true st.

(** [_setupServices()]. *)
Definition _setupServices (st : NuclideServer) : Registration :=
  let st := set_serviceRegistry (λ _, ∅) st in
  match _setupHeartbeatHandler st with
  | Registered st => Registered (use ErrorHandler st)
  | r => r
  end.

End Setup.

(** A registration request. *)
Record Register := {
  reg_name : string;
  reg_function : Service;
  reg_method : string;
  reg_text : bool;
}.

(** Registrations one after the other, whether or not they succeed. *)
Definition register_all (rs : list Register) (st : NuclideServer) : NuclideServer :=
  foldl (λ st r, registration_state
                   (_registerService (reg_name r) (reg_function r) (reg_method r)
                      (reg_text r) st)) st rs.

(** A server that has been set up, for the concrete cases. *)
Definition example_server : NuclideServer :=
  registration_state
    (_setupServices "heartbeat"
       {| _serviceRegistry := ∅; _app := []; _version := "0.0.0" |}).

Definition echo : Service := λ args, Returns (default JUndefined (head args)).

End Services.

(** ** The server process: [main], the one server, [shutdown] *)

Module Process.

(** A TLS option of the server as [main] passes it on: the command-line
    value as it was given, or the [Buffer] read from the file it names.
    A [Buffer] is an object, so it is truthy whatever it holds. *)
Inductive Credential :=
| Given (v : JsVal)
| Buffer (contents : string).

Definition truthy_credential (c : Credential) : bool :=
  match c with
  | Given v => truthy v
  | Buffer _ => true
  end.

Record NuclideServerOptions := {
  port : Z;
  serverKey : Credential;
  serverCertificate : Credential;
  certificateAuthorityCertificate : Credential;
}.

(** A [NuclideServer] that has been constructed: whether its web server
    was made by [https.createServer] or by [http.createServer], and its
    port. *)
Record ServerObject := {
  secure : bool;
  _port : Z;
}.

(** The process: the static [NuclideServer._theServer], the objects that
    [new NuclideServer] was run on so far (a server is named by its
    position; [None] stands for an object whose constructor raised before
    it was done, so that no caller was given it), the servers whose
    [close] has run, the exit code once [flushLogsAndExit] has been
    called, and the log. *)
Record Process := {
  _theServer : option nat;
  servers : list (option ServerObject);
  released : list nat;
  exited : option Z;
  log : list LogEntry;
}.

Definition start : Process :=
  {| _theServer := None; servers := []; released := []; exited := None; log := [] |}.

Definition logger (l : Level) (t : string) (ps : list string) (p : Process) : Process :=
  {| _theServer := _theServer p; servers := servers p; released := released p;
     exited := exited p;
     log := log p ++ [{| level := l; text := t; params := ps |}] |}.

Definition flushLogsAndExit (code : Z) (p : Process) : Process :=
  {| _theServer := _theServer p; servers := servers p; released := released p;
     exited := Some code; log := log p |}.

Inductive Outcome (A : Type) :=
| Normal (a : A) (p : Process)
| Thrown (e : Exn) (p : Process).
Arguments Normal {A} a p.
Arguments Thrown {A} e p.

Definition process_of {A} (o : Outcome A) : Process :=
  match o with
  | Normal _ p | Thrown _ p => p
  end.

(** [new NuclideServer(options)], as far as the static field and the
    choice between HTTPS and HTTP go.  The static field is set right
    after the assertion, before anything is built.  [building] is what
    the rest of the constructor does: it builds the web server, the
    socket server and the services, or one of these raises
    ([https.createServer] does on key material it cannot parse); the
    exception leaves the constructor with the static field set. *)
Definition new_NuclideServer (building : option Exn) (options : NuclideServerOptions)
    (p : Process) : Outcome nat :=
  match _theServer p with
  | Some _ => Thrown AssertionError p
  | None =>
      let this := length (servers p) in
      match building with
      | None =>
          Normal this
            {| _theServer := Some this;
               servers :=
                 servers p ++
                 [Some
                    {| secure :=
                         truthy_credential (serverKey options)
                         && truthy_credential (serverCertificate options)
                         && truthy_credential (certificateAuthorityCertificate options);
                       _port := port options |}];
               released := released p; exited := exited p; log := log p |}
      | Some e =>
          Thrown e
            {| _theServer := Some this; servers := servers p ++ [None];
               released := released p; exited := exited p; log := log p |}
      end
  end.

(** [close()] on server [this].  [closing] is what closing the socket
    server and the web server does: nothing more, or an exception. *)
Definition close (closing : option Exn) (this : nat) (p : Process) : Outcome unit :=
  if bool_decide (_theServer p = Some this) then
    let p := {| _theServer := None; servers := servers p;
                released := released p ++ [this]; exited := exited p; log := log p |} in
    match closing with
    | None => Normal () p
    | Some e => Thrown e p
    end
  else Thrown AssertionError p.

(** [NuclideServer.shutdown()]. *)
Definition shutdown (closing : option Exn) (p : Process) : Process :=
  let p := logger Info "Shutting down the server" [] p in
  let p :=
    match _theServer p with
    | Some this =>
        match close closing this p with
        | Normal _ p => p
        | Thrown _ p =>
            logger Err "Error while shutting down, but proceeding anyway:" [] p
        end
    | None => p
    end in
  flushLogsAndExit 0 p.

(** The arguments of [main]. *)
Record Args := {
  arg_port : Z;
  arg_key : JsVal;
  arg_cert : JsVal;
  arg_ca : JsVal;
}.

Section Main.

(** [fs.readFileSync]: the contents of the file, or [None] when it
    throws. *)
Variable readFileSync : JsVal → option string.

(** What the constructor of the server does after it has set the static
    field: see [new_NuclideServer]. *)
Variable building : option Exn.

(** What [server.connect()] comes to: the web server listens, or it
    reports an error.  The error goes to the listeners of the web server
    in the order they were added: first to the socket server, which was
    made in the constructor and passes the error on to its own ['error']
    listener, the one that logs it; then to the listener of [connect],
    which rejects the promise. *)
Variable listen_error : option JsVal.

(** The [catch] block of [main]: [logger.fatal(e)], of which the model
    keeps the level, and [flushLogsAndExit(1)]. *)
Definition main_failed (p : Process) : Process :=
  flushLogsAndExit 1 (logger Fatal "" [] p).

(** [main(args)].  [setupServer()] swallows its exception. *)
Definition main (args : Args) (p : Process) : Process :=
  let options :=
    if truthy (arg_key args) && truthy (arg_cert args) && truthy (arg_ca args) then
      match readFileSync (arg_key args), readFileSync (arg_cert args),
            readFileSync (arg_ca args) with
      | Some key, Some cert, Some ca =>
          Some {| port := arg_port args; serverKey := Buffer key;
                  serverCertificate := Buffer cert;
                  certificateAuthorityCertificate := Buffer ca |}
      | _, _, _ => None
      end
    else
      Some {| port := arg_port args; serverKey := Given (arg_key args);
              serverCertificate := Given (arg_cert args);
              certificateAuthorityCertificate := Given (arg_ca args) |} in
  match options with
  | None => main_failed p
  | Some options =>
      match new_NuclideServer building options p with
      | Thrown _ p => main_failed p
      | Normal _ p =>
          match listen_error with
          | Some _ => main_failed (logger Err "WebSocketServer Error:" [] p)
          | None =>
              logger Info ("NuclideServer started on port " +:+ pretty (arg_port args)
                           +:+ ".") [] p
          end
      end
  end.

End Main.

(** What a program does with the class. *)
Inductive Event :=
| New (options : NuclideServerOptions) (building : option Exn)
| Close (this : nat) (closing : option Exn).

Definition step (ev : Event) (p : Process) : Process :=
  match ev with
  | New options building => process_of (new_NuclideServer building options p)
  | Close this closing => process_of (close closing this p)
  end.

Definition run (evs : list Event) (p : Process) : Process :=
  foldl (λ p ev, step ev p) p evs.

Definition reachable (p : Process) : Prop := ∃ evs, p = run evs start.

(** At most one server is current, and every other object that the
    constructor was run on has been released by its [close], once. *)
Record one_server (p : Process) : Prop := {
  one_current : ∀ this, _theServer p = Some this → (this < length (servers p))%nat;
  one_constructed : ∀ i, i ∈ released p → (i < length (servers p))%nat;
  one_released : ∀ i, (i < length (servers p))%nat →
    (i ∈ released p ∧ _theServer p ≠ Some i)
    ∨ ((i ∉ released p) ∧ _theServer p = Some i);
  one_once : NoDup (released p);
}.

(** Options without TLS files. *)
Definition plain_options : NuclideServerOptions :=
  {| port := 9090; serverKey := Given JUndefined; serverCertificate := Given JUndefined;
     certificateAuthorityCertificate := Given JUndefined |}.

(** A file system with a key and a certificate and no authority file. *)
Definition example_fs (path : JsVal) : option string :=
  match path with
  | JStr "key.pem" => Some "KEY"%string
  | JStr "cert.pem" => Some "CERT"%string
  | _ => None
  end.

End Process.

(** ** Keys of the file tree *)

Module FileTreeHelpers.

(** [s.replace(/\/+$/, '')]: the pattern matches the run of slashes at
    the end of the string, if there is one, and the run is removed. *)
Fixpoint strip_trailing_slashes (s : string) : string :=
  match s with
  | EmptyString => EmptyString
  | String c s =>
      match strip_trailing_slashes s with
      | EmptyString => if bool_decide (c = "/"%char) then EmptyString else String c EmptyString
      | r => String c r
      end
  end.

(** [s.slice(-1)]: the last character, or the empty string. *)
Fixpoint slice_last (s : string) : string :=
  match s with
  | EmptyString => EmptyString
  | String c EmptyString => String c EmptyString
  | String _ s => slice_last s
  end.

(** [s.slice(n)] for [n] from 0 on. *)
Fixpoint slice (n : nat) (s : string) : string :=
  match n, s with
  | O, _ => s
  | S n, String _ s => slice n s
  | S _, EmptyString => EmptyString
  end.

(** [s.lastIndexOf(c)]; [None] is -1. *)
Fixpoint lastIndexOf (c : ascii) (s : string) : option nat :=
  match s with
  | EmptyString => None
  | String c' s =>
      match lastIndexOf c s with
      | Some i => Some (S i)
      | None => if bool_decide (c' = c) then Some O else None
      end
  end.

Definition dirPathToKey (path : string) : string :=
  strip_trailing_slashes path +:+ "/".

Definition isDirKey (key : string) : bool :=
  bool_decide (slice_last key = "/"%string).

Definition keyToPath (key : string) : string :=
  strip_trailing_slashes key.

Definition keyToName (key : string) : string :=
  let path := keyToPath key in
  match lastIndexOf "/" path with
  | None => path
  | Some index => slice (index + 1) path
  end.

(** A string of [n] slashes. *)
Fixpoint slashes (n : nat) : string :=
  match n with
  | O => EmptyString
  | S n => String "/" (slashes n)
  end.

End FileTreeHelpers.

(** ** Validation of a connection profile *)

Module ConnectionProfile.

(** The result of [validateFormInputs]: [{errorMessage}], or
    [{validatedProfile: {displayTitle, params}}] with a [warningMessage]
    if there is one. *)
Inductive ValidationResult :=
| Invalid (errorMessage : string)
| Valid (displayTitle : JsVal) (params : list (string * JsVal))
    (warningMessage : option string).

(** [o.k] on an object given by its properties. *)
Definition get (o : list (string * JsVal)) (k : string) : JsVal :=
  default JUndefined (assoc k o).

(** [a.join(', ')]. *)
Fixpoint join (a : list string) : string :=
  match a with
  | [] => ""
  | [x] => x
  | x :: a => x +:+ ", " +:+ join a
  end.

Definition newline : string := String "010"%char EmptyString.

Definition password_warning : string :=
  "* You provided a password for this profile. "
  +:+ "For security, Nuclide will save the other parts of this profile, "
  +:+ "but not the password." +:+ newline.

Section Validate.

(** [SshHandshake.SupportedMethods.PRIVATE_KEY] and [.PASSWORD]. *)
Variable PRIVATE_KEY : string.
Variable PASSWORD : string.

(** One of the four fields that are copied if they are filled in. *)
Definition copy_field (connectionDetails : list (string * JsVal)) (field label : string)
    (acc : list string * list (string * JsVal)) : list string * list (string * JsVal) :=
  if negb (truthy (get connectionDetails field))
  then (acc.1 ++ [label], acc.2)
  else (acc.1, assoc_set field (get connectionDetails field) acc.2).

(** The checks up to the test of [missingFields.length]: the missing
    fields and [profileParams]. *)
Definition collect (profileName : JsVal) (connectionDetails : list (string * JsVal))
  : list string * list (string * JsVal) :=
  let acc : list string * list (string * JsVal) := ([], []) in
  let acc := if negb (truthy profileName) then (acc.1 ++ ["Profile Name"%string], acc.2)
             else acc in
  let acc := copy_field connectionDetails "username" "Username" acc in
  let acc := copy_field connectionDetails "server" "Server" acc in
  let acc := copy_field connectionDetails "cwd" "Initial Directory" acc in
  let acc := copy_field connectionDetails "sshPort" "SSH Port" acc in
  let authMethod := get connectionDetails "authMethod" in
  let acc := if negb (truthy authMethod)
             then (acc.1 ++ ["Authentication Method"%string], acc.2)
             else (acc.1, assoc_set "authMethod" authMethod acc.2) in
  if strict_eq_str authMethod PRIVATE_KEY
     && negb (truthy (get connectionDetails "pathToPrivateKey"))
  then (acc.1 ++ ["Private Key File (required for the authentication method you selected)"
                  %string], acc.2)
  else (acc.1, assoc_set "pathToPrivateKey" (get connectionDetails "pathToPrivateKey")
                 acc.2).

Definition validateFormInputs (profileName : JsVal)
    (connectionDetails : list (string * JsVal)) (defaultRemoteServerCommand : string)
  : ValidationResult :=
  let '(missingFields, profileParams) := collect profileName connectionDetails in
  if negb (bool_decide (missingFields = [])) then
    Invalid ("You must fill out all fields. Currently missing:" +:+ newline
             +:+ join missingFields)
  else
    let authMethod := get connectionDetails "authMethod" in
    let warningMessage :=
      if strict_eq_str authMethod PASSWORD && truthy (get connectionDetails "password")
      then password_warning else ""%string in
    let remoteServerCommand := get connectionDetails "remoteServerCommand" in
    let profileParams :=
      if truthy remoteServerCommand
         && negb (strict_eq_str remoteServerCommand defaultRemoteServerCommand)
      then assoc_set "remoteServerCommand" remoteServerCommand profileParams
      else assoc_set "remoteServerCommand" (JStr "") profileParams in
    Valid profileName profileParams
      (if bool_decide (warningMessage = ""%string) then None else Some warningMessage).

(** All that the form requires is filled in. *)
Definition complete (profileName : JsVal) (connectionDetails : list (string * JsVal))
  : bool :=
  truthy profileName
  && truthy (get connectionDetails "username")
  && truthy (get connectionDetails "server")
  && truthy (get connectionDetails "cwd")
  && truthy (get connectionDetails "sshPort")
  && truthy (get connectionDetails "authMethod")
  && (negb (strict_eq_str (get connectionDetails "authMethod") PRIVATE_KEY)
      || truthy (get connectionDetails "pathToPrivateKey")).

End Validate.

(** A form filled in for password authentication, with the default
    server command. *)
Definition example_details : list (string * JsVal) :=
  [("username"%string, JStr "me"); ("server"%string, JStr "host");
   ("cwd"%string, JStr "/home/me"); ("sshPort"%string, JStr "22");
   ("authMethod"%string, JStr "PASSWORD"); ("password"%string, JStr "secret");
   ("remoteServerCommand"%string, JStr "nuclide-start-server")].

End ConnectionProfile.

(** ** Diagnostics of the Hack provider *)

Module HackDiagnostics.
Import PrimFloat.

(** An item of the [message] array of a diagnostic from Hack, with the
    fields that the conversion reads.  The numbers are JavaScript
    numbers: double-precision floats. *)
Record HackError := {
  path : string;
  descr : string;
  line : float;
  start : float;
  end_ : float;
}.

(** A [Range] is an object of atom, whose class is not part of this
    code: it stands here as the call [new Range(pointA, pointB)] that
    makes it, each point an array [[row, column]].  (Atom's constructor
    puts the two points in order.) *)
Inductive Range :=
| new_Range (pointA pointB : float * float).

Definition extractRange (message : HackError) : Range :=
  new_Range ((line message - 1)%float, (start message - 1)%float)
            ((line message - 1)%float, end_ message).

(** [{type: 'Trace', text, filePath, range}]. *)
Record Trace := {
  trace_text : string;
  trace_filePath : string;
  trace_range : Range;
}.

Definition hackMessageToTrace (traceError : HackError) : Trace :=
  {| trace_text := descr traceError; trace_filePath := path traceError;
     trace_range := extractRange traceError |}.

(** [{scope: 'file', providerName: 'Hack', type: 'Error', text,
    filePath, range}], with a [trace] if one was set. *)
Record FileDiagnosticMessage := {
  text : string;
  filePath : string;
  range : Range;
  trace : option (list Trace);
}.

(** [hackMessageToDiagnosticMessage(hackDiagnostic)] on the [message]
    array of the diagnostic.  On an empty array [hackMessages[0]] is
    [undefined] and reading its [descr] raises a TypeError: [None]. *)
Definition hackMessageToDiagnosticMessage (hackMessages : list HackError)
  : option FileDiagnosticMessage :=
  match hackMessages with
  | [] => None
  | causeMessage :: rest =>
      Some {| text := descr causeMessage; filePath := path causeMessage;
              range := extractRange causeMessage;
              trace := if bool_decide (1 < length hackMessages)%nat
                       then Some (hackMessageToTrace <$> rest) else None |}
  end.

(** A [Map] with string keys, in insertion order. *)
Definition Map (A : Type) : Type := list (string * A).

Fixpoint Map_get {A} (k : string) (m : Map A) : option A :=
  match m with
  | [] => None
  | (k', v) :: m => if bool_decide (k' = k) then Some v else Map_get k m
  end.

(** [array.push(x)] on the array stored under [k]. *)
Fixpoint Map_push {A} (k : string) (x : A) (m : Map (list A)) : Map (list A) :=
  match m with
  | [] => []
  | (k', v) :: m =>
      if bool_decide (k' = k) then (k', v ++ [x]) :: m else (k', v) :: Map_push k x m
  end.

(** One round of the loop of [_processDiagnostics]. *)
Definition group_step (filePathToMessages : Map (list FileDiagnosticMessage))
    (diagnostic : FileDiagnosticMessage) : Map (list FileDiagnosticMessage) :=
  match Map_get (filePath diagnostic) filePathToMessages with
  | None => filePathToMessages ++ [(filePath diagnostic, [diagnostic])]
  | Some _ => Map_push (filePath diagnostic) diagnostic filePathToMessages
  end.

(** The loop, from the map [m] on. *)
Definition group_from (m : Map (list FileDiagnosticMessage))
    (fileDiagnostics : list FileDiagnosticMessage) : Map (list FileDiagnosticMessage) :=
  foldl group_step m fileDiagnostics.

Definition group (fileDiagnostics : list FileDiagnosticMessage)
  : Map (list FileDiagnosticMessage) :=
  group_from [] fileDiagnostics.

(** [_processDiagnostics(diagnostics)]: [filePathToMessages], or [None]
    when a conversion raises. *)
Definition _processDiagnostics (diagnostics : list (list HackError))
  : option (Map (list FileDiagnosticMessage)) :=
  group <$> mapM hackMessageToDiagnosticMessage diagnostics.

(** The strings of a list in the order in which they first occur. *)
Definition first_occurrences (l : list string) : list string :=
  foldl (λ acc x, if bool_decide (x ∈ acc) then acc else acc ++ [x]) [] l.

(** The diagnostics of the file [p]. *)
Definition of_file (p : string) (ds : list FileDiagnosticMessage)
  : list FileDiagnosticMessage :=
  filter (λ d, filePath d = p) ds.

End HackDiagnostics.

(** * Properties of [decodeError] *)

Module ErrorTheory.

(** An object on the wire survives [decodeError] field by field. *)
Example decodeError_object :
  decodeError (JObj PlainObject [("message"%string, JStr "boom");
                                 ("code"%string, JStr "EBOOM")])
  = JObj ErrorObject [("message"%string, JStr "boom"); ("code"%string, JStr "EBOOM");
                      ("stack"%string, JUndefined)].
Proof. reflexivity. Qed.

Example decodeError_string : decodeError (JStr "oops") = JStr "oops".
Proof. reflexivity. Qed.

Example decodeError_null : decodeError JNull = JNull.
Proof. reflexivity. Qed.

(** C8: on an object, [decodeError] returns an Error whose [message],
    [code] and [stack] read as the corresponding properties of the encoded
    object (a property the encoded object lacks reads as [undefined] on
    both sides, so [code] is [undefined] when the encoded object has
    none); any other value, [null] and [undefined] included, is returned
    as it is. *)
Theorem decodeError_faithful (encodedError : JsVal) :
  match encodedError with
  | JObj _ ps =>
      is_Error (decodeError encodedError) ∧
      js_prop (decodeError encodedError) "message" = js_prop encodedError "message" ∧
      js_prop (decodeError encodedError) "code" = js_prop encodedError "code" ∧
      js_prop (decodeError encodedError) "stack" = js_prop encodedError "stack" ∧
      (assoc "code" ps = None → js_prop (decodeError encodedError) "code" = JUndefined)
  | _ => decodeError encodedError = encodedError
  end.
Proof.
  destruct encodedError as [| | | | |kind ps]; try reflexivity.
  unfold decodeError. simpl.
  split_and!; try done.
  intros H. by rewrite H.
Qed.

Lemma decodeError_witness :
  assoc "code" [("message"%string, JStr "boom")] = None ∧
  js_prop (decodeError (JObj PlainObject [("message"%string, JStr "boom")])) "code"
    = JUndefined ∧
  js_prop (decodeError (JObj PlainObject [("message"%string, JStr "boom")])) "message"
    = JStr "boom".
Proof.
  destruct (decodeError_faithful (JObj PlainObject [("message"%string, JStr "boom")]))
    as (_ & Hm & _ & _ & Hc).
  split; [reflexivity|]. split; [by apply Hc|exact Hm].
Defined.

End ErrorTheory.

(** * Properties of the server *)

Module ServerTheory.
Import Server.

(** ** One call of [_sendSocketMessage] *)

Lemma send_unfold c d st cl :
  _clients st !! c = Some cl →
  _sendSocketMessage c d st =
    {| _clients :=
         <[c := with_queue (messageQueue cl ++ [{| ref := next_ref st; data := d |}]) cl]>
           (_clients st);
       sockets :=
         match socket cl with
         | Some s => alter (ws_send d) s (sockets st)
         | None => sockets st
         end;
       callbacks :=
         callbacks st ++
         match socket cl with
         | Some _ => [{| cb_client := c;
                         cb_message := {| ref := next_ref st; data := d |} |}]
         | None => []
         end;
       next_ref := S (next_ref st);
       handled := handled st;
       log := log st |}.
Proof.
  intros E. unfold _sendSocketMessage. rewrite E.
  destruct (socket cl); simpl; [reflexivity|].
  unfold set_clients, bump_ref; simpl. by rewrite app_nil_r.
Qed.

Lemma send_absent c d st :
  _clients st !! c = None → _sendSocketMessage c d st = st.
Proof. intros E. unfold _sendSocketMessage. by rewrite E. Qed.

Lemma fresh_messages_cons r d ds :
  fresh_messages r (d :: ds) = {| ref := r; data := d |} :: fresh_messages (S r) ds.
Proof.
  unfold fresh_messages. simpl. rewrite Nat.add_0_r. f_equal.
  apply imap_ext. intros i x _. simpl. f_equal. lia.
Qed.

Lemma fresh_messages_data r ds : data <$> fresh_messages r ds = ds.
Proof.
  revert r. induction ds as [|d ds IH]; intros r; [done|].
  rewrite fresh_messages_cons. simpl. by rewrite IH.
Qed.

Lemma fresh_messages_ref r ds m :
  m ∈ fresh_messages r ds → (r ≤ ref m < r + length ds)%nat.
Proof.
  revert r. induction ds as [|d ds IH]; intros r.
  - intros H. by apply elem_of_nil in H.
  - rewrite fresh_messages_cons. intros [->|H]%elem_of_cons; simpl; [lia|].
    apply IH in H. lia.
Qed.

(** ** A sequence of calls *)

Lemma send_all_absent c ds st :
  _clients st !! c = None → send_all c ds st = st.
Proof.
  intros E. induction ds as [|d ds IH]; [done|].
  unfold send_all in *. simpl. by rewrite send_absent.
Qed.

Lemma send_all_spec c ds : ∀ st cl,
  _clients st !! c = Some cl →
  _clients (send_all c ds st) !! c
    = Some (with_queue (messageQueue cl ++ fresh_messages (next_ref st) ds) cl)
  ∧ (∀ c', c ≠ c' → _clients (send_all c ds st) !! c' = _clients st !! c')
  ∧ next_ref (send_all c ds st) = (next_ref st + length ds)%nat
  ∧ handled (send_all c ds st) = handled st
  ∧ log (send_all c ds st) = log st
  ∧ length (sockets (send_all c ds st)) = length (sockets st)
  ∧ (∀ s, closed <$> sockets (send_all c ds st) !! s = closed <$> sockets st !! s)
  ∧ (∀ s, sockets (send_all c ds st) !! s ≫= client = sockets st !! s ≫= client)
  ∧ (∀ s w, sockets st !! s = Some w →
       outbox_of s (send_all c ds st)
       = outbox w ++ (if bool_decide (socket cl = Some s) then ds else []))
  ∧ callbacks (send_all c ds st)
    = callbacks st ++
      match socket cl with
      | Some _ => mk_callback c <$> fresh_messages (next_ref st) ds
      | None => []
      end.
Proof.
  induction ds as [|d ds IH]; intros st cl E.
  - unfold send_all, fresh_messages; simpl.
    rewrite !app_nil_r, Nat.add_0_r.
    split_and!; try done.
    + rewrite E. by destruct cl.
    + intros s w Hs. unfold outbox_of. rewrite Hs. simpl.
      case_bool_decide; by rewrite app_nil_r.
    + destruct (socket cl); simpl; by rewrite ?app_nil_r.
  - change (send_all c (d :: ds) st) with (send_all c ds (_sendSocketMessage c d st)).
    rewrite (send_unfold _ _ _ _ E).
    match goal with |- context [send_all c ds ?s] => set (st1 := s) end.
    set (cl1 := with_queue (messageQueue cl ++ [{| ref := next_ref st; data := d |}]) cl).
    assert (E1 : _clients st1 !! c = Some cl1) by (subst st1; simpl; apply lookup_insert_eq).
    destruct (IH st1 cl1 E1) as (H1 & H2 & H3 & H4 & H5 & H6 & H7 & H8 & H9 & H10).
    rewrite fresh_messages_cons.
    split_and!.
    + rewrite H1. subst st1 cl1; simpl. unfold with_queue; simpl.
      by rewrite <- app_assoc.
    + intros c' Hne. rewrite (H2 c' Hne). subst st1; simpl. by rewrite lookup_insert_ne.
    + rewrite H3. subst st1; simpl. lia.
    + by rewrite H4.
    + by rewrite H5.
    + rewrite H6. subst st1; simpl. destruct (socket cl); [apply length_alter|done].
    + intros s. rewrite H7. subst st1; simpl. destruct (socket cl) as [s0|]; [|done].
      destruct (decide (s0 = s)) as [->|Hne].
      * rewrite list_lookup_alter_eq. by destruct (sockets st !! s).
      * by rewrite list_lookup_alter_ne.
    + intros s. rewrite H8. subst st1; simpl. destruct (socket cl) as [s0|]; [|done].
      destruct (decide (s0 = s)) as [->|Hne].
      * rewrite list_lookup_alter_eq. by destruct (sockets st !! s).
      * by rewrite list_lookup_alter_ne.
    + intros s w Hs. subst cl1. simpl in H9.
      destruct (socket cl) as [s0|] eqn:Es.
      * destruct (decide (s0 = s)) as [->|Hne].
        -- rewrite (H9 s (ws_send d w)).
           ++ simpl. rewrite !bool_decide_eq_true_2 by done.
              by rewrite <- app_assoc.
           ++ subst st1; simpl. rewrite list_lookup_alter_eq, Hs. done.
        -- rewrite (H9 s w).
           ++ rewrite !bool_decide_eq_false_2 by congruence. done.
           ++ subst st1; simpl. by rewrite list_lookup_alter_ne.
      * rewrite (H9 s w) by (subst st1; simpl; done).
        by rewrite !bool_decide_eq_false_2 by congruence.
    + rewrite H10. subst st1 cl1; simpl.
      destruct (socket cl); simpl; [by rewrite <- app_assoc | by rewrite !app_nil_r].
Qed.

(** ** The first message of a socket *)

Lemma first_message_unfold s c st :
  attach_session s c st =
  send_all c (data <$> messageQueue (session_or_new c st))
    {| _clients :=
         <[c := with_queue [] (with_socket (Some s) (session_or_new c st))]> (_clients st);
       sockets :=
         match socket (session_or_new c st) with
         | Some old => alter ws_close old (alter (ws_bind c) s (sockets st))
         | None => alter (ws_bind c) s (sockets st)
         end;
       callbacks := callbacks st;
       next_ref := next_ref st;
       handled := handled st;
       log := log st ++ [{| level := Info;
                            text := "Client #%s connecting with a new socket!";
                            params := [c] |}] |}.
Proof.
  unfold attach_session, send_all. fold (session_or_new c st).
  rewrite foldl_fmap. f_equal.
  by destruct (socket (session_or_new c st)).
Qed.

Lemma first_message_spec s c st w :
  sockets st !! s = Some w →
  _clients (attach_session s c st) !! c
    = Some {| id := id (session_or_new c st);
              subscriptions := subscriptions (session_or_new c st);
              socket := Some s;
              messageQueue :=
                fresh_messages (next_ref st)
                  (data <$> messageQueue (session_or_new c st)) |}
  ∧ (∀ c', c ≠ c' → _clients (attach_session s c st) !! c' = _clients st !! c')
  ∧ next_ref (attach_session s c st)
    = (next_ref st + length (messageQueue (session_or_new c st)))%nat
  ∧ handled (attach_session s c st) = handled st
  ∧ length (sockets (attach_session s c st)) = length (sockets st)
  ∧ outbox_of s (attach_session s c st)
    = outbox w ++ (data <$> messageQueue (session_or_new c st))
  ∧ (∀ s', s' ≠ s → outbox_of s' (attach_session s c st) = outbox_of s' st)
  ∧ (∀ old, socket (session_or_new c st) = Some old → (old < length (sockets st))%nat →
       closed <$> sockets (attach_session s c st) !! old = Some true)
  ∧ callbacks (attach_session s c st)
    = callbacks st ++
      (mk_callback c <$> fresh_messages (next_ref st)
                           (data <$> messageQueue (session_or_new c st))).
Proof.
  intros Hs. rewrite first_message_unfold.
  set (cl := session_or_new c st).
  match goal with |- context [send_all c _ ?s] => set (st4 := s) end.
  set (cl4 := with_queue [] (with_socket (Some s) cl)).
  assert (E4 : _clients st4 !! c = Some cl4) by (subst st4; simpl; apply lookup_insert_eq).
  destruct (send_all_spec c (data <$> messageQueue cl) st4 cl4 E4)
    as (H1 & H2 & H3 & H4 & H5 & H6 & H7 & H8 & H9 & H10).
  assert (Hlen : length (sockets st4) = length (sockets st)).
  { subst st4; simpl. destruct (socket cl); by rewrite ?length_alter. }
  assert (Hw4 : ∃ w4, sockets st4 !! s = Some w4 ∧ outbox w4 = outbox w).
  { subst st4; simpl. destruct (socket cl) as [old|].
    - destruct (decide (old = s)) as [->|Hne].
      + rewrite !list_lookup_alter_eq, Hs. simpl. eauto.
      + rewrite list_lookup_alter_ne, list_lookup_alter_eq, Hs by done. simpl. eauto.
    - rewrite list_lookup_alter_eq, Hs. simpl. eauto. }
  destruct Hw4 as (w4 & Hw4 & Ho4).
  split_and!.
  - rewrite H1. subst cl4; simpl. done.
  - intros c' Hne. rewrite (H2 c' Hne). subst st4; simpl. by rewrite lookup_insert_ne.
  - rewrite H3. subst st4; simpl. by rewrite length_fmap.
  - by rewrite H4.
  - by rewrite H6.
  - rewrite (H9 s w4 Hw4). subst cl4; simpl.
    rewrite bool_decide_eq_true_2 by done. by rewrite Ho4.
  - intros s' Hne. unfold outbox_of at 2.
    destruct (sockets st !! s') as [w'|] eqn:Hs'.
    + assert (Hw' : ∃ w4', sockets st4 !! s' = Some w4' ∧ outbox w4' = outbox w').
      { subst st4; simpl. destruct (socket cl) as [old|].
        - destruct (decide (old = s')) as [->|Hne'].
          + rewrite list_lookup_alter_eq, list_lookup_alter_ne, Hs' by done. simpl. eauto.
          + rewrite !list_lookup_alter_ne, Hs' by done. eauto.
        - rewrite list_lookup_alter_ne, Hs' by done. eauto. }
      destruct Hw' as (w4' & Hw4' & Ho4').
      rewrite (H9 s' w4' Hw4'). subst cl4; simpl.
      rewrite bool_decide_eq_false_2 by congruence. by rewrite app_nil_r.
    + unfold outbox_of. apply lookup_ge_None in Hs'.
      rewrite (proj2 (lookup_ge_None _ _)); [done|]. lia.
  - intros old Hold Hlt. rewrite H7. subst st4; simpl. fold cl in Hold. rewrite Hold.
    rewrite list_lookup_alter_eq.
    destruct (lookup_lt_is_Some_2 (alter (ws_bind c) s (sockets st)) old) as [x Hx].
    { by rewrite length_alter. }
    by rewrite Hx.
  - rewrite H10. subst st4 cl4; simpl. done.
Qed.

(** ** Removing a wrapper by identity *)

(** The first message of a socket completes normally exactly when the
    table inherits nothing under the name. *)
Lemma first_message_normal s c st st' :
  on_first_message s c st = Normal st' →
  inherits c st = false ∧ st' = attach_session s c st.
Proof. unfold on_first_message. destruct (inherits c st); [done|]. by intros [= <-]. Qed.

Lemma first_message_attaches s c st :
  inherits c st = false → on_first_message s c st = Normal (attach_session s c st).
Proof. unfold on_first_message. by intros ->. Qed.

Lemma inherits_session c st : is_Some (_clients st !! c) → inherits c st = false.
Proof.
  intros [cl E]. unfold inherits. by rewrite bool_decide_eq_false_2 by by rewrite E.
Qed.

Lemma remove_message_subset r q m : m ∈ remove_message r q → m ∈ q.
Proof.
  induction q as [|x q IH]; simpl; [done|].
  case_bool_decide.
  - intros H'. by apply elem_of_cons; right.
  - intros [->|H']%elem_of_cons; apply elem_of_cons; auto.
Qed.

Lemma remove_message_skip r mid post :
  r ∉ (ref <$> mid) →
  remove_message r (mid ++ post) = mid ++ remove_message r post.
Proof.
  induction mid as [|m mid IH]; simpl; [done|].
  intros Hr. apply not_elem_of_cons in Hr as [Hne Hr].
  rewrite bool_decide_eq_false_2 by congruence. by rewrite IH.
Qed.

Lemma remove_message_app r pre rest :
  (∃ pre', remove_message r (pre ++ rest) = pre' ++ rest)
  ∨ remove_message r (pre ++ rest) = pre ++ remove_message r rest.
Proof.
  induction pre as [|x pre IH]; simpl; [by right|].
  case_bool_decide; [left; by exists pre|].
  destruct IH as [[pre' ->]| ->]; [left; by exists (x :: pre')|by right].
Qed.

Lemma remove_message_block r pre mid post :
  r ∉ (ref <$> mid) →
  ∃ pre' post', remove_message r (pre ++ mid ++ post) = pre' ++ mid ++ post'.
Proof.
  intros Hr. destruct (remove_message_app r pre (mid ++ post)) as [[pre' ->]| ->].
  - by exists pre', post.
  - rewrite remove_message_skip by done. by exists pre, (remove_message r post).
Qed.

Lemma remove_message_fresh r q :
  r ∉ (ref <$> q) → remove_message r q = q.
Proof.
  intros Hr. generalize (remove_message_skip r q [] Hr).
  by rewrite !app_nil_r.
Qed.

Lemma delete_appended {A} (l : list A) (x : A) : delete (length l) (l ++ [x]) = l.
Proof. induction l as [|y l IH]; simpl; [done|]. by rewrite IH. Qed.

(** ** Well-formedness is an invariant *)

Lemma client_alter f s (l : list WebSocket) s' :
  (∀ w, client (f w) = client w) →
  alter f s l !! s' ≫= client = l !! s' ≫= client.
Proof.
  intros Hf. destruct (decide (s = s')) as [->|Hne].
  - rewrite list_lookup_alter_eq. destruct (l !! s'); simpl; [apply Hf|done].
  - by rewrite list_lookup_alter_ne.
Qed.

Lemma wf_constructor : wf constructor.
Proof.
  split; simpl.
  - intros c cl s H. by rewrite lookup_empty in H.
  - intros c cl s H. by rewrite lookup_empty in H.
  - intros c cl m H. by rewrite lookup_empty in H.
  - intros cb H. by apply elem_of_nil in H.
Qed.

Lemma wf_send c d st : wf st → wf (_sendSocketMessage c d st).
Proof.
  intros [W1 B W2 W3].
  destruct (_clients st !! c) as [cl|] eqn:E; [|by rewrite send_absent].
  rewrite (send_unfold _ _ _ _ E).
  assert (Hold : ∀ c' cl' s,
            <[c := with_queue (messageQueue cl ++ [{| ref := next_ref st; data := d |}]) cl]>
              (_clients st) !! c' = Some cl' →
            socket cl' = Some s →
            ∃ cl0, _clients st !! c' = Some cl0 ∧ socket cl0 = Some s).
  { intros c' cl' s Hc' Hs. destruct (decide (c = c')) as [<-|Hne].
    - rewrite lookup_insert_eq in Hc'. injection Hc' as <-. by exists cl.
    - rewrite lookup_insert_ne in Hc' by done. by exists cl'. }
  split; simpl.
  - intros c' cl' s Hc' Hs. destruct (Hold _ _ _ Hc' Hs) as (cl0 & H0 & Hs0).
    specialize (W1 _ _ _ H0 Hs0). destruct (socket cl); by rewrite ?length_alter.
  - intros c' cl' s Hc' Hs. destruct (Hold _ _ _ Hc' Hs) as (cl0 & H0 & Hs0).
    specialize (B _ _ _ H0 Hs0). destruct (socket cl); [|done].
    by rewrite client_alter.
  - intros c' cl' m Hc' Hm.
    destruct (decide (c = c')) as [<-|Hne].
    + rewrite lookup_insert_eq in Hc'. injection Hc' as <-. simpl in Hm.
      apply elem_of_app in Hm as [Hm|Hm].
      * specialize (W2 _ _ _ E Hm). lia.
      * apply list_elem_of_singleton in Hm as ->. simpl. lia.
    + rewrite lookup_insert_ne in Hc' by done. specialize (W2 _ _ _ Hc' Hm). lia.
  - intros cb [Hcb|Hcb]%elem_of_app.
    + specialize (W3 _ Hcb). lia.
    + destruct (socket cl); [|by apply elem_of_nil in Hcb].
      apply list_elem_of_singleton in Hcb as ->. simpl. lia.
Qed.

Lemma wf_send_all c ds st : wf st → wf (send_all c ds st).
Proof.
  revert st. induction ds as [|d ds IH]; intros st W; [done|].
  apply (IH (_sendSocketMessage c d st)). by apply wf_send.
Qed.

Lemma wf_first_message s w c st :
  sockets st !! s = Some w → client w = None →
  wf st → wf (attach_session s c st).
Proof.
  intros Hs Hw [W1 B W2 W3]. rewrite first_message_unfold. apply wf_send_all.
  assert (Hlen : (s < length (sockets st))%nat) by by eapply lookup_lt_Some.
  assert (Hnew : alter (ws_bind c) s (sockets st) !! s ≫= client = Some c).
  { rewrite list_lookup_alter_eq, Hs. done. }
  assert (Hsocks : ∀ s',
            match socket (session_or_new c st) with
            | Some old => alter ws_close old (alter (ws_bind c) s (sockets st))
            | None => alter (ws_bind c) s (sockets st)
            end !! s' ≫= client
            = alter (ws_bind c) s (sockets st) !! s' ≫= client).
  { intros s'. destruct (socket (session_or_new c st)); [|done]. by apply client_alter. }
  split; simpl.
  - intros c' cl' s' Hc' Hs'.
    assert (s' < length (sockets st))%nat as Hlt.
    { destruct (decide (c = c')) as [<-|Hne].
      - rewrite lookup_insert_eq in Hc'. injection Hc' as <-. simpl in Hs'. congruence.
      - rewrite lookup_insert_ne in Hc' by done. by eapply W1. }
    destruct (socket (session_or_new c st)); by rewrite ?length_alter.
  - intros c' cl' s' Hc' Hs'. rewrite Hsocks.
    destruct (decide (c = c')) as [<-|Hne].
    + rewrite lookup_insert_eq in Hc'. injection Hc' as <-. simpl in Hs'.
      injection Hs' as <-. exact Hnew.
    + rewrite lookup_insert_ne in Hc' by done.
      pose proof (B _ _ _ Hc' Hs') as Hb.
      assert (s ≠ s') as Hss by (intros <-; rewrite Hs in Hb; simpl in Hb; congruence).
      by rewrite list_lookup_alter_ne.
  - intros c' cl' m Hc' Hm.
    destruct (decide (c = c')) as [<-|Hne].
    + rewrite lookup_insert_eq in Hc'. injection Hc' as <-. by apply elem_of_nil in Hm.
    + rewrite lookup_insert_ne in Hc' by done. by eapply W2.
  - done.
Qed.

Section Steps.

Variable SERVICE_FRAMEWORK3_CHANNEL : string.

Local Abbreviation step := (step SERVICE_FRAMEWORK3_CHANNEL).
Local Abbreviation run := (run SERVICE_FRAMEWORK3_CHANNEL).
Local Abbreviation reachable := (reachable SERVICE_FRAMEWORK3_CHANNEL).
Local Abbreviation run_avoiding := (run_avoiding SERVICE_FRAMEWORK3_CHANNEL).

Lemma on_socket_message_normal c parsed st st' :
  _onSocketMessage SERVICE_FRAMEWORK3_CHANNEL c parsed st = Normal st' →
  ∃ m, parsed = Some m ∧ st' = add_handled c m st.
Proof.
  unfold _onSocketMessage. destruct parsed as [m|]; [|done].
  destruct (js_member m "protocol") as [p|]; [|done].
  destruct (truthy p && strict_eq_str p SERVICE_FRAMEWORK3_CHANNEL); [|done].
  intros [= <-]. eauto.
Qed.

Lemma wf_alter_clients f c st :
  (∀ cl, socket (f cl) = socket cl ∨ socket (f cl) = None) →
  (∀ cl m, m ∈ messageQueue (f cl) → m ∈ messageQueue cl) →
  wf st → wf (set_clients (alter f c) st).
Proof.
  intros Hsock Hq [W1 B W2 W3].
  assert (Hold : ∀ c' cl' s,
            alter f c (_clients st) !! c' = Some cl' → socket cl' = Some s →
            ∃ cl0, _clients st !! c' = Some cl0 ∧ socket cl0 = Some s).
  { intros c' cl' s Hc' Hs. rewrite lookup_alter in Hc'. case_decide as Hd.
    - subst c'. destruct (_clients st !! c) as [cl0|] eqn:E; [|done].
      injection Hc' as <-. exists cl0. split; [done|].
      destruct (Hsock cl0) as [Heq|Heq]; congruence.
    - by exists cl'. }
  split; simpl; [| | |done].
  - intros c' cl' s Hc' Hs. destruct (Hold _ _ _ Hc' Hs) as (cl0 & H0 & Hs0). eauto.
  - intros c' cl' s Hc' Hs. destruct (Hold _ _ _ Hc' Hs) as (cl0 & H0 & Hs0). eauto.
  - intros c' cl' m Hc' Hm. rewrite lookup_alter in Hc'. case_decide as Hd.
    + subst c'. destruct (_clients st !! c) as [cl0|] eqn:E; [|done].
      injection Hc' as <-. apply Hq in Hm. by eapply W2.
    + by eapply W2.
Qed.

Lemma wf_step ev st st' : wf st → step ev st = Normal st' → wf st'.
Proof.
  intros W. destruct ev as [|s text parsed|s|s m|c d|k err]; simpl.
  - intros [= <-]. destruct W as [W1 B W2 W3]. split; simpl; [| |done..].
    + intros c cl s Hc Hs. rewrite length_app. specialize (W1 _ _ _ Hc Hs). lia.
    + intros c cl s Hc Hs. rewrite lookup_app_l by by eapply W1. by eapply B.
  - destruct (sockets st !! s) as [w|] eqn:Hs; [|by intros [= <-]].
    destruct (client w) as [c|] eqn:Hc.
    + intros (m & _ & ->)%on_socket_message_normal. by destruct W.
    + intros [_ ->]%first_message_normal. by eapply wf_first_message.
  - intros [= <-]. unfold on_close.
    destruct (sockets st !! s ≫= client) as [c|]; [|done].
    assert (wf (if bool_decide (socket_of c st = Some s)
                then set_clients (alter (with_socket None) c) st else st)) as W'.
    { case_bool_decide; [|done]. apply wf_alter_clients; [by right|done|done]. }
    by destruct W'.
  - intros [= <-]. by destruct W.
  - intros [= <-]. by apply wf_send.
  - destruct (callbacks st !! k) as [cb|] eqn:Hk; [|by intros [= <-]].
    intros [= <-].
    assert (wf (set_callbacks (delete k) st)) as W'.
    { destruct W as [W1 B W2 W3]. split; try done.
      intros cb' H'%list_elem_of_delete_inv. auto. }
    unfold send_callback. destruct err; [by destruct W'|].
    apply wf_alter_clients; [by left| |done].
    intros cl m. simpl. apply remove_message_subset.
Qed.

Lemma wf_run evs : ∀ st st', wf st → run evs st = Some st' → wf st'.
Proof.
  induction evs as [|ev evs IH]; intros st st' W; simpl.
  - by intros [= <-].
  - destruct (step ev st) as [st1|] eqn:E; [|done].
    apply IH. by eapply wf_step.
Qed.

Lemma reachable_wf st : reachable st → wf st.
Proof. intros [evs H]. eapply wf_run; [apply wf_constructor|done]. Qed.

(** ** Wrappers stay queued *)

Lemma queue_of_send_ne c c' d st :
  c ≠ c' → queue_of c' (_sendSocketMessage c d st) = queue_of c' st.
Proof.
  intros Hne. unfold queue_of.
  destruct (_clients st !! c) as [cl|] eqn:E; [|by rewrite send_absent].
  rewrite (send_unfold _ _ _ _ E). simpl. by rewrite lookup_insert_ne.
Qed.

Lemma queue_of_alter_socket c c' o st :
  queue_of c (set_clients (alter (with_socket o) c') st) = queue_of c st.
Proof.
  unfold queue_of. simpl. rewrite lookup_alter. case_decide; [subst|done].
  by destruct (_clients st !! c).
Qed.

Lemma next_ref_step ev st st' :
  step ev st = Normal st' → (next_ref st ≤ next_ref st')%nat.
Proof.
  destruct ev as [|s text parsed|s|s m|c d|k err]; simpl.
  - by intros [= <-].
  - destruct (sockets st !! s) as [w|] eqn:Hs; [|by intros [= <-]].
    destruct (client w) as [c|].
    + by intros (m & _ & ->)%on_socket_message_normal.
    + intros [_ ->]%first_message_normal.
      destruct (first_message_spec s text st w Hs) as (_ & _ & -> & _). lia.
  - intros [= <-]. unfold on_close.
    destruct (sockets st !! s ≫= client); [|done]. by case_bool_decide.
  - by intros [= <-].
  - intros [= <-]. destruct (_clients st !! c) as [cl|] eqn:E.
    + rewrite (send_unfold _ _ _ _ E). simpl. lia.
    + by rewrite send_absent.
  - destruct (callbacks st !! k) as [cb|]; [|by intros [= <-]].
    intros [= <-]. unfold send_callback. by destruct err.
Qed.

Lemma queued_step c mid ev st st' :
  queued c mid st →
  step ev st = Normal st' →
  ¬ attaches c ev st →
  ¬ acks c mid ev st →
  queued c mid st'.
Proof.
  intros [(pre & post & Hq) Hfresh] Hstep Hatt Hack.
  split; [|intros m Hm; specialize (Hfresh m Hm);
           pose proof (next_ref_step _ _ _ Hstep); lia].
  destruct ev as [|s text parsed|s|s m|c' d|k err]; simpl in Hstep.
  - injection Hstep as <-. by exists pre, post.
  - destruct (sockets st !! s) as [w|] eqn:Hs; [|injection Hstep as <-; by exists pre, post].
    destruct (client w) as [c'|] eqn:Hc.
    + apply on_socket_message_normal in Hstep as (m & _ & ->). by exists pre, post.
    + apply first_message_normal in Hstep as [_ ->].
      assert (text ≠ c) as Hne.
      { intros ->. apply Hatt. by exists s, w, parsed. }
      destruct (first_message_spec s text st w Hs) as (_ & H2 & _).
      exists pre, post. unfold queue_of in *. by rewrite H2.
  - injection Hstep as <-. unfold on_close.
    destruct (sockets st !! s ≫= client) as [c'|]; [|by exists pre, post].
    exists pre, post. case_bool_decide; [|done].
    change (queue_of c (set_clients (alter (with_socket None) c') st) = pre ++ mid ++ post).
    by rewrite queue_of_alter_socket.
  - injection Hstep as <-. by exists pre, post.
  - injection Hstep as <-. destruct (decide (c' = c)) as [->|Hne].
    + destruct (_clients st !! c) as [cl|] eqn:E.
      * rewrite (send_unfold _ _ _ _ E). unfold queue_of in *. simpl.
        rewrite lookup_insert_eq. rewrite E in Hq. simpl in *. rewrite Hq.
        exists pre, (post ++ [{| ref := next_ref st; data := d |}]).
        by rewrite <- !app_assoc.
      * rewrite send_absent by done. by exists pre, post.
    + rewrite queue_of_send_ne by done. by exists pre, post.
  - destruct (callbacks st !! k) as [cb|] eqn:Hk; [|injection Hstep as <-; by exists pre, post].
    injection Hstep as <-. unfold send_callback.
    destruct err; [by exists pre, post|].
    unfold queue_of in *. simpl. rewrite lookup_alter. case_decide as Hd.
    + subst c. destruct (_clients st !! cb_client cb) as [cl|] eqn:E; simpl in *.
      * rewrite Hq. apply remove_message_block. intros Hin. apply Hack.
        by exists k, cb.
      * by exists pre, post.
    + by exists pre, post.
Qed.

Lemma unacknowledgeable_step c mid ev st st' :
  unacknowledgeable c mid st →
  (∀ m, m ∈ mid → (ref m < next_ref st)%nat) →
  step ev st = Normal st' →
  ¬ attaches c ev st →
  unacknowledgeable c mid st'.
Proof.
  intros Hun Hfresh Hstep Hatt.
  destruct ev as [|s text parsed|s|s m|c' d|k err]; simpl in Hstep.
  - by injection Hstep as <-.
  - destruct (sockets st !! s) as [w|] eqn:Hs; [|by injection Hstep as <-].
    destruct (client w) as [c'|] eqn:Hc.
    + by apply on_socket_message_normal in Hstep as (m & _ & ->).
    + apply first_message_normal in Hstep as [_ ->].
      assert (text ≠ c) as Hne.
      { intros ->. apply Hatt. by exists s, w, parsed. }
      destruct (first_message_spec s text st w Hs) as (_ & _ & _ & _ & _ & _ & _ & _ & H9).
      intros cb Hcb Hcl. rewrite H9 in Hcb. apply elem_of_app in Hcb as [Hcb|Hcb]; [auto|].
      apply list_elem_of_fmap in Hcb as (m & -> & _). by simpl in Hcl.
  - injection Hstep as <-. unfold on_close.
    destruct (sockets st !! s ≫= client); [|done]. by case_bool_decide.
  - by injection Hstep as <-.
  - injection Hstep as <-. destruct (_clients st !! c') as [cl|] eqn:E.
    + rewrite (send_unfold _ _ _ _ E). intros cb Hcb Hcl. simpl in Hcb.
      apply elem_of_app in Hcb as [Hcb|Hcb]; [auto|].
      destruct (socket cl); [|by apply elem_of_nil in Hcb].
      apply list_elem_of_singleton in Hcb as ->. simpl.
      intros (m & Hr & Hm)%list_elem_of_fmap. specialize (Hfresh m Hm). lia.
    + by rewrite send_absent.
  - destruct (callbacks st !! k) as [cb|] eqn:Hk; [|by injection Hstep as <-].
    injection Hstep as <-.
    assert (unacknowledgeable c mid (set_callbacks (delete k) st)) as Hun'.
    { intros cb' Hcb'%list_elem_of_delete_inv. auto. }
    unfold send_callback. by destruct err.
Qed.

Lemma queued_run c mid evs : ∀ st st',
  run_avoiding (λ ev st, attaches c ev st
                         ∨ acks c mid ev st) st evs st' →
  queued c mid st → queued c mid st'.
Proof.
  induction evs as [|ev evs IH]; intros st st' Hrun Hq; inversion Hrun; subst; [done|].
  eapply IH; [done|]. eapply queued_step; eauto.
Qed.

Lemma held_run c mid evs : ∀ st st',
  run_avoiding (attaches c) st evs st' →
  queued c mid st → unacknowledgeable c mid st →
  queued c mid st' ∧ unacknowledgeable c mid st'.
Proof.
  induction evs as [|ev evs IH]; intros st st' Hrun Hq Hun; inversion Hrun; subst; [done|].
  eapply IH; [done| |].
  - eapply queued_step; eauto.
    intros (k & cb & -> & Hk & Hc & Hin).
    apply (Hun cb); [|done..]. by eapply list_elem_of_lookup_2.
  - eapply unacknowledgeable_step; eauto. by destruct Hq.
Qed.

Lemma session_or_new_queue c st :
  messageQueue (session_or_new c st) = queue_of c st.
Proof. unfold session_or_new, queue_of. by destruct (_clients st !! c). Qed.

(** What attaching socket [s] to the session of [c] does to the queue and
    to the socket. *)
Lemma attach_flushes st s w c parsed :
  sockets st !! s = Some w → client w = None → inherits c st = false →
  ∃ st', step (Message s c parsed) st = Normal st' ∧
    socket_of c st' = Some s ∧
    outbox_of s st' = outbox w ++ (data <$> queue_of c st) ∧
    data <$> queue_of c st' = data <$> queue_of c st.
Proof.
  intros Hs Hc Hi. exists (attach_session s c st). simpl.
  rewrite Hs, Hc, (first_message_attaches _ _ _ Hi).
  destruct (first_message_spec s c st w Hs) as (H1 & _ & _ & _ & _ & H6 & _).
  split_and!; [done|..].
  - unfold socket_of. by rewrite H1.
  - by rewrite H6, session_or_new_queue.
  - unfold queue_of at 1. rewrite H1. simpl.
    by rewrite fresh_messages_data, session_or_new_queue.
Qed.

Lemma send_all_attached c es st s w :
  socket_of c st = Some s → sockets st !! s = Some w →
  outbox_of s (send_all c es st) = outbox w ++ es ∧
  data <$> queue_of c (send_all c es st) = (data <$> queue_of c st) ++ es.
Proof.
  unfold socket_of. intros Hsock Hs.
  destruct (_clients st !! c) as [cl|] eqn:E; [|done]. simpl in Hsock.
  destruct (send_all_spec c es st cl E) as (H1 & _ & _ & _ & _ & _ & _ & _ & H9 & _).
  split.
  - rewrite (H9 s w Hs). by rewrite bool_decide_eq_true_2.
  - unfold queue_of. rewrite H1, E. simpl. by rewrite fmap_app, fresh_messages_data.
Qed.

(** A step keeps every session, with its id and its subscriptions. *)
Lemma step_keeps_session ev st st' c cl :
  step ev st = Normal st' → _clients st !! c = Some cl →
  ∃ cl', _clients st' !! c = Some cl' ∧ id cl' = id cl ∧
         subscriptions cl' = subscriptions cl.
Proof.
  intros Hstep E.
  destruct ev as [|s text parsed|s|s m|c' d|k err]; simpl in Hstep.
  - injection Hstep as <-. by exists cl.
  - destruct (sockets st !! s) as [w|] eqn:Hs; [|injection Hstep as <-; by exists cl].
    destruct (client w) as [c0|] eqn:Hc.
    + apply on_socket_message_normal in Hstep as (m & _ & ->). by exists cl.
    + apply first_message_normal in Hstep as [_ ->].
      destruct (first_message_spec s text st w Hs) as (H1 & H2 & _).
      destruct (decide (text = c)) as [->|Hne].
      * eexists. split; [exact H1|]. unfold session_or_new. by rewrite E.
      * exists cl. by rewrite H2.
  - injection Hstep as <-. unfold on_close.
    destruct (sockets st !! s ≫= client) as [c0|]; [|by exists cl].
    case_bool_decide; [|by exists cl]. simpl.
    rewrite lookup_alter. case_decide; [subst; rewrite E; by eexists|by exists cl].
  - injection Hstep as <-. by exists cl.
  - injection Hstep as <-. destruct (_clients st !! c') as [cl0|] eqn:E0.
    + rewrite (send_unfold _ _ _ _ E0). simpl.
      destruct (decide (c' = c)) as [->|Hne].
      * rewrite lookup_insert_eq. eexists. split; [done|]. by simplify_eq.
      * rewrite lookup_insert_ne by done. by exists cl.
    + rewrite send_absent by done. by exists cl.
  - destruct (callbacks st !! k) as [cb|]; [|injection Hstep as <-; by exists cl].
    injection Hstep as <-. unfold send_callback. destruct err; [by exists cl|]. simpl.
    rewrite lookup_alter. case_decide; [subst; rewrite E; by eexists|by exists cl].
Qed.

Lemma run_keeps_session evs : ∀ st st' c cl,
  run evs st = Some st' → _clients st !! c = Some cl →
  ∃ cl', _clients st' !! c = Some cl' ∧ id cl' = id cl ∧
         subscriptions cl' = subscriptions cl.
Proof.
  induction evs as [|ev evs IH]; intros st st' c cl; simpl.
  - intros [= <-] E. by exists cl.
  - destruct (step ev st) as [st1|] eqn:Hstep; [|done]. intros Hrun E.
    destruct (step_keeps_session _ _ _ _ _ Hstep E) as (cl1 & E1 & Hid & Hsub).
    destruct (IH _ _ _ _ Hrun E1) as (cl' & E' & Hid' & Hsub').
    exists cl'. split; [done|]. split; congruence.
Qed.


Lemma run_avoiding_keeps_session bad st evs st' c :
  run_avoiding bad st evs st' →
  is_Some (_clients st !! c) → is_Some (_clients st' !! c).
Proof.
  induction 1 as [|st ev st1 evs st2 _ Hstep _ IH]; [done|].
  intros [cl E]. apply IH.
  destruct (step_keeps_session _ _ _ _ _ Hstep E) as (cl' & E' & _). by exists cl'.
Qed.

(** ** The claims about the server *)

(** C3: when the first frame of a new socket names a client whose session
    exists, the session record stays in the table with its id, its
    subscriptions and the frames of its queue; the socket it had, if any,
    has been closed; the new socket is attached; and the new socket has
    been handed every queued frame, in queue order. *)
Theorem reconnect_keeps_session_and_flushes st s w c cl parsed :
  reachable st →
  sockets st !! s = Some w → client w = None →
  _clients st !! c = Some cl →
  ∃ st' cl',
    step (Message s c parsed) st = Normal st' ∧
    _clients st' !! c = Some cl' ∧
    id cl' = id cl ∧
    subscriptions cl' = subscriptions cl ∧
    data <$> messageQueue cl' = data <$> messageQueue cl ∧
    socket cl' = Some s ∧
    (∀ old, socket cl = Some old → closed <$> sockets st' !! old = Some true) ∧
    outbox_of s st' = outbox w ++ (data <$> messageQueue cl) ∧
    (∀ c', c ≠ c' → _clients st' !! c' = _clients st !! c').
Proof.
  intros Hreach Hs Hc E. apply reachable_wf in Hreach as [W1 _ _ _].
  destruct (first_message_spec s c st w Hs) as (H1 & H2 & _ & _ & _ & H6 & _ & H8 & _).
  assert (session_or_new c st = cl) as Hcl by (unfold session_or_new; by rewrite E).
  rewrite Hcl in *.
  eexists _, _. simpl.
  rewrite Hs, Hc, first_message_attaches by (apply inherits_session; by rewrite E).
  split_and!; [done|exact H1|done|done|..|done].
  - simpl. by rewrite fresh_messages_data.
  - done.
  - intros old Hold. apply H8; [done|]. by eapply W1.
  - done.
Qed.

(** Frames passed to [_sendSocketMessage] while the session has no
    socket are all queued, in call order, and nothing is transmitted; they
    stay in the queue, in that order, through every run of events in which
    no socket attaches to the session; the socket that attaches next is
    handed the whole queue in queue order, and frames sent afterwards
    follow in call order.  Whenever a socket is attached, frames are handed
    to it in the order of the calls. *)
Lemma queue_is_handed_over_in_order st c cl ds evs st2 :
  reachable st →
  _clients st !! c = Some cl → socket cl = None →
  run_avoiding (attaches c) (send_all c ds st) evs st2 →
  data <$> queue_of c (send_all c ds st) = (data <$> messageQueue cl) ++ ds ∧
  (∀ s w, sockets st !! s = Some w → outbox_of s (send_all c ds st) = outbox w) ∧
  (∃ pre post,
    data <$> queue_of c st2 = pre ++ ds ++ post ∧
    ∀ s w parsed es, sockets st2 !! s = Some w → client w = None →
      ∃ st3, step (Message s c parsed) st2 = Normal st3 ∧
        outbox_of s st3 = outbox w ++ pre ++ ds ++ post ∧
        outbox_of s (send_all c es st3) = outbox w ++ pre ++ ds ++ post ++ es ∧
        data <$> queue_of c (send_all c es st3) = pre ++ ds ++ post ++ es) ∧
  (∀ st' s w es, socket_of c st' = Some s → sockets st' !! s = Some w →
     outbox_of s (send_all c es st') = outbox w ++ es).
Proof.
  intros Hreach E Hnone Hrun. apply reachable_wf in Hreach as [W1 _ W2 W3].
  destruct (send_all_spec c ds st cl E) as (H1 & _ & H3 & _ & _ & _ & _ & _ & H9 & H10).
  rewrite Hnone in H10. rewrite app_nil_r in H10.
  split_and!; [| | |intros st' s w es Hsock Hs; by apply send_all_attached].
  - unfold queue_of. rewrite H1. simpl. by rewrite fmap_app, fresh_messages_data.
  - intros s w Hs. rewrite (H9 s w Hs), Hnone. by rewrite app_nil_r.
  - set (mid := fresh_messages (next_ref st) ds).
    assert (queued c mid (send_all c ds st)) as Hq.
    { split.
      - exists (messageQueue cl), []. unfold queue_of. rewrite H1. simpl.
        by rewrite app_nil_r.
      - intros m Hm%fresh_messages_ref. lia. }
    assert (unacknowledgeable c mid (send_all c ds st)) as Hun.
    { intros cb Hcb _ (m & Hr & Hm%fresh_messages_ref)%list_elem_of_fmap.
      rewrite H10 in Hcb. specialize (W3 cb Hcb). lia. }
    destruct (held_run c mid evs _ _ Hrun Hq Hun) as [[(pre & post & Hq2) _] _].
    exists (data <$> pre), (data <$> post).
    assert (data <$> queue_of c st2 = (data <$> pre) ++ ds ++ (data <$> post)) as Hd.
    { rewrite Hq2, !fmap_app. subst mid. by rewrite fresh_messages_data. }
    split; [done|].
    intros s w parsed es Hs Hc.
    assert (inherits c st2 = false) as Hi.
    { apply inherits_session. eapply run_avoiding_keeps_session; [exact Hrun|].
      by rewrite H1. }
    destruct (attach_flushes st2 s w c parsed Hs Hc Hi)
      as (st3 & Hstep & Hsock & Hout & Hdata).
    exists st3. split; [done|]. rewrite Hd in Hout, Hdata. split; [done|].
    assert (∃ w3, sockets st3 !! s = Some w3 ∧ outbox w3 = outbox_of s st3) as (w3 & Hw3 & Ho3).
    { unfold outbox_of. simpl in Hstep.
      rewrite Hs, Hc, (first_message_attaches _ _ _ Hi) in Hstep. injection Hstep as <-.
      destruct (first_message_spec s c st2 w Hs) as (_ & _ & _ & _ & Hlen & _).
      destruct (lookup_lt_is_Some_2 (sockets (attach_session s c st2)) s) as [w3 Hw3].
      { rewrite Hlen. by eapply lookup_lt_Some. }
      exists w3. by rewrite Hw3. }
    destruct (send_all_attached c es st3 s w3 Hsock Hw3) as [Ho Hq3].
    rewrite Ho, Ho3, Hout, Hq3, Hdata. by rewrite <- !app_assoc.
Qed.

(** C9: a [close] event detaches the socket of a session exactly when it
    comes from the socket that is attached to the session; a [close] from
    any other socket, including one that the session has replaced, leaves
    the attached socket in place.  The queue and the sockets are untouched
    either way. *)
Theorem close_detaches_only_current_socket st s c cur :
  reachable st →
  socket_of c st = Some cur →
  ∃ st',
    step (Close s) st = Normal st' ∧
    socket_of c st' = (if bool_decide (s = cur) then None else Some cur) ∧
    queue_of c st' = queue_of c st ∧
    sockets st' = sockets st.
Proof.
  intros Hreach Hcur. apply reachable_wf in Hreach as [_ B _ _].
  exists (on_close s st). split; [done|].
  assert (sockets st !! cur ≫= client = Some c) as Hb.
  { unfold socket_of in Hcur. destruct (_clients st !! c) as [cl|] eqn:E; [|done].
    by eapply B. }
  unfold on_close. destruct (decide (s = cur)) as [->|Hne].
  - rewrite Hb, Hcur, !bool_decide_eq_true_2 by done.
    unfold socket_of, queue_of in *. simpl. rewrite lookup_alter_eq.
    by destruct (_clients st !! c).
  - rewrite (bool_decide_eq_false_2 (s = cur)) by done.
    destruct (sockets st !! s ≫= client) as [c'|]; [|done].
    case_bool_decide as Hc'; [|done].
    assert (c' ≠ c) as Hcc by (intros ->; congruence).
    unfold socket_of, queue_of in *. simpl. by rewrite lookup_alter_ne.
Qed.

(** C10: [_sendSocketMessage] queues the frame before it hands it to the
    attached socket; a success report removes that wrapper from the queue;
    while no success report for it arrives and no socket attaches, it
    stays; after a failure report it stays through every run of events in
    which no socket attaches, and the socket that attaches next is handed
    the frame again (an attach queues every frame anew, see C3). *)
Theorem unacknowledged_frame_stays_queued st c cl s d :
  reachable st →
  _clients st !! c = Some cl → socket cl = Some s →
  let m := {| ref := next_ref st; data := d |} in
  let st1 := _sendSocketMessage c d st in
  let k := length (callbacks st) in
  queue_of c st1 = messageQueue cl ++ [m] ∧
  outbox_of s st1 = outbox_of s st ++ [d] ∧
  callbacks st1 !! k = Some {| cb_client := c; cb_message := m |} ∧
  (∃ st2, step (SendDone k false) st1 = Normal st2 ∧
     queue_of c st2 = messageQueue cl) ∧
  (∀ evs st2,
     run_avoiding (λ ev st, attaches c ev st ∨ acks c [m] ev st) st1 evs st2 →
     m ∈ queue_of c st2) ∧
  (∃ st2, step (SendDone k true) st1 = Normal st2 ∧
     queue_of c st2 = messageQueue cl ++ [m] ∧
     ∀ evs st3, run_avoiding (attaches c) st2 evs st3 →
       m ∈ queue_of c st3 ∧
       ∀ s' w' parsed, sockets st3 !! s' = Some w' → client w' = None →
         ∃ st4 pre post,
           step (Message s' c parsed) st3 = Normal st4 ∧
           outbox_of s' st4 = outbox w' ++ pre ++ [d] ++ post ∧
           data <$> queue_of c st4 = pre ++ [d] ++ post).
Proof.
  intros Hreach E Hsock m st1 k. apply reachable_wf in Hreach as [W1 _ W2 W3].
  assert (Hst1 : st1 = _sendSocketMessage c d st) by done.
  rewrite (send_unfold _ _ _ _ E), Hsock in Hst1. fold m in Hst1.
  assert (Hq1 : queue_of c st1 = messageQueue cl ++ [m]).
  { rewrite Hst1. unfold queue_of. simpl. by rewrite lookup_insert_eq. }
  assert (Hk : callbacks st1 !! k = Some {| cb_client := c; cb_message := m |}).
  { rewrite Hst1. simpl. by rewrite list_lookup_middle. }
  assert (Hdel : delete k (callbacks st1) = callbacks st).
  { rewrite Hst1. simpl. apply delete_appended. }
  assert (Hfresh : next_ref st ∉ (ref <$> messageQueue cl)).
  { intros (m' & Hr & Hm')%list_elem_of_fmap. specialize (W2 _ _ _ E Hm'). lia. }
  assert (Hqd : queued c [m] st1).
  { split.
    - exists (messageQueue cl), []. by rewrite Hq1.
    - intros m' ->%list_elem_of_singleton. rewrite Hst1. simpl. lia. }
  split_and!; [done| |done|..].
  - assert (s < length (sockets st))%nat as Hlt by by eapply W1.
    destruct (lookup_lt_is_Some_2 _ _ Hlt) as [w Hw].
    rewrite Hst1. unfold outbox_of. simpl. rewrite list_lookup_alter_eq, Hw. done.
  - eexists. simpl. rewrite Hk. split; [reflexivity|].
    unfold send_callback, queue_of. simpl. rewrite lookup_alter_eq.
    unfold queue_of in Hq1.
    destruct (_clients st1 !! c) as [cl1|] eqn:E1; simpl in *.
    + rewrite Hq1. rewrite remove_message_skip by done. simpl.
      rewrite bool_decide_eq_true_2 by done. by rewrite app_nil_r.
    + by destruct (messageQueue cl).
  - intros evs st2 Hrun.
    destruct (queued_run c [m] evs _ _ Hrun Hqd) as [(pre & post & ->) _].
    rewrite !elem_of_app, list_elem_of_singleton. auto.
  - eexists. simpl. rewrite Hk. split; [reflexivity|].
    unfold send_callback.
    match goal with |- queue_of c ?s2 = _ ∧ _ => set (st2 := s2) end.
    assert (Hq2 : queue_of c st2 = messageQueue cl ++ [m]) by (subst st2; exact Hq1).
    split; [done|].
    assert (Hqd2 : queued c [m] st2).
    { split; [exists (messageQueue cl), []; by rewrite Hq2|].
      destruct Hqd as [_ Hf]. exact Hf. }
    assert (Hun2 : unacknowledgeable c [m] st2).
    { intros cb Hcb _ Hin. subst st2. simpl in Hcb. rewrite Hdel in Hcb.
      apply list_elem_of_fmap in Hin as (m' & Hr & ->%list_elem_of_singleton).
      specialize (W3 cb Hcb). simpl in Hr. lia. }
    intros evs st3 Hrun.
    destruct (held_run c [m] evs _ _ Hrun Hqd2 Hun2) as [[(pre & post & Hq3) _] _].
    split.
    { rewrite Hq3, !elem_of_app, list_elem_of_singleton. auto. }
    intros s' w' parsed Hs' Hc'.
    assert (inherits c st3 = false) as Hi.
    { apply inherits_session. unfold queue_of in Hq3.
      destruct (_clients st3 !! c); [done|]. by destruct pre. }
    destruct (attach_flushes st3 s' w' c parsed Hs' Hc' Hi)
      as (st4 & Hstep & _ & Hout & Hdata).
    exists st4, (data <$> pre), (data <$> post).
    rewrite Hq3, !fmap_app in Hout, Hdata. done.
Qed.

End Steps.

(** ** The theorems at concrete runs *)

Lemma after_reachable evs st :
  run rpc_channel evs constructor = Some st → reachable rpc_channel (after evs).
Proof. intros H. exists evs. unfold after. by rewrite H. Qed.

Lemma reconnect_witness :
  reachable rpc_channel (after run_busy) ∧
  ∃ st' cl',
    step rpc_channel (Message 1 "c1" None) (after run_busy) = Normal st' ∧
    _clients st' !! "c1" = Some cl' ∧
    id cl' = "c1" ∧
    data <$> messageQueue cl' = [JStr "a"] ∧
    socket cl' = Some 1%nat ∧
    closed <$> sockets st' !! 0%nat = Some true ∧
    outbox_of 1 st' = [JStr "a"].
Proof.
  assert (reachable rpc_channel (after run_busy)) as Hreach.
  { eapply after_reachable. vm_compute. reflexivity. }
  split; [exact Hreach|].
  destruct (reconnect_keeps_session_and_flushes rpc_channel (after run_busy) 1
              {| closed := false; outbox := []; client := None |} "c1"
              {| id := "c1"; subscriptions := ∅; socket := Some 0%nat;
                 messageQueue := [{| ref := 0; data := JStr "a" |}] |}
              None Hreach)
    as (st' & cl' & H1 & H2 & H3 & _ & H5 & H6 & H7 & H8 & _).
  - vm_compute. reflexivity.
  - reflexivity.
  - vm_compute. reflexivity.
  - exists st', cl'. split_and!; try done. by apply H7.
Defined.

Lemma late_close_witness :
  reachable rpc_channel (after run_reconnected) ∧
  socket_of "c1" (after run_reconnected) = Some 1%nat ∧
  ∃ st',
    step rpc_channel (Close 0) (after run_reconnected) = Normal st' ∧
    socket_of "c1" st' = Some 1%nat ∧
    ∃ st'', step rpc_channel (Close 1) st' = Normal st'' ∧ socket_of "c1" st'' = None.
Proof.
  assert (reachable rpc_channel (after run_reconnected)) as Hreach.
  { eapply after_reachable. vm_compute. reflexivity. }
  assert (socket_of "c1" (after run_reconnected) = Some 1%nat) as Hsock by (by vm_compute).
  split; [exact Hreach|]. split; [exact Hsock|].
  destruct (close_detaches_only_current_socket rpc_channel (after run_reconnected)
              0 "c1" 1 Hreach Hsock)
    as (st' & Hstep & Hsock' & _).
  exists st'. split; [exact Hstep|]. split; [exact Hsock'|].
  assert (reachable rpc_channel st') as Hreach'.
  { injection Hstep as <-. exists (run_reconnected ++ [Close 0]). vm_compute. reflexivity. }
  destruct (close_detaches_only_current_socket rpc_channel st' 1 "c1" 1 Hreach' Hsock')
    as (st'' & Hstep' & Hsock'' & _).
  exists st''. split; [exact Hstep'|exact Hsock''].
Defined.

Lemma failed_send_witness :
  reachable rpc_channel (after run_attached) ∧
  socket_of "c1" (after run_attached) = Some 0%nat ∧
  queue_of "c1" (_sendSocketMessage "c1" (JStr "a") (after run_attached))
    = [{| ref := 0; data := JStr "a" |}] ∧
  outbox_of 0 (_sendSocketMessage "c1" (JStr "a") (after run_attached)) = [JStr "a"] ∧
  (∃ st2, step rpc_channel (SendDone 0 false)
            (_sendSocketMessage "c1" (JStr "a") (after run_attached)) = Normal st2 ∧
          queue_of "c1" st2 = []) ∧
  (∃ st2, step rpc_channel (SendDone 0 true)
            (_sendSocketMessage "c1" (JStr "a") (after run_attached)) = Normal st2 ∧
          queue_of "c1" st2 = [{| ref := 0; data := JStr "a" |}] ∧
          ∃ st4 pre post,
            step rpc_channel (Message 1 "c1" None)
              (after (run_attached ++ [Send "c1" (JStr "a"); SendDone 0 true;
                                       Close 0; Connection])) = Normal st4 ∧
            outbox_of 1 st4 = pre ++ [JStr "a"] ++ post).
Proof.
  assert (reachable rpc_channel (after run_attached)) as Hreach.
  { eapply after_reachable. vm_compute. reflexivity. }
  split; [exact Hreach|]. split; [by vm_compute|].
  destruct (unacknowledged_frame_stays_queued rpc_channel (after run_attached) "c1"
              {| id := "c1"; subscriptions := ∅; socket := Some 0%nat;
                 messageQueue := [] |} 0 (JStr "a") Hreach)
    as (H1 & H2 & _ & H4 & _ & H6).
  - vm_compute. reflexivity.
  - reflexivity.
  - split; [exact H1|]. split; [exact H2|]. split; [exact H4|].
    destruct H6 as (st2 & Hstep & Hq & Hlater).
    exists st2. split; [exact Hstep|]. split; [exact Hq|].
    destruct (Hlater [Close 0; Connection]
                (after (run_attached ++ [Send "c1" (JStr "a"); SendDone 0 true;
                                         Close 0; Connection])))
      as (_ & Hattach).
    + injection Hstep as <-. eapply run_next.
      * intros (s & w & parsed & Heq & _). discriminate Heq.
      * reflexivity.
      * eapply run_next.
        -- intros (s & w & parsed & Heq & _). discriminate Heq.
        -- reflexivity.
        -- vm_compute. apply run_done.
    + destruct (Hattach 1%nat {| closed := false; outbox := []; client := None |} None)
        as (st4 & pre & post & Hstep4 & Hout4 & _).
      * vm_compute. reflexivity.
      * reflexivity.
      * exists st4, pre, post. split; [exact Hstep4|exact Hout4].
Defined.

End ServerTheory.

(** * Properties of the client *)

Module ClientTheory.
Import Client.

(** ** The emitter *)

Lemma listeners_add_eq name l st :
  listeners name (add_listener name l st) = listeners name st ++ [l].
Proof. unfold listeners at 1. simpl. by rewrite lookup_insert_eq. Qed.

Lemma listeners_add_ne name name' l st :
  name ≠ name' → listeners name' (add_listener name l st) = listeners name' st.
Proof. intros H. unfold listeners. simpl. by rewrite lookup_insert_ne. Qed.

Lemma listeners_removeAll_eq name st : listeners name (removeAllListeners name st) = [].
Proof. unfold listeners. simpl. by rewrite lookup_delete_eq. Qed.

Lemma listeners_removeAll_ne name name' st :
  name ≠ name' → listeners name' (removeAllListeners name st) = listeners name' st.
Proof. intros H. unfold listeners. simpl. by rewrite lookup_delete_ne. Qed.

Lemma listeners_removeAll_subseteq name name' st l :
  l ∈ listeners name' (removeAllListeners name st) → l ∈ listeners name' st.
Proof.
  destruct (decide (name = name')) as [->|Hne].
  - rewrite listeners_removeAll_eq. by intros ?%elem_of_nil.
  - by rewrite listeners_removeAll_ne.
Qed.

Lemma listeners_removeListener_eq name l st :
  listeners name (removeListener name l st) = remove_first l (listeners name st).
Proof.
  unfold removeListener. destruct (remove_first l (listeners name st)) as [|x t] eqn:E.
  - unfold listeners at 1. simpl. by rewrite lookup_delete_eq.
  - unfold listeners at 1. simpl. by rewrite lookup_insert_eq.
Qed.

Lemma listeners_removeListener_ne name name' l st :
  name ≠ name' → listeners name' (removeListener name l st) = listeners name' st.
Proof.
  intros H. unfold removeListener.
  destruct (remove_first l (listeners name st)); unfold listeners; simpl.
  - by rewrite lookup_delete_ne.
  - by rewrite lookup_insert_ne.
Qed.

Lemma listeners_None name st : _emitter st !! name = None → listeners name st = [].
Proof. unfold listeners. by intros ->. Qed.

Lemma listeners_elem name st l :
  l ∈ listeners name st → ∃ ls, _emitter st !! name = Some ls.
Proof.
  unfold listeners. destruct (_emitter st !! name) as [ls|]; [eauto|].
  by intros ?%elem_of_nil.
Qed.

(** ** Promises *)

Lemma settle_length p s st : length (promises (settle p s st)) = length (promises st).
Proof.
  unfold settle. destruct (promises st !! p) as [[]|]; simpl; by rewrite ?length_insert.
Qed.

Lemma settle_lookup_ne p q s st :
  p ≠ q → promises (settle p s st) !! q = promises st !! q.
Proof.
  intros H. unfold settle. destruct (promises st !! p) as [[]|]; simpl; try done.
  by rewrite list_lookup_insert_ne.
Qed.

Lemma settle_pending p s st :
  promises st !! p = Some Pending → promises (settle p s st) !! p = Some s.
Proof.
  intros H. unfold settle. rewrite H. simpl.
  apply list_lookup_insert_eq. by eapply lookup_lt_Some.
Qed.

Lemma settle_settled p s st x :
  promises st !! p = Some x → x ≠ Pending → settle p s st = st.
Proof. intros H Hx. unfold settle. rewrite H. by destruct x. Qed.

Lemma settle_final p q s st x :
  promises st !! q = Some x → x ≠ Pending → promises (settle p s st) !! q = Some x.
Proof.
  intros H Hx. destruct (decide (p = q)) as [->|Hne].
  - by rewrite (settle_settled _ _ _ _ H Hx).
  - by rewrite settle_lookup_ne.
Qed.

(** ** The counter *)

Lemma number_succ_below n : n < MAX_EXACT → number_succ n = n + 1.
Proof. intros H. unfold number_succ. by rewrite (proj2 (Z.ltb_lt _ _) H). Qed.

Lemma number_succ_le n : n ≤ number_succ n.
Proof. unfold number_succ. destruct (n <? MAX_EXACT); lia. Qed.

(** At 2^53 the counter stops: this is why the statements below ask for a
    counter below it. *)
Example counter_stops : number_succ MAX_EXACT = MAX_EXACT.
Proof. reflexivity. Qed.

Section Steps.

Variable SERVICE_FRAMEWORK3_CHANNEL : string.
Variable SERVICE_FRAMEWORK_RPC_TIMEOUT_MS : Z.

Local Abbreviation step :=
  (step SERVICE_FRAMEWORK3_CHANNEL SERVICE_FRAMEWORK_RPC_TIMEOUT_MS).
Local Abbreviation run :=
  (run SERVICE_FRAMEWORK3_CHANNEL SERVICE_FRAMEWORK_RPC_TIMEOUT_MS).
Local Abbreviation reachable :=
  (reachable SERVICE_FRAMEWORK3_CHANNEL SERVICE_FRAMEWORK_RPC_TIMEOUT_MS).
Local Abbreviation _handleSocketMessage :=
  (_handleSocketMessage SERVICE_FRAMEWORK3_CHANNEL).
Local Abbreviation on_timeout := (on_timeout SERVICE_FRAMEWORK_RPC_TIMEOUT_MS).
Local Abbreviation timeout_reason := (timeout_reason SERVICE_FRAMEWORK_RPC_TIMEOUT_MS).

(** ** What a call does, by return type *)

Lemma step_call ev st m rt text :
  request_of ev (_rpcRequestId st) = Some (m, rt, text) →
  message_requestId m = _rpcRequestId st ∧
  step ev st =
    _sendMessageAndListenForResult m rt text
      (set_rpcRequestId (number_succ (_rpcRequestId st)) st).
Proof.
  destruct ev; simpl; intros [= <- <- <-]; done.
Qed.

Lemma step_not_call ev st :
  request_of ev (_rpcRequestId st) = None →
  _rpcRequestId (state_of (step ev st)) = _rpcRequestId st
  ∧ observables (state_of (step ev st)) = observables st.
Proof.
  destruct ev as [| | | |o|sub|message|k]; simpl; try done; intros _.
  - unfold subscribe. by destruct (observables st !! o).
  - unfold unsubscribe. destruct (subscriptions st !! sub) as [s|]; [|done].
    by destruct (isStopped s).
  - unfold Client._handleSocketMessage.
    destruct (strict_eq_str _ _); [|done]. destruct (requestId message) as [r|]; [|done].
    unfold emit. generalize (listeners (pretty r) st). intros ls. revert st.
    induction ls as [|l ls IH]; intros st; simpl; [done|].
    assert (∀ q n, _rpcRequestId (observer_finish q n st) = _rpcRequestId st
                   ∧ observables (observer_finish q n st) = observables st) as Hfin.
    { intros q n. unfold observer_finish. destruct (subscriptions st !! q) as [s|]; [|done].
      by destruct (isStopped s). }
    destruct l as [p|q]; simpl.
    + destruct (hadError message); simpl.
      * destruct (IH (settle p (Rejected (decodeError (error message)))
                       (removeListener (pretty r) (PromiseListener p) st))) as [-> ->].
        unfold settle, removeListener.
        destruct (remove_first _ _); simpl; by destruct (promises st !! p) as [[]|].
      * destruct (IH (settle p (Resolved (result message))
                       (removeListener (pretty r) (PromiseListener p) st))) as [-> ->].
        unfold settle, removeListener.
        destruct (remove_first _ _); simpl; by destruct (promises st !! p) as [[]|].
    + destruct (hadError message); simpl.
      * destruct (IH (observer_finish q (OnError (decodeError (error message))) st))
          as [-> ->]. apply Hfin.
      * destruct (truthy (result message)); simpl; [|done].
        destruct (strict_eq_str (js_prop (result message) "type") "completed").
        { destruct (IH (observer_finish q OnCompleted st)) as [-> ->]. apply Hfin. }
        destruct (strict_eq_str (js_prop (result message) "type") "next"); [|apply IH].
        destruct (IH (observer_onNext q (js_prop (result message) "data") st)) as [-> ->].
        unfold observer_onNext. destruct (subscriptions st !! q) as [s|]; [|done].
        by destruct (isStopped s).
  - destruct (timers st !! k) as [t|]; [|done]. simpl.
    unfold Client.on_timeout, settle. simpl. by destruct (promises st !! timer_promise t) as [[]|].
Qed.

Lemma counter_step ev st : _rpcRequestId st ≤ _rpcRequestId (state_of (step ev st)).
Proof.
  destruct (request_of ev (_rpcRequestId st)) as [[[m rt] text]|] eqn:E.
  - destruct (step_call _ _ _ _ _ E) as [_ ->].
    pose proof (number_succ_le (_rpcRequestId st)). by destruct rt.
  - destruct (step_not_call _ _ E) as [-> _]. lia.
Qed.

(** ** Reasoning about [emit] one listener at a time *)

Lemma emit_to_preserves (P : ClientComponent → Prop) ls name h e r :
  (∀ l st, l ∈ ls → P st → P (state_of (call_listener name l h e r st))) →
  ∀ st, P st → P (state_of (emit_to ls name h e r st)).
Proof.
  induction ls as [|l ls IH]; intros Hl st HP; simpl; [done|].
  assert (P (state_of (call_listener name l h e r st))) as HP'.
  { apply Hl; [by left|done]. }
  destruct (call_listener name l h e r st) as [x st1|x st1]; [|done].
  apply IH; [|done]. intros l' st' Hl'. apply Hl. by right.
Qed.

Lemma alter_sub_message f sub (l : list Subscription) s :
  (∀ x, sub_message (f x) = sub_message x) →
  s ∈ alter f sub l → ∃ s0, s0 ∈ l ∧ sub_message s = sub_message s0.
Proof.
  intros Hf (i & Hi)%list_elem_of_lookup.
  destruct (decide (sub = i)) as [->|Hne].
  - rewrite list_lookup_alter_eq in Hi.
    destruct (l !! i) as [s0|] eqn:E; [|done]. injection Hi as <-.
    exists s0. split; [by eapply list_elem_of_lookup_2|apply Hf].
  - rewrite list_lookup_alter_ne in Hi by done.
    exists s. split; [by eapply list_elem_of_lookup_2|done].
Qed.

Lemma elem_of_delete_other {A} (l : list A) k x y :
  x ∈ l → l !! k = Some y → x ≠ y → x ∈ delete k l.
Proof.
  intros (i & Hi)%list_elem_of_lookup Hk Hne.
  destruct (decide (i < k)%nat).
  - apply list_elem_of_lookup. exists i. by rewrite list_lookup_delete_lt.
  - destruct (decide (i = k)) as [->|]; [congruence|].
    apply list_elem_of_lookup. exists (i - 1)%nat.
    rewrite list_lookup_delete_ge by lia. by replace (S (i - 1))%nat with i by lia.
Qed.

(** ** The invariant is kept *)

Lemma inv_constructor : inv constructor.
Proof.
  assert (∀ name, listeners name constructor = []) as Hl.
  { intros name. apply listeners_None. apply lookup_empty. }
  split; simpl.
  - intros key ls H. by rewrite lookup_empty in H.
  - intros m H. by apply elem_of_nil in H.
  - intros m H. by apply elem_of_nil in H.
  - intros s H. by apply elem_of_nil in H.
  - intros t H. by apply elem_of_nil in H.
  - intros r p H. rewrite Hl in H. by apply elem_of_nil in H.
  - intros p H. by rewrite lookup_nil in H.
  - intros t l H. by apply elem_of_nil in H.
  - intros t t' H. by apply elem_of_nil in H.
  - intros m t H. by apply elem_of_nil in H.
Qed.

Lemma listeners_fresh st r :
  inv st → _rpcRequestId st ≤ r → listeners (pretty r) st = [].
Proof.
  intros I Hr. apply listeners_None.
  destruct (_emitter st !! pretty r) as [ls|] eqn:E; [|done].
  destruct (inv_keys _ I _ _ E) as (r' & Heq & Hlt).
  apply (inj pretty) in Heq. lia.
Qed.

Lemma inv_call ev st m rt text :
  inv st → _rpcRequestId st < MAX_EXACT →
  request_of ev (_rpcRequestId st) = Some (m, rt, text) →
  inv (state_of (step ev st)).
Proof.
  intros I Hmax E. destruct (step_call _ _ _ _ _ E) as [Hid ->].
  rewrite number_succ_below by done.
  pose proof (listeners_fresh st _ I (Z.le_refl _)) as Hfresh.
  destruct I as [K S O U T L P TL TP A].
  destruct rt as [| | |other]; simpl.
  - (* void *)
    split; simpl; try done.
    + intros key ls H. destruct (K _ _ H) as (r & -> & ?). exists r. split; [done|lia].
    + intros m' [H| ->%list_elem_of_singleton]%elem_of_app; [specialize (S _ H)|]; lia.
    + intros m' H. specialize (O _ H). lia.
    + intros t H. destruct (T _ H). split; [lia|done].
  - (* promise *)
    rewrite Hid. set (p0 := length (promises st)).
    set (t0 := {| timer_requestId := _rpcRequestId st; timer_promise := p0;
                  timer_message := text |}).
    match goal with |- inv ?s => set (st' := s) end.
    assert (Hsame : listeners (pretty (_rpcRequestId st)) st' = [PromiseListener p0]).
    { subst st'. unfold listeners at 1. simpl. rewrite lookup_insert_eq. simpl.
      change (listeners (pretty (_rpcRequestId st)) st ++ [PromiseListener p0]
              = [PromiseListener p0]).
      by rewrite Hfresh. }
    assert (Hother : ∀ name, name ≠ pretty (_rpcRequestId st) →
                             listeners name st' = listeners name st).
    { intros name Hne. subst st'. unfold listeners. simpl. by rewrite lookup_insert_ne. }
    assert (Hold : ∀ (r : Z) l, l ∈ listeners (pretty r) st →
                                pretty r ≠ pretty (_rpcRequestId st)).
    { intros r l Hl Heq. rewrite Heq, Hfresh in Hl. by apply elem_of_nil in Hl. }
    assert (Hem : _emitter st' = <[pretty (_rpcRequestId st) := [PromiseListener p0]]>
                                   (_emitter st)).
    { subst st'. simpl. f_equal.
      change (listeners (pretty (_rpcRequestId st)) st ++ [PromiseListener p0]
              = [PromiseListener p0]).
      by rewrite Hfresh. }
    assert (Hctr : _rpcRequestId st' = _rpcRequestId st + 1) by done.
    assert (Hsock : _socket st' = _socket st ++ [m]) by done.
    assert (Hprom : promises st' = promises st ++ [Pending]) by done.
    assert (Htim : timers st' = timers st ++ [t0]) by done.
    assert (Hobs : observables st' = observables st) by done.
    assert (Hsubs : subscriptions st' = subscriptions st) by done.
    clearbody st'.
    split; rewrite ?Hctr, ?Hsock, ?Hprom, ?Htim, ?Hobs, ?Hsubs.
    + intros key ls H. rewrite Hem in H.
      destruct (decide (pretty (_rpcRequestId st) = key)) as [<-|Hne].
      * exists (_rpcRequestId st). split; [done|lia].
      * rewrite lookup_insert_ne in H by done.
        destruct (K _ _ H) as (r & -> & ?). exists r. split; [done|lia].
    + intros m' [H| ->%list_elem_of_singleton]%elem_of_app; [specialize (S _ H)|]; lia.
    + intros m' H. specialize (O _ H). lia.
    + exact U.
    + intros t H. rewrite length_app. simpl.
      apply elem_of_app in H as [H| ->%list_elem_of_singleton].
      * destruct (T _ H). lia.
      * simpl. fold p0. lia.
    + intros r p H. destruct (decide (pretty r = pretty (_rpcRequestId st))) as [Heq|Hne].
      * rewrite Heq in *. rewrite Hsame in *.
        apply list_elem_of_singleton in H. injection H as ->.
        apply (inj pretty) in Heq as ->.
        split_and!; [done| |].
        -- rewrite lookup_app_r by done.
           by replace (p0 - length (promises st))%nat with 0%nat by (subst p0; lia).
        -- exists text. apply elem_of_app. right. by apply list_elem_of_singleton.
      * rewrite Hother in * by done. destruct (L _ _ H) as (H1 & H2 & text' & H3).
        split_and!; [done| |].
        -- rewrite lookup_app_l; [done|]. by eapply lookup_lt_Some.
        -- exists text'. apply elem_of_app. by left.
    + intros p H.
      destruct (decide (p < length (promises st))%nat) as [Hlt|Hge].
      * rewrite lookup_app_l in H by done. destruct (P _ H) as (r & Hr).
        exists r. rewrite Hother; [done|]. by eapply Hold.
      * exists (_rpcRequestId st). rewrite Hsame. apply lookup_lt_Some in H as Hlen.
        rewrite length_app in Hlen. simpl in Hlen.
        replace p with p0 by (subst p0; lia). by left.
    + intros t l Ht Hl.
      apply elem_of_app in Ht as [Ht| ->%list_elem_of_singleton].
      * rewrite Hother in Hl; [by eapply TL|].
        intros Heq%(inj pretty). destruct (T _ Ht). lia.
      * simpl in *. rewrite Hsame in Hl. by apply list_elem_of_singleton in Hl.
    + intros t t' Ht Ht' Heq.
      apply elem_of_app in Ht as [Ht| ->%list_elem_of_singleton];
        apply elem_of_app in Ht' as [Ht'| ->%list_elem_of_singleton];
        simpl in *; [by eapply TP| | |done].
      * destruct (T _ Ht). subst p0. lia.
      * destruct (T _ Ht'). subst p0. lia.
    + intros m' t Hm' Ht.
      apply elem_of_app in Ht as [Ht| ->%list_elem_of_singleton]; [by eapply A|].
      simpl. specialize (O _ Hm'). lia.
  - (* observable *)
    split; simpl; try done.
    + intros key ls H. destruct (K _ _ H) as (r & -> & ?). exists r. split; [done|lia].
    + intros m' H. specialize (S _ H). lia.
    + intros m' [H| ->%list_elem_of_singleton]%elem_of_app; [specialize (O _ H)|]; lia.
    + intros s H. apply elem_of_app. left. by apply U.
    + intros t H. destruct (T _ H). split; [lia|done].
    + intros m' t [H| ->%list_elem_of_singleton]%elem_of_app Ht; [by eapply A|].
      destruct (T _ Ht). lia.
  - (* a return type the switch does not know *)
    split; simpl; try done.
    + intros key ls H. destruct (K _ _ H) as (r & -> & ?). exists r. split; [done|lia].
    + intros m' H. specialize (S _ H). lia.
    + intros m' H. specialize (O _ H). lia.
    + intros t H. destruct (T _ H). split; [lia|done].
Qed.

Lemma inv_alter_subscription f sub st :
  (∀ x, sub_message (f x) = sub_message x) →
  inv st → inv (set_subscriptions (alter f sub) st).
Proof.
  intros Hf [K S O U T L P TL TP A]. split; try done.
  intros s (s0 & Hs0 & ->)%(alter_sub_message _ _ _ _ Hf). by apply U.
Qed.

Lemma inv_dispose m st : inv st → m ∈ observables st → inv (dispose m st).
Proof.
  intros [K S O U T L P TL TP A] Hm. unfold dispose.
  set (name := pretty (message_requestId m)).
  match goal with |- inv ?s => set (st' := s) end.
  assert (Hsub : ∀ n l, l ∈ listeners n st' → l ∈ listeners n st).
  { intros n l. apply listeners_removeAll_subseteq. }
  assert (Hne : ∀ n, name ≠ n → listeners n st' = listeners n st).
  { intros n. apply listeners_removeAll_ne. }
  assert (Heq : listeners name st' = []) by apply listeners_removeAll_eq.
  assert (Hem : _emitter st' = delete name (_emitter st)) by done.
  assert (Hsock : _socket st' = _socket st ++ [DisposeObservable (message_requestId m)])
    by done.
  assert (Hctr : _rpcRequestId st' = _rpcRequestId st) by done.
  assert (Hprom : promises st' = promises st) by done.
  assert (Htim : timers st' = timers st) by done.
  assert (Hobs : observables st' = observables st) by done.
  assert (Hsubs : subscriptions st' = subscriptions st) by done.
  clearbody st'.
  split; rewrite ?Hctr, ?Hsock, ?Hprom, ?Htim, ?Hobs, ?Hsubs; try done.
  - intros key ls H. rewrite Hem in H. apply lookup_delete_Some in H as [_ H]. eauto.
  - intros m' [H| ->%list_elem_of_singleton]%elem_of_app; [by apply S|]. simpl. by apply O.
  - intros r p H. destruct (decide (name = pretty r)) as [Hn|Hn].
    + rewrite <- Hn, Heq in H. by apply elem_of_nil in H.
    + rewrite Hne in * by done. by apply L.
  - intros p H. destruct (P _ H) as (r & Hr). exists r.
    rewrite Hne; [done|]. intros Hn%(inj pretty).
    destruct (L _ _ Hr) as (_ & _ & text & Ht).
    by apply (A _ _ Hm Ht).
  - intros t l Ht Hl. apply (TL t l Ht). by apply Hsub.
Qed.

Lemma inv_unsubscribe sub st : inv st → inv (unsubscribe sub st).
Proof.
  intros I. unfold unsubscribe.
  destruct (subscriptions st !! sub) as [s|] eqn:E; [|done].
  destruct (isStopped s); [done|].
  apply inv_dispose.
  - by apply inv_alter_subscription.
  - simpl. apply (inv_subscriptions _ I). by eapply list_elem_of_lookup_2.
Qed.

Lemma inv_observer_finish sub n st : inv st → inv (observer_finish sub n st).
Proof.
  intros I. unfold observer_finish.
  destruct (subscriptions st !! sub) as [s|] eqn:E; [|done].
  destruct (isStopped s); [done|].
  apply inv_dispose.
  - by apply inv_alter_subscription.
  - simpl. apply (inv_subscriptions _ I). by eapply list_elem_of_lookup_2.
Qed.

Lemma inv_observer_onNext sub v st : inv st → inv (observer_onNext sub v st).
Proof.
  intros I. unfold observer_onNext.
  destruct (subscriptions st !! sub) as [s|] eqn:E; [|done].
  destruct (isStopped s); [done|].
  by apply inv_alter_subscription.
Qed.

Lemma inv_call_observer name sub h e r st :
  inv st → inv (state_of (call_listener name (ObserverListener sub) h e r st)).
Proof.
  intros I. simpl. destruct h; simpl; [by apply inv_observer_finish|].
  destruct (truthy r); simpl; [|done].
  destruct (strict_eq_str (js_prop r "type") "completed"); simpl;
    [by apply inv_observer_finish|].
  destruct (strict_eq_str (js_prop r "type") "next"); simpl; [|done].
  by apply inv_observer_onNext.
Qed.

Lemma inv_subscribe o st : inv st → inv (state_of (subscribe o st)).
Proof.
  intros I. unfold subscribe.
  destruct (observables st !! o) as [m|] eqn:E; [|done]. simpl.
  assert (Hm : m ∈ observables st) by by eapply list_elem_of_lookup_2.
  destruct I as [K S O U T L P TL TP A].
  set (name := pretty (message_requestId m)).
  set (l0 := ObserverListener (length (subscriptions st))).
  match goal with |- inv ?s => set (st' := s) end.
  assert (Heq : listeners name st' = listeners name st ++ [l0]).
  { subst st'. unfold listeners at 1. simpl. by rewrite lookup_insert_eq. }
  assert (Hne : ∀ n, name ≠ n → listeners n st' = listeners n st).
  { intros n Hn. subst st'. unfold listeners. simpl. by rewrite lookup_insert_ne. }
  assert (Hem : _emitter st' = <[name := listeners name st ++ [l0]]> (_emitter st)) by done.
  assert (Hsock : _socket st' = _socket st ++ [m]) by done.
  assert (Hctr : _rpcRequestId st' = _rpcRequestId st) by done.
  assert (Hprom : promises st' = promises st) by done.
  assert (Htim : timers st' = timers st) by done.
  assert (Hobs : observables st' = observables st) by done.
  assert (Hsubs : subscriptions st' = subscriptions st ++
            [{| sub_message := m; isStopped := false; seen := [] |}]) by done.
  clearbody st'.
  assert (Hkeep : ∀ n l, l ∈ listeners n st → l ∈ listeners n st').
  { intros n l Hl. destruct (decide (name = n)) as [<-|Hn].
    - rewrite Heq. apply elem_of_app. by left.
    - by rewrite Hne. }
  assert (Hno : ∀ p, PromiseListener p ∉ listeners name st).
  { intros p Hp. destruct (L _ _ Hp) as (_ & _ & text & Ht). by apply (A _ _ Hm Ht). }
  split; rewrite ?Hctr, ?Hsock, ?Hprom, ?Htim, ?Hobs, ?Hsubs; try done.
  - intros key ls H. rewrite Hem in H. destruct (decide (name = key)) as [<-|Hn].
    + exists (message_requestId m). split; [done|by apply O].
    + rewrite lookup_insert_ne in H by done. eauto.
  - intros m' [H| ->%list_elem_of_singleton]%elem_of_app; [by apply S|by apply O].
  - intros s [H| ->%list_elem_of_singleton]%elem_of_app; [by apply U|done].
  - intros r p H. destruct (decide (name = pretty r)) as [Hn|Hn].
    + rewrite <- Hn, Heq in H. apply elem_of_app in H as [H|H%list_elem_of_singleton].
      * by apply Hno in H.
      * done.
    + rewrite Hne in * by done. by apply L.
  - intros p H. destruct (P _ H) as (r & Hr). exists r. by apply Hkeep.
  - intros t l Ht Hl. apply (TL t l Ht). rewrite Hne in Hl; [done|].
    intros Hn%(inj pretty). by apply (A _ _ Hm Ht).
Qed.

(** The one-shot listener of a promise, called while it is registered. *)
Lemma inv_call_promise (r : Z) p h e res st :
  inv st → PromiseListener p ∈ listeners (pretty r) st →
  inv (state_of (call_listener (pretty r) (PromiseListener p) h e res st)).
Proof.
  intros I Hp. destruct (inv_listener _ I _ _ Hp) as (Hls & Hpend & text & Ht).
  destruct I as [K S O U T L P TL TP A]. simpl.
  set (s := if h then Rejected (decodeError e) else Resolved res).
  assert (Hst : (if h then settle p (Rejected (decodeError e))
                              (removeListener (pretty r) (PromiseListener p) st)
                 else settle p (Resolved res)
                              (removeListener (pretty r) (PromiseListener p) st))
                = settle p s (removeListener (pretty r) (PromiseListener p) st))
    by (subst s; by destruct h).
  rewrite Hst. clear Hst.
  assert (Hs : s ≠ Pending) by (subst s; by destruct h).
  set (st1 := removeListener (pretty r) (PromiseListener p) st).
  assert (Hem1 : _emitter st1 = delete (pretty r) (_emitter st)).
  { subst st1. unfold removeListener. rewrite Hls. simpl.
    by rewrite bool_decide_eq_true_2. }
  assert (Hpend1 : promises st1 !! p = Some Pending).
  { subst st1. unfold removeListener. by destruct (remove_first _ _). }
  set (st' := settle p s st1).
  assert (Hem : _emitter st' = delete (pretty r) (_emitter st)).
  { subst st'. unfold settle. rewrite Hpend1. simpl. exact Hem1. }
  assert (Hprom : promises st' = <[p := s]> (promises st)).
  { subst st'. unfold settle. rewrite Hpend1. simpl. f_equal.
    subst st1. unfold removeListener. by destruct (remove_first _ _). }
  assert (Hrest : _rpcRequestId st' = _rpcRequestId st ∧ _socket st' = _socket st ∧
                  timers st' = timers st ∧ observables st' = observables st ∧
                  subscriptions st' = subscriptions st).
  { subst st'. unfold settle. rewrite Hpend1. simpl.
    subst st1. unfold removeListener. by destruct (remove_first _ _). }
  destruct Hrest as (Hctr & Hsock & Htim & Hobs & Hsubs).
  assert (Heq : listeners (pretty r) st' = []).
  { unfold listeners. by rewrite Hem, lookup_delete_eq. }
  assert (Hne : ∀ n, pretty r ≠ n → listeners n st' = listeners n st).
  { intros n Hn. unfold listeners. by rewrite Hem, lookup_delete_ne. }
  assert (Hsub : ∀ n l, l ∈ listeners n st' → l ∈ listeners n st).
  { intros n l. destruct (decide (pretty r = n)) as [<-|Hn].
    - rewrite Heq. by intros ?%elem_of_nil.
    - by rewrite Hne. }
  clearbody st'. clear st1 Hem1 Hpend1.
  split; rewrite ?Hctr, ?Hsock, ?Htim, ?Hobs, ?Hsubs; try done.
  - intros key ls H. rewrite Hem in H. apply lookup_delete_Some in H as [_ H]. eauto.
  - intros t H. rewrite Hprom, length_insert. by apply T.
  - intros r' p' H. destruct (decide (pretty r = pretty r')) as [Hn|Hn].
    + rewrite <- Hn, Heq in H. by apply elem_of_nil in H.
    + rewrite Hne in * by done. destruct (L _ _ H) as (H1 & H2 & text' & H3).
      split_and!; [done| |by exists text'].
      rewrite Hprom. rewrite list_lookup_insert_ne; [done|].
      intros <-. apply Hn. f_equal. symmetry. by apply (TP _ _ H3 Ht).
  - intros p' H. rewrite Hprom in H.
    destruct (decide (p = p')) as [<-|Hpp].
    + rewrite list_lookup_insert_eq in H by (by eapply lookup_lt_Some). congruence.
    + rewrite list_lookup_insert_ne in H by done.
      destruct (P _ H) as (r' & Hr'). exists r'. rewrite Hne; [done|].
      intros Hn. rewrite <- Hn, Hls in Hr'.
      apply list_elem_of_singleton in Hr'. congruence.
  - intros t l Ht' Hl. apply (TL t l Ht'). by apply Hsub.
Qed.

Lemma inv_timeout k t st :
  timers st !! k = Some t → inv st → inv (on_timeout t (set_timers (delete k) st)).
Proof.
  intros Hk [K S O U T L P TL TP A].
  assert (Ht : t ∈ timers st) by by eapply list_elem_of_lookup_2.
  unfold Client.on_timeout.
  set (name := pretty (timer_requestId t)).
  set (s := Rejected (timeout_reason t)).
  match goal with |- inv ?x => set (st' := x) end.
  assert (Hem : _emitter st' = delete name (_emitter st)).
  { subst st'. unfold settle. simpl. by destruct (promises st !! timer_promise t) as [[]|]. }
  assert (Hprom : promises st' = promises st ∧ promises st !! timer_promise t ≠ Some Pending
                  ∨ promises st' = <[timer_promise t := s]> (promises st)
                    ∧ promises st !! timer_promise t = Some Pending).
  { subst st'. unfold settle. simpl.
    destruct (promises st !! timer_promise t) as [[]|]; simpl; auto. }
  assert (Hrest : _rpcRequestId st' = _rpcRequestId st ∧ _socket st' = _socket st ∧
                  timers st' = delete k (timers st) ∧ observables st' = observables st ∧
                  subscriptions st' = subscriptions st).
  { subst st'. unfold settle. simpl. by destruct (promises st !! timer_promise t) as [[]|]. }
  destruct Hrest as (Hctr & Hsock & Htim & Hobs & Hsubs).
  assert (Hlen : length (promises st') = length (promises st)).
  { destruct Hprom as [[-> _]|[-> _]]; by rewrite ?length_insert. }
  assert (Hlook : ∀ p, p ≠ timer_promise t → promises st' !! p = promises st !! p).
  { intros p Hp. destruct Hprom as [[-> _]|[-> _]]; [done|].
    by rewrite list_lookup_insert_ne. }
  assert (Hgone : promises st' !! timer_promise t ≠ Some Pending).
  { destruct Hprom as [[-> H]|[-> H]]; [done|].
    rewrite list_lookup_insert_eq by (by eapply lookup_lt_Some). done. }
  assert (Heq : listeners name st' = []).
  { unfold listeners. by rewrite Hem, lookup_delete_eq. }
  assert (Hne : ∀ n, name ≠ n → listeners n st' = listeners n st).
  { intros n Hn. unfold listeners. by rewrite Hem, lookup_delete_ne. }
  assert (Hsub : ∀ n l, l ∈ listeners n st' → l ∈ listeners n st).
  { intros n l. destruct (decide (name = n)) as [<-|Hn].
    - rewrite Heq. by intros ?%elem_of_nil.
    - by rewrite Hne. }
  clearbody st'.
  split; rewrite ?Hctr, ?Hsock, ?Htim, ?Hobs, ?Hsubs; try done.
  - intros key ls H. rewrite Hem in H. apply lookup_delete_Some in H as [_ H]. eauto.
  - intros t' H%list_elem_of_delete_inv. rewrite Hlen. by apply T.
  - intros r p H. destruct (decide (name = pretty r)) as [Hn|Hn].
    + rewrite <- Hn, Heq in H. by apply elem_of_nil in H.
    + rewrite Hne in * by done. destruct (L _ _ H) as (H1 & H2 & text & H3).
      assert (p ≠ timer_promise t) as Hp.
      { intros ->. apply Hn. subst name. f_equal. by apply (TP _ _ Ht H3). }
      split_and!; [done|by rewrite Hlook|].
      exists text. eapply elem_of_delete_other; [done..|].
      intros <-. by apply Hn.
  - intros p H.
    assert (p ≠ timer_promise t) as Hp by (intros ->; by apply Hgone).
    rewrite Hlook in H by done. destruct (P _ H) as (r & Hr). exists r.
    rewrite Hne; [done|]. intros Hn. subst name. apply (inj pretty) in Hn as <-.
    specialize (TL _ _ Ht Hr). congruence.
  - intros t' l Ht'%list_elem_of_delete_inv Hl. apply (TL t' l Ht'). by apply Hsub.
  - intros t1 t2 H1%list_elem_of_delete_inv H2%list_elem_of_delete_inv. by apply TP.
  - intros m t' Hm Ht'%list_elem_of_delete_inv. by apply A.
Qed.

Lemma listeners_shape (ls : list Listener) :
  (∃ p, PromiseListener p ∈ ls) ∨ (∀ l, l ∈ ls → is_observer l).
Proof.
  induction ls as [|[p|q] ls IH].
  - right. by intros l ?%elem_of_nil.
  - left. exists p. by left.
  - destruct IH as [[p Hp]|Hall].
    + left. exists p. by right.
    + right. intros l [->|Hl]%elem_of_cons; [done|auto].
Qed.

Lemma inv_emit (r : Z) h e res st :
  inv st → inv (state_of (emit (pretty r) h e res st)).
Proof.
  intros I. unfold emit.
  destruct (listeners_shape (listeners (pretty r) st)) as [[p Hp]|Hall].
  - destruct (inv_listener _ I _ _ Hp) as (-> & _).
    change (inv (state_of (call_listener (pretty r) (PromiseListener p) h e res st))).
    by apply inv_call_promise.
  - apply emit_to_preserves; [|done].
    intros [p|q] st1 Hl I1; [by apply Hall in Hl|]. by apply inv_call_observer.
Qed.

Lemma inv_step ev st :
  inv st → _rpcRequestId st < MAX_EXACT → inv (state_of (step ev st)).
Proof.
  intros I Hmax.
  destruct (request_of ev (_rpcRequestId st)) as [[[m rt] text]|] eqn:E.
  { by eapply inv_call. }
  destruct ev as [| | | |o|sub|message|k]; simpl in E; try done; simpl.
  - by apply inv_subscribe.
  - by apply inv_unsubscribe.
  - unfold Client._handleSocketMessage.
    destruct (strict_eq_str _ _); [|done].
    destruct (requestId message) as [r|]; [|done]. by apply inv_emit.
  - destruct (timers st !! k) as [t|] eqn:Hk; [|done]. simpl. by apply inv_timeout.
Qed.

Lemma run_snoc evs ev st : run (evs ++ [ev]) st = state_of (step ev (run evs st)).
Proof. unfold Client.run. by rewrite foldl_snoc. Qed.

Lemma reachable_inv st : reachable st → _rpcRequestId st < MAX_EXACT → inv st.
Proof.
  intros [evs ->]. induction evs as [|ev evs IH] using rev_ind.
  - intros _. apply inv_constructor.
  - rewrite run_snoc. intros Hmax.
    pose proof (counter_step ev (run evs constructor)) as Hle.
    apply inv_step; [apply IH|]; lia.
Qed.

Lemma reachable_step ev st : reachable st → reachable (state_of (step ev st)).
Proof. intros [evs ->]. exists (evs ++ [ev]). by rewrite run_snoc. Qed.

Lemma counter_positive st : reachable st → 1 ≤ _rpcRequestId st.
Proof.
  intros [evs ->]. induction evs as [|ev evs IH] using rev_ind; [done|].
  rewrite run_snoc. pose proof (counter_step ev (run evs constructor)). lia.
Qed.

(** ** Promises: call, response, timeout *)

Lemma listeners_settle n p s st : listeners n (settle p s st) = listeners n st.
Proof. unfold settle. by destruct (promises st !! p) as [[]|]. Qed.

Lemma log_settle p s st : log (settle p s st) = log st.
Proof. unfold settle. by destruct (promises st !! p) as [[]|]. Qed.

Lemma promises_removeListener n l st : promises (removeListener n l st) = promises st.
Proof. unfold removeListener. by destruct (remove_first _ _). Qed.

Lemma log_removeListener n l st : log (removeListener n l st) = log st.
Proof. unfold removeListener. by destruct (remove_first _ _). Qed.

Lemma call_promise ev st m text :
  request_of ev (_rpcRequestId st) = Some (m, RPromise, text) →
  step ev st =
    Normal (ReturnedPromise (length (promises st)))
      (set_timers (λ l, l ++ [{| timer_requestId := message_requestId m;
                                 timer_promise := length (promises st);
                                 timer_message := text |}])
         (add_listener (pretty (message_requestId m))
            (PromiseListener (length (promises st)))
            (socket_send m
               (set_promises (λ l, l ++ [Pending])
                  (set_rpcRequestId (number_succ (_rpcRequestId st)) st))))).
Proof. intros E. by destruct (step_call _ _ _ _ _ E) as [_ ->]. Qed.

Lemma emit_promise (r : Z) p h e res st :
  listeners (pretty r) st = [PromiseListener p] →
  emit (pretty r) h e res st =
    Normal ReturnedUndefined
      (settle p (if h then Rejected (decodeError e) else Resolved res)
         (removeListener (pretty r) (PromiseListener p) st)).
Proof. intros H. unfold emit. rewrite H. simpl. by destruct h. Qed.

Lemma response_settles st p (r : Z) message :
  promises st !! p = Some Pending →
  listeners (pretty r) st = [PromiseListener p] →
  strict_eq_str (channel message) SERVICE_FRAMEWORK3_CHANNEL = true →
  requestId message = Some r →
  ∃ st2,
    step (SocketMessage message) st = Normal ReturnedUndefined st2 ∧
    promises st2 !! p
      = Some (if hadError message then Rejected (decodeError (error message))
              else Resolved (result message)) ∧
    listeners (pretty r) st2 = [] ∧
    log st2 = log st.
Proof.
  intros Hp Hl Hc Hr. eexists. simpl. unfold Client._handleSocketMessage.
  rewrite Hc, Hr. rewrite (emit_promise _ _ _ _ _ _ Hl). split; [reflexivity|].
  split_and!.
  - apply settle_pending. by rewrite promises_removeListener.
  - rewrite listeners_settle, listeners_removeListener_eq, Hl. simpl.
    by rewrite bool_decide_eq_true_2.
  - by rewrite log_settle, log_removeListener.
Qed.

Lemma timeout_rejects st k t :
  timers st !! k = Some t →
  promises st !! timer_promise t = Some Pending →
  ∃ st2,
    step (Timeout k) st = Normal ReturnedUndefined st2 ∧
    promises st2 !! timer_promise t = Some (Rejected (timeout_reason t)) ∧
    listeners (pretty (timer_requestId t)) st2 = [] ∧
    timers st2 = delete k (timers st).
Proof.
  intros Hk Hp. eexists. simpl. rewrite Hk. split; [reflexivity|].
  unfold Client.on_timeout. split_and!.
  - by apply settle_pending.
  - rewrite listeners_settle. apply listeners_removeAll_eq.
  - unfold settle. simpl. by rewrite Hp.
Qed.

Lemma frame_dropped st (r : Z) message :
  strict_eq_str (channel message) SERVICE_FRAMEWORK3_CHANNEL = true →
  requestId message = Some r →
  listeners (pretty r) st = [] →
  step (SocketMessage message) st = Normal ReturnedUndefined st.
Proof.
  intros Hc Hr Hl. simpl. unfold Client._handleSocketMessage, emit.
  by rewrite Hc, Hr, Hl.
Qed.

Lemma promises_observer_finish q n st :
  promises (observer_finish q n st) = promises st.
Proof.
  unfold observer_finish. destruct (subscriptions st !! q) as [s|]; [|done].
  by destruct (isStopped s).
Qed.

Lemma promises_observer_onNext q v st :
  promises (observer_onNext q v st) = promises st.
Proof.
  unfold observer_onNext. destruct (subscriptions st !! q) as [s|]; [|done].
  by destruct (isStopped s).
Qed.

Lemma settled_call_listener name l h e res st p s :
  promises st !! p = Some s → s ≠ Pending →
  promises (state_of (call_listener name l h e res st)) !! p = Some s.
Proof.
  intros Hp Hs. destruct l as [p'|q]; simpl.
  - destruct h; apply settle_final; by rewrite ?promises_removeListener.
  - destruct h; simpl; [by rewrite promises_observer_finish|].
    destruct (truthy res); simpl; [|done].
    destruct (strict_eq_str (js_prop res "type") "completed"); simpl;
      [by rewrite promises_observer_finish|].
    destruct (strict_eq_str (js_prop res "type") "next"); simpl; [|done].
    by rewrite promises_observer_onNext.
Qed.

Lemma settled_is_final ev st p s :
  promises st !! p = Some s → s ≠ Pending →
  promises (state_of (step ev st)) !! p = Some s.
Proof.
  intros Hp Hs.
  destruct (request_of ev (_rpcRequestId st)) as [[[m rt] text]|] eqn:E.
  { destruct (step_call _ _ _ _ _ E) as [_ ->]. destruct rt; simpl; try done.
    rewrite lookup_app_l; [done|]. by eapply lookup_lt_Some. }
  destruct ev as [| | | |o|sub|message|k]; simpl in E; try done; simpl.
  - unfold subscribe. by destruct (observables st !! o).
  - unfold unsubscribe. destruct (subscriptions st !! sub) as [x|]; [|done].
    by destruct (isStopped x).
  - unfold Client._handleSocketMessage.
    destruct (strict_eq_str _ _); [|done].
    destruct (requestId message) as [r|]; [|done].
    unfold emit. apply (emit_to_preserves (λ st, promises st !! p = Some s)); [|done].
    intros l st1 _ H1. by apply settled_call_listener.
  - destruct (timers st !! k) as [t|]; [|done]. simpl.
    unfold Client.on_timeout. by apply settle_final.
Qed.

(** ** Timers *)

Lemma delete_out_of_range {A} (l : list A) k : l !! k = None → delete k l = l.
Proof.
  revert k. induction l as [|x l IH]; intros [|k]; simpl; try done.
  intros H. by rewrite IH.
Qed.

Lemma timers_after_step ev st :
  timers (state_of (step ev st)) =
    match ev with
    | Timeout k => delete k (timers st)
    | _ =>
        match request_of ev (_rpcRequestId st) with
        | Some (m, RPromise, text) =>
            timers st ++ [{| timer_requestId := message_requestId m;
                             timer_promise := length (promises st);
                             timer_message := text |}]
        | _ => timers st
        end
    end.
Proof.
  destruct (request_of ev (_rpcRequestId st)) as [[[m rt] text]|] eqn:E.
  { destruct (step_call _ _ _ _ _ E) as [_ Hstep].
    destruct ev; try done; rewrite Hstep; by destruct rt. }
  destruct ev as [| | | |o|sub|message|k]; simpl in E; try done; simpl.
  - unfold subscribe. by destruct (observables st !! o).
  - unfold unsubscribe. destruct (subscriptions st !! sub) as [x|]; [|done].
    by destruct (isStopped x).
  - unfold Client._handleSocketMessage.
    destruct (strict_eq_str _ _); [|done].
    destruct (requestId message) as [r|]; [|done].
    unfold emit.
    apply (emit_to_preserves (λ st1, timers st1 = timers st)); [|done].
    intros l st1 _ H1. destruct l as [p'|q]; simpl.
    + unfold settle, removeListener.
      destruct (hadError message); destruct (remove_first _ _); simpl;
        by destruct (promises st1 !! p') as [[]|].
    + assert (∀ n, timers (observer_finish q n st1) = timers st) as Hfin.
      { intros n. unfold observer_finish. destruct (subscriptions st1 !! q) as [x|]; [|done].
        by destruct (isStopped x). }
      destruct (hadError message); simpl; [apply Hfin|].
      destruct (truthy (result message)); simpl; [|done].
      destruct (strict_eq_str _ "completed"); simpl; [apply Hfin|].
      destruct (strict_eq_str _ "next"); simpl; [|done].
      unfold observer_onNext. destruct (subscriptions st1 !! q) as [x|]; [|done].
      by destruct (isStopped x).
  - destruct (timers st !! k) as [t|] eqn:Hk; simpl.
    + unfold Client.on_timeout, settle. simpl.
      by destruct (promises st !! timer_promise t) as [[]|].
    + by rewrite delete_out_of_range.
Qed.

Lemma timer_stays ev st t :
  inv st → t ∈ timers st →
  promises (state_of (step ev st)) !! timer_promise t = Some Pending →
  t ∈ timers (state_of (step ev st)).
Proof.
  intros I Ht Hp. rewrite timers_after_step.
  assert (promises st !! timer_promise t = Some Pending) as Hbefore.
  { destruct (inv_timers _ I _ Ht) as [_ Hlt].
    destruct (lookup_lt_is_Some_2 _ _ Hlt) as [s Hs].
    destruct s; [done| |];
      (rewrite (settled_is_final ev st _ _ Hs) in Hp; [done|done]). }
  destruct ev as [| | | |o|sub|message|k]; simpl;
    try (destruct rt; try done; apply elem_of_app; by left);
    try done.
  - destruct returnType; try done. apply elem_of_app; by left.
  - destruct returnType; try done. apply elem_of_app; by left.
  - apply elem_of_app; by left.
  - apply elem_of_app; by left.
  - destruct (timers st !! k) as [t'|] eqn:Hk; [|by rewrite delete_out_of_range].
    eapply elem_of_delete_other; [done..|]. intros ->.
    destruct (timeout_rejects st k t' Hk Hbefore) as (st2 & Hstep & Hrej & _).
    rewrite Hstep in Hp. simpl in Hp. congruence.
Qed.

Lemma promises_length_step ev st :
  (length (promises st) ≤ length (promises (state_of (step ev st))))%nat.
Proof.
  destruct (request_of ev (_rpcRequestId st)) as [[[m rt] text]|] eqn:E.
  { destruct (step_call _ _ _ _ _ E) as [_ ->]. destruct rt; simpl; try done.
    rewrite length_app. lia. }
  destruct ev as [| | | |o|sub|message|k]; simpl in E; try done; simpl.
  - unfold subscribe. by destruct (observables st !! o).
  - unfold unsubscribe. destruct (subscriptions st !! sub) as [x|]; [|done].
    by destruct (isStopped x).
  - unfold Client._handleSocketMessage.
    destruct (strict_eq_str _ _); [|done].
    destruct (requestId message) as [r|]; [|done].
    unfold emit.
    apply (emit_to_preserves
             (λ st1, (length (promises st) ≤ length (promises st1))%nat)); [|done].
    intros l st1 _ H1. destruct l as [p'|q]; simpl.
    + destruct (hadError message); by rewrite settle_length, promises_removeListener.
    + destruct (hadError message); simpl; [by rewrite promises_observer_finish|].
      destruct (truthy (result message)); simpl; [|done].
      destruct (strict_eq_str _ "completed"); simpl;
        [by rewrite promises_observer_finish|].
      destruct (strict_eq_str _ "next"); simpl; [|done].
      by rewrite promises_observer_onNext.
  - destruct (timers st !! k) as [t|]; [|done]. simpl.
    unfold Client.on_timeout. by rewrite settle_length.
Qed.

Lemma reachable_run evs st : reachable st → reachable (run evs st).
Proof.
  revert st. induction evs as [|ev evs IH]; intros st H; [done|].
  apply (IH (state_of (step ev st))). by apply reachable_step.
Qed.

Lemma counter_run evs st : _rpcRequestId st ≤ _rpcRequestId (run evs st).
Proof.
  revert st. induction evs as [|ev evs IH]; intros st; simpl; [done|].
  pose proof (counter_step ev st). specialize (IH (state_of (step ev st))).
  unfold Client.run in *. lia.
Qed.

(** The entry of a promise call stays in the table, with its timer, for
    as long as the promise is pending. *)
Lemma pending_entry_stays st ev m text evs :
  reachable st →
  request_of ev (_rpcRequestId st) = Some (m, RPromise, text) →
  _rpcRequestId (run evs (state_of (step ev st))) < MAX_EXACT →
  promises (run evs (state_of (step ev st))) !! length (promises st) = Some Pending →
  listeners (pretty (message_requestId m)) (run evs (state_of (step ev st)))
    = [PromiseListener (length (promises st))] ∧
  {| timer_requestId := message_requestId m; timer_promise := length (promises st);
     timer_message := text |} ∈ timers (run evs (state_of (step ev st))).
Proof.
  intros Hreach E.
  set (p := length (promises st)).
  set (t0 := {| timer_requestId := message_requestId m; timer_promise := p;
                timer_message := text |}).
  set (st1 := state_of (step ev st)).
  assert (Hlen : ∀ evs', (p < length (promises (run evs' st1)))%nat).
  { intros evs'. induction evs' as [|ev' evs' IH] using rev_ind.
    - subst st1. rewrite (call_promise _ _ _ _ E). simpl. rewrite length_app. simpl.
      subst p. lia.
    - rewrite run_snoc. pose proof (promises_length_step ev' (run evs' st1)). lia. }
  induction evs as [|ev' evs IH] using rev_ind.
  - intros Hmax _. simpl.
    assert (_rpcRequestId st < MAX_EXACT) as Hmax0.
    { pose proof (counter_step ev st). fold st1 in H. simpl in Hmax. lia. }
    pose proof (reachable_inv _ Hreach Hmax0) as I.
    destruct (step_call _ _ _ _ _ E) as [Hid _].
    subst st1. rewrite (call_promise _ _ _ _ E). simpl. split.
    + unfold listeners at 1. simpl. rewrite lookup_insert_eq. simpl.
      change (listeners (pretty (message_requestId m)) st ++ [PromiseListener p]
              = [PromiseListener p]).
      rewrite (listeners_fresh st _ I); [done|lia].
    + apply elem_of_app. right. by apply list_elem_of_singleton.
  - rewrite run_snoc. intros Hmax Hpend.
    set (st2 := run evs st1) in *.
    assert (_rpcRequestId st2 < MAX_EXACT) as Hmax2.
    { pose proof (counter_step ev' st2). lia. }
    assert (promises st2 !! p = Some Pending) as Hpend2.
    { destruct (lookup_lt_is_Some_2 _ _ (Hlen evs)) as [s Hs]. fold st2 in Hs.
      destruct s; [done| |];
        (rewrite (settled_is_final ev' st2 _ _ Hs) in Hpend; [done|done]). }
    destruct (IH Hmax2 Hpend2) as [_ Ht0].
    assert (reachable st2) as Hreach2.
    { subst st2 st1. apply reachable_run. by apply reachable_step. }
    pose proof (reachable_inv _ Hreach2 Hmax2) as I2.
    pose proof (timer_stays ev' st2 t0 I2 Ht0 Hpend) as Ht3.
    split; [|done].
    pose proof (reachable_inv _ (reachable_step ev' _ Hreach2) Hmax) as I3.
    destruct (inv_pending _ I3 _ Hpend) as (r & Hr).
    destruct (inv_listener _ I3 _ _ Hr) as (Hls & _ & text' & Ht').
    pose proof (inv_timer_promise _ I3 _ _ Ht3 Ht' eq_refl) as Heq. simpl in Heq.
    by rewrite Heq.
Qed.

(** ** Subscriptions *)

Lemma sub_evolves_refl l : sub_evolves l l.
Proof. intros i s H. by exists s. Qed.

Lemma sub_evolves_trans l1 l2 l3 :
  sub_evolves l1 l2 → sub_evolves l2 l3 → sub_evolves l1 l3.
Proof.
  intros H12 H23 i s H. destruct (H12 _ _ H) as (s2 & H2 & Hm2 & Hs2).
  destruct (H23 _ _ H2) as (s3 & H3 & Hm3 & Hs3).
  exists s3. split_and!; [done|congruence|].
  intros Hstop. specialize (Hs2 Hstop). subst s2. by apply Hs3.
Qed.

Lemma sub_evolves_app l x : sub_evolves l (l ++ x).
Proof.
  intros i s H. exists s. split_and!; [|done..].
  rewrite lookup_app_l; [done|]. by eapply lookup_lt_Some.
Qed.

Lemma sub_evolves_alter f q l x :
  l !! q = Some x → isStopped x = false →
  (∀ y, sub_message (f y) = sub_message y) →
  sub_evolves l (alter f q l).
Proof.
  intros Hq Hx Hf i s H. destruct (decide (q = i)) as [->|Hne].
  - rewrite list_lookup_alter_eq, H. simpl. exists (f s).
    split_and!; [done|apply Hf|]. congruence.
  - rewrite list_lookup_alter_ne by done. by exists s.
Qed.

Lemma sub_evolves_finish q n st :
  sub_evolves (subscriptions st) (subscriptions (observer_finish q n st)).
Proof.
  unfold observer_finish. destruct (subscriptions st !! q) as [x|] eqn:E;
    [|apply sub_evolves_refl].
  destruct (isStopped x) eqn:Hx; [apply sub_evolves_refl|]. simpl.
  by eapply sub_evolves_alter.
Qed.

Lemma sub_evolves_onNext q v st :
  sub_evolves (subscriptions st) (subscriptions (observer_onNext q v st)).
Proof.
  unfold observer_onNext. destruct (subscriptions st !! q) as [x|] eqn:E;
    [|apply sub_evolves_refl].
  destruct (isStopped x) eqn:Hx; [apply sub_evolves_refl|]. simpl.
  by eapply sub_evolves_alter.
Qed.

Lemma sub_evolves_unsubscribe q st :
  sub_evolves (subscriptions st) (subscriptions (unsubscribe q st)).
Proof.
  unfold unsubscribe. destruct (subscriptions st !! q) as [x|] eqn:E;
    [|apply sub_evolves_refl].
  destruct (isStopped x) eqn:Hx; [apply sub_evolves_refl|]. simpl.
  by eapply sub_evolves_alter.
Qed.

Lemma sub_evolves_call_listener name l h e res st :
  sub_evolves (subscriptions st)
              (subscriptions (state_of (call_listener name l h e res st))).
Proof.
  destruct l as [p|q]; simpl.
  - unfold settle, removeListener.
    destruct h; destruct (remove_first _ _); simpl;
      destruct (promises st !! p) as [[]|]; apply sub_evolves_refl.
  - destruct h; simpl; [apply sub_evolves_finish|].
    destruct (truthy res); simpl; [|apply sub_evolves_refl].
    destruct (strict_eq_str _ "completed"); simpl; [apply sub_evolves_finish|].
    destruct (strict_eq_str _ "next"); simpl; [|apply sub_evolves_refl].
    apply sub_evolves_onNext.
Qed.

Lemma sub_evolves_step ev st :
  sub_evolves (subscriptions st) (subscriptions (state_of (step ev st))).
Proof.
  destruct (request_of ev (_rpcRequestId st)) as [[[m rt] text]|] eqn:E.
  { destruct (step_call _ _ _ _ _ E) as [_ ->]. destruct rt; apply sub_evolves_refl. }
  destruct ev as [| | | |o|sub|message|k]; simpl in E; try done; simpl.
  - unfold subscribe. destruct (observables st !! o); [|apply sub_evolves_refl].
    simpl. apply sub_evolves_app.
  - apply sub_evolves_unsubscribe.
  - unfold Client._handleSocketMessage.
    destruct (strict_eq_str _ _); [|apply sub_evolves_refl].
    destruct (requestId message) as [r|]; [|apply sub_evolves_refl].
    unfold emit.
    apply (emit_to_preserves
             (λ st1, sub_evolves (subscriptions st) (subscriptions st1)));
      [|apply sub_evolves_refl].
    intros l st1 _ H1. eapply sub_evolves_trans; [done|].
    apply sub_evolves_call_listener.
  - destruct (timers st !! k) as [t|]; [|apply sub_evolves_refl]. simpl.
    unfold Client.on_timeout, settle. simpl.
    destruct (promises st !! timer_promise t) as [[]|]; apply sub_evolves_refl.
Qed.

Lemma sub_evolves_run evs st :
  sub_evolves (subscriptions st) (subscriptions (run evs st)).
Proof.
  induction evs as [|ev evs IH] using rev_ind; [apply sub_evolves_refl|].
  rewrite run_snoc. eapply sub_evolves_trans; [done|]. apply sub_evolves_step.
Qed.

Lemma observables_kept_run evs st o m :
  observables st !! o = Some m → observables (run evs st) !! o = Some m.
Proof.
  intros H. induction evs as [|ev evs IH] using rev_ind; [done|].
  rewrite run_snoc.
  destruct (request_of ev (_rpcRequestId (run evs st))) as [[[m' rt] text]|] eqn:E.
  - destruct (step_call _ _ _ _ _ E) as [_ ->]. destruct rt; simpl; try done.
    rewrite lookup_app_l; [done|]. by eapply lookup_lt_Some.
  - destruct (step_not_call _ _ E) as [_ ->]. done.
Qed.

(** ** Where listeners come from *)

Lemma remove_first_subseteq l ls x : x ∈ remove_first l ls → x ∈ ls.
Proof.
  induction ls as [|y ls IH]; simpl; [done|].
  case_bool_decide.
  - intros H'. by right.
  - intros [->|H']%elem_of_cons; [by left|right; auto].
Qed.

Lemma listeners_dispose_subseteq m n l st :
  l ∈ listeners n (dispose m st) → l ∈ listeners n st.
Proof. apply listeners_removeAll_subseteq. Qed.

Lemma listeners_call_listener_subseteq name l0 h e res st n l :
  l ∈ listeners n (state_of (call_listener name l0 h e res st)) → l ∈ listeners n st.
Proof.
  assert (∀ q x, l ∈ listeners n (observer_finish q x st) → l ∈ listeners n st) as Hfin.
  { intros q x. unfold observer_finish. destruct (subscriptions st !! q) as [s|]; [|done].
    destruct (isStopped s); [done|]. intros H%listeners_dispose_subseteq. done. }
  destruct l0 as [p|q]; simpl.
  - assert (l ∈ listeners n (removeListener name (PromiseListener p) st) →
            l ∈ listeners n st) as Hrm.
    { destruct (decide (name = n)) as [->|Hne].
      - rewrite listeners_removeListener_eq. apply remove_first_subseteq.
      - by rewrite listeners_removeListener_ne. }
    destruct h; rewrite listeners_settle; apply Hrm.
  - destruct h; simpl; [apply Hfin|].
    destruct (truthy res); simpl; [|done].
    destruct (strict_eq_str _ "completed"); simpl; [apply Hfin|].
    destruct (strict_eq_str _ "next"); simpl; [|done].
    unfold observer_onNext. destruct (subscriptions st !! q) as [s|]; [|done].
    by destruct (isStopped s).
Qed.

(** A listener found after a step was there before, or it is the one-shot
    listener of a promise call, or it is the listener of a subscription. *)
Lemma listeners_origin ev st n l :
  l ∈ listeners n (state_of (step ev st)) →
  l ∈ listeners n st
  ∨ (∃ m text, request_of ev (_rpcRequestId st) = Some (m, RPromise, text) ∧
               n = pretty (message_requestId m) ∧
               l = PromiseListener (length (promises st)))
  ∨ (∃ o m, ev = Subscribe o ∧ observables st !! o = Some m ∧
            n = pretty (message_requestId m) ∧
            l = ObserverListener (length (subscriptions st))).
Proof.
  destruct (request_of ev (_rpcRequestId st)) as [[[m rt] text]|] eqn:E.
  { destruct (step_call _ _ _ _ _ E) as [Hid ->]. destruct rt; simpl; auto.
    intros H. destruct (decide (pretty (message_requestId m) = n)) as [<-|Hne].
    - unfold listeners at 1 in H. simpl in H. rewrite lookup_insert_eq in H. simpl in H.
      apply elem_of_app in H as [H| ->%list_elem_of_singleton]; [by left|].
      right. left. by exists m, text.
    - left. unfold listeners in *. simpl in H. by rewrite lookup_insert_ne in H. }
  destruct ev as [| | | |o|sub|message|k]; simpl in E; try done; simpl.
  - unfold subscribe. destruct (observables st !! o) as [m|] eqn:Ho; [|auto]. simpl.
    intros H. destruct (decide (pretty (message_requestId m) = n)) as [<-|Hne].
    + unfold listeners at 1 in H. simpl in H. rewrite lookup_insert_eq in H. simpl in H.
      apply elem_of_app in H as [H| ->%list_elem_of_singleton]; [by left|].
      right. right. by exists o, m.
    + left. unfold listeners in *. simpl in H. by rewrite lookup_insert_ne in H.
  - intros H. left. revert H. unfold unsubscribe.
    destruct (subscriptions st !! sub) as [s|]; [|done].
    destruct (isStopped s); [done|]. intros H%listeners_dispose_subseteq. done.
  - intros H. left. revert H. unfold Client._handleSocketMessage.
    destruct (strict_eq_str _ _); [|done].
    destruct (requestId message) as [r|]; [|done].
    unfold emit. revert n l.
    apply (emit_to_preserves
             (λ st1, ∀ n l, l ∈ listeners n st1 → l ∈ listeners n st)); [|done].
    intros l0 st1 _ H1 n l Hl. apply H1.
    by eapply listeners_call_listener_subseteq.
  - intros H. left. revert H. destruct (timers st !! k) as [t|]; [|done]. simpl.
    unfold Client.on_timeout. rewrite listeners_settle.
    intros H%listeners_removeAll_subseteq. done.
Qed.

(** After a promise call, its identifier names nothing but its own
    one-shot listener, for good. *)
Lemma key_reserved st ev m text evs :
  reachable st → _rpcRequestId st < MAX_EXACT →
  request_of ev (_rpcRequestId st) = Some (m, RPromise, text) →
  (∀ m', m' ∈ observables (run evs (state_of (step ev st))) →
         message_requestId m' ≠ message_requestId m) ∧
  (∀ l, l ∈ listeners (pretty (message_requestId m)) (run evs (state_of (step ev st))) →
        l = PromiseListener (length (promises st))) ∧
  message_requestId m < _rpcRequestId (run evs (state_of (step ev st))).
Proof.
  intros Hreach Hmax E.
  pose proof (reachable_inv _ Hreach Hmax) as I.
  destruct (step_call _ _ _ _ _ E) as [Hid Hstep].
  set (st1 := state_of (step ev st)).
  induction evs as [|ev' evs IH] using rev_ind.
  - simpl. subst st1. rewrite (call_promise _ _ _ _ E). simpl. split_and!.
    + intros m' Hm'. pose proof (inv_observables _ I _ Hm'). lia.
    + intros l Hl. unfold listeners in Hl. simpl in Hl. rewrite lookup_insert_eq in Hl.
      simpl in Hl.
      change (l ∈ listeners (pretty (message_requestId m)) st
                  ++ [PromiseListener (length (promises st))]) in Hl.
      rewrite (listeners_fresh st _ I) in Hl by lia.
      by apply list_elem_of_singleton in Hl.
    + rewrite number_succ_below by done. lia.
  - rewrite run_snoc. destruct IH as (IH1 & IH2 & IH3).
    set (st2 := run evs st1) in *.
    split_and!.
    + intros m' Hm'.
      destruct (request_of ev' (_rpcRequestId st2)) as [[[m2 rt2] text2]|] eqn:E2.
      * destruct (step_call _ _ _ _ _ E2) as [Hid2 Hstep2]. rewrite Hstep2 in Hm'.
        destruct rt2; simpl in Hm'; try (by apply IH1).
        apply elem_of_app in Hm' as [Hm'| ->%list_elem_of_singleton]; [by apply IH1|].
        lia.
      * destruct (step_not_call _ _ E2) as [_ Hobs]. rewrite Hobs in Hm'. by apply IH1.
    + intros l Hl. apply listeners_origin in Hl as [Hl|[Hl|Hl]].
      * by apply IH2.
      * destruct Hl as (m2 & text2 & E2 & Hn & _).
        destruct (step_call _ _ _ _ _ E2) as [Hid2 _].
        apply (inj pretty) in Hn. lia.
      * destruct Hl as (o & m2 & _ & Ho & Hn & _).
        apply (inj pretty) in Hn. exfalso. apply (IH1 m2); [|done].
        by eapply list_elem_of_lookup_2.
    + pose proof (counter_step ev' st2). lia.
Qed.

(** ** The claims about the client *)

(** C1 (in the form that holds): the counter starts at 1; while it is below 2^53,
    each of the four operations takes the current value as the
    [requestId] of its message and adds one to the counter, and that
    identifier is greater than the identifier of every frame sent and of
    every observable created before.  A void or promise call sends its
    message during the call; an observable call sends nothing and keeps
    the message; each subscription to an observable sends the message it
    kept. *)
Theorem request_ids_count_up st ev m rt text :
  reachable st → _rpcRequestId st < MAX_EXACT →
  request_of ev (_rpcRequestId st) = Some (m, rt, text) →
  _rpcRequestId constructor = 1 ∧
  1 ≤ message_requestId m ∧
  message_requestId m = _rpcRequestId st ∧
  _rpcRequestId (state_of (step ev st)) = message_requestId m + 1 ∧
  (∀ m', m' ∈ _socket st → message_requestId m' < message_requestId m) ∧
  (∀ m', m' ∈ observables st → message_requestId m' < message_requestId m) ∧
  match rt with
  | RVoid | RPromise =>
      _socket (state_of (step ev st)) = _socket st ++ [m] ∧
      observables (state_of (step ev st)) = observables st
  | RObservable =>
      _socket (state_of (step ev st)) = _socket st ∧
      observables (state_of (step ev st)) = observables st ++ [m]
  | ROther _ =>
      _socket (state_of (step ev st)) = _socket st ∧
      observables (state_of (step ev st)) = observables st
  end ∧
  (∀ o mo, observables st !! o = Some mo →
     _socket (state_of (step (Subscribe o) st)) = _socket st ++ [mo]).
Proof.
  intros Hreach Hmax E.
  pose proof (reachable_inv _ Hreach Hmax) as I.
  pose proof (counter_positive _ Hreach) as Hpos.
  destruct (step_call _ _ _ _ _ E) as [Hid Hstep].
  split_and!; [done|lia|done|..].
  - rewrite Hstep, Hid. destruct rt; simpl; by rewrite number_succ_below.
  - intros m' Hm'. rewrite Hid. by apply (inv_sent _ I).
  - intros m' Hm'. rewrite Hid. by apply (inv_observables _ I).
  - rewrite Hstep. by destruct rt.
  - intros o mo Ho. simpl. unfold subscribe. by rewrite Ho.
Qed.

(** C2 (in the form that holds): a promise call returns a pending promise and sends
    its frame.  In every later state, while the counter is below 2^53:
    if the promise is pending, its one-shot listener is alone under the
    request's identifier and its timer is armed; a response frame for the
    identifier then resolves the promise with the result, or rejects it
    with the decoded error, and removes the listener; the timer, when it
    fires, rejects the promise with the timeout text and removes the
    listener.  If the promise is settled, no event changes it any more,
    nothing is registered under the identifier, and a frame for the
    identifier leaves the whole state, log included, as it was. *)
Theorem promise_settles_once st ev m text evs :
  reachable st →
  request_of ev (_rpcRequestId st) = Some (m, RPromise, text) →
  _rpcRequestId (run evs (state_of (step ev st))) < MAX_EXACT →
  let p := length (promises st) in
  let r := message_requestId m in
  let t0 := {| timer_requestId := r; timer_promise := p; timer_message := text |} in
  let st1 := state_of (step ev st) in
  let st2 := run evs st1 in
  step ev st = Normal (ReturnedPromise p) st1 ∧
  _socket st1 = _socket st ++ [m] ∧
  promises st1 !! p = Some Pending ∧
  (promises st2 !! p = Some Pending →
     listeners (pretty r) st2 = [PromiseListener p] ∧
     (∃ k, timers st2 !! k = Some t0) ∧
     (∀ message,
        strict_eq_str (channel message) SERVICE_FRAMEWORK3_CHANNEL = true →
        requestId message = Some r →
        ∃ st3,
          step (SocketMessage message) st2 = Normal ReturnedUndefined st3 ∧
          promises st3 !! p
            = Some (if hadError message then Rejected (decodeError (error message))
                    else Resolved (result message)) ∧
          listeners (pretty r) st3 = [] ∧
          log st3 = log st2) ∧
     (∀ k, timers st2 !! k = Some t0 →
        ∃ st3,
          step (Timeout k) st2 = Normal ReturnedUndefined st3 ∧
          promises st3 !! p = Some (Rejected (timeout_reason t0)) ∧
          listeners (pretty r) st3 = [])) ∧
  (∀ s, promises st2 !! p = Some s → s ≠ Pending →
     (∀ ev', promises (state_of (step ev' st2)) !! p = Some s) ∧
     listeners (pretty r) st2 = [] ∧
     (∀ message,
        strict_eq_str (channel message) SERVICE_FRAMEWORK3_CHANNEL = true →
        requestId message = Some r →
        step (SocketMessage message) st2 = Normal ReturnedUndefined st2)).
Proof.
  intros Hreach E Hmax2 p r t0 st1 st2.
  assert (_rpcRequestId st < MAX_EXACT) as Hmax.
  { pose proof (counter_step ev st). pose proof (counter_run evs st1).
    subst st2 st1. lia. }
  assert (Hst1 : step ev st = Normal (ReturnedPromise p) st1).
  { subst st1. by rewrite (call_promise _ _ _ _ E). }
  split_and!; [done| | |..].
  - subst st1. by rewrite (call_promise _ _ _ _ E).
  - subst st1. rewrite (call_promise _ _ _ _ E). simpl.
    by rewrite lookup_app_r, Nat.sub_diag.
  - intros Hpend.
    destruct (pending_entry_stays st ev m text evs Hreach E Hmax2 Hpend) as [Hls Ht0].
    split_and!; [done|by apply list_elem_of_lookup_1|..].
    + intros message Hc Hr. by apply response_settles.
    + intros k Hk.
      destruct (timeout_rejects st2 k t0 Hk Hpend) as (st3 & H1 & H2 & H3 & _).
      by exists st3.
  - intros s Hs Hne.
    assert (listeners (pretty r) st2 = []) as Hnil.
    { assert (reachable st2) as Hreach2.
      { subst st2 st1. apply reachable_run. by apply reachable_step. }
      pose proof (reachable_inv _ Hreach2 Hmax2) as I2.
      destruct (key_reserved st ev m text evs Hreach Hmax E) as (_ & Honly & _).
      destruct (listeners (pretty r) st2) as [|l ls] eqn:Hl; [done|].
      assert (l ∈ listeners (pretty r) st2) as Hin by (rewrite Hl; by left).
      pose proof Hin as Hin'. subst st2 st1 r. apply Honly in Hin'. subst l.
      destruct (inv_listener _ I2 _ _ Hin) as (_ & Hpend & _).
      fold p in Hpend. congruence. }
    split_and!; [|done|].
    + intros ev'. by apply settled_is_final.
    + intros message Hc Hr. by apply (frame_dropped st2 r).
Qed.

(** C6: an observable call keeps its message; a subscription to the
    observable is fed under the message's identifier; when the subscriber
    unsubscribes from a subscription that has not ended, the client sends
    one [DisposeObservable] frame with that identifier and removes every
    listener under it, so that a frame for the identifier that arrives
    next leaves the state as it is; unsubscribing again does nothing; and
    nothing is delivered to that subscription ever after. *)
Theorem unsubscribe_disposes_once st ev m text evs1 evs2 :
  request_of ev (_rpcRequestId st) = Some (m, RObservable, text) →
  let o := length (observables st) in
  let st1 := run evs1 (state_of (step ev st)) in
  let sub := length (subscriptions st1) in
  let st2 := run evs2 (state_of (step (Subscribe o) st1)) in
  step ev st = Normal (ReturnedObservable o) (state_of (step ev st)) ∧
  step (Subscribe o) st1
    = Normal (ReturnedSubscription sub) (state_of (step (Subscribe o) st1)) ∧
  ∃ s,
    subscriptions st2 !! sub = Some s ∧
    sub_message s = m ∧
    (isStopped s = false →
       let st3 := unsubscribe sub st2 in
       step (Unsubscribe sub) st2 = Normal ReturnedUndefined st3 ∧
       _socket st3 = _socket st2 ++ [DisposeObservable (message_requestId m)] ∧
       listeners (pretty (message_requestId m)) st3 = [] ∧
       (∀ message,
          strict_eq_str (channel message) SERVICE_FRAMEWORK3_CHANNEL = true →
          requestId message = Some (message_requestId m) →
          step (SocketMessage message) st3 = Normal ReturnedUndefined st3) ∧
       step (Unsubscribe sub) st3 = Normal ReturnedUndefined st3 ∧
       ∀ evs3,
         subscriptions (run evs3 st3) !! sub
         = Some {| sub_message := m; isStopped := true; seen := seen s |}).
Proof.
  intros E o st1 sub st2.
  destruct (step_call _ _ _ _ _ E) as [Hid Hstep].
  assert (Hcall : step ev st = Normal (ReturnedObservable o)
                                 (set_observables (λ l, l ++ [m])
                                    (set_rpcRequestId (number_succ (_rpcRequestId st)) st)))
    by (by rewrite Hstep).
  assert (Ho : observables st1 !! o = Some m).
  { subst st1. apply observables_kept_run. rewrite Hcall. simpl.
    by rewrite lookup_app_r, Nat.sub_diag. }
  assert (Hsub : step (Subscribe o) st1 =
                 Normal (ReturnedSubscription sub)
                   (add_listener (pretty (message_requestId m)) (ObserverListener sub)
                      (socket_send m
                         (set_subscriptions
                            (λ l, l ++ [{| sub_message := m; isStopped := false;
                                           seen := [] |}]) st1)))).
  { simpl. unfold subscribe. by rewrite Ho. }
  split_and!; [by rewrite Hcall|by rewrite Hsub|].
  assert (Hs0 : subscriptions (state_of (step (Subscribe o) st1)) !! sub
                = Some {| sub_message := m; isStopped := false; seen := [] |}).
  { rewrite Hsub. simpl. by rewrite lookup_app_r, Nat.sub_diag. }
  destruct (sub_evolves_run evs2 _ _ _ Hs0) as (s & Hs & Hm & _).
  fold st2 in Hs. simpl in Hm.
  exists s. split_and!; [done..|].
  intros Hlive st3.
  assert (Hst3 : st3 = dispose m (stop sub st2)).
  { subst st3. unfold unsubscribe. by rewrite Hs, Hlive, Hm. }
  assert (Hs3 : subscriptions st3 !! sub
                = Some {| sub_message := m; isStopped := true; seen := seen s |}).
  { rewrite Hst3. simpl. by rewrite list_lookup_alter_eq, Hs, <- Hm. }
  assert (Hnil : listeners (pretty (message_requestId m)) st3 = []).
  { rewrite Hst3. apply listeners_removeAll_eq. }
  split_and!; [done|by rewrite Hst3|done|..].
  - intros message Hc Hr. by apply (frame_dropped st3 (message_requestId m)).
  - simpl. unfold unsubscribe at 1. by rewrite Hs3.
  - intros evs3. destruct (sub_evolves_run evs3 _ _ _ Hs3) as (s' & Hs' & _ & Hsame).
    rewrite Hs'. f_equal. by apply Hsame.
Qed.

(** C7 (in the form that holds): timers are armed by promise calls and by nothing
    else, and they are removed when they fire and by nothing else: an
    observable call, a subscription, an unsubscription and an inbound
    frame leave the timers as they are.  In a reachable state, while the
    counter is below 2^53, a one-shot listener in the table has an armed
    timer for its identifier, and a listener of a subscription has none. *)
Theorem timers_belong_to_promise_calls st :
  (∀ ev,
     timers (state_of (step ev st)) =
       match ev with
       | Timeout k => delete k (timers st)
       | _ =>
           match request_of ev (_rpcRequestId st) with
           | Some (m, RPromise, text) =>
               timers st ++ [{| timer_requestId := message_requestId m;
                                timer_promise := length (promises st);
                                timer_message := text |}]
           | _ => timers st
           end
       end) ∧
  (reachable st → _rpcRequestId st < MAX_EXACT →
   ∀ (r : Z) l, l ∈ listeners (pretty r) st →
     match l with
     | PromiseListener p =>
         ∃ text, {| timer_requestId := r; timer_promise := p; timer_message := text |}
                 ∈ timers st
     | ObserverListener _ => ∀ t, t ∈ timers st → timer_requestId t ≠ r
     end).
Proof.
  split; [intros ev; apply timers_after_step|].
  intros Hreach Hmax r l Hl.
  pose proof (reachable_inv _ Hreach Hmax) as I.
  destruct l as [p|q].
  - by destruct (inv_listener _ I _ _ Hl) as (_ & _ & Ht).
  - intros t Ht <-. by specialize (inv_timer_listener _ I _ _ Ht Hl).
Qed.

End Steps.

(** ** The theorems at concrete runs *)

Lemma after_is_reachable evs : reachable rpc_channel example_timeout (after evs).
Proof. by exists evs. Qed.

Lemma request_ids_witness :
  reachable rpc_channel example_timeout (after run_watching) ∧
  _rpcRequestId (after run_watching) < MAX_EXACT ∧
  _rpcRequestId (after run_watching) = 2 ∧
  _rpcRequestId (state_of (step rpc_channel example_timeout call_add (after run_watching)))
    = 2 + 1 ∧
  _socket (state_of (step rpc_channel example_timeout call_add (after run_watching)))
    = _socket (after run_watching) ++ [FunctionCall "add" 2 [JNum 2; JNum 3]].
Proof.
  assert (_rpcRequestId (after run_watching) < MAX_EXACT) as Hmax by (by vm_compute).
  split; [apply after_is_reachable|]. split; [exact Hmax|].
  destruct (request_ids_count_up rpc_channel example_timeout (after run_watching)
              call_add (FunctionCall "add" 2 [JNum 2; JNum 3]) RPromise
              "Calling function add" (after_is_reachable _) Hmax eq_refl)
    as (_ & _ & Hid & Hnext & _ & _ & [Hsent _] & _).
  split; [by rewrite <- Hid|]. split; [exact Hnext|exact Hsent].
Defined.

(** The frame of an observable call goes out when the observable is
    subscribed: here after the frame of a later call, with a smaller
    identifier. *)
Lemma subscription_sends_older_id :
  message_requestId <$> _socket (after run_out_of_order) = [2; 1].
Proof. vm_compute. reflexivity. Qed.

Lemma promise_witness :
  reachable rpc_channel example_timeout (after []) ∧
  _rpcRequestId (after [call_add]) < MAX_EXACT ∧
  promises (after [call_add]) !! 0%nat = Some Pending ∧
  (∃ st3,
     step rpc_channel example_timeout (SocketMessage (reply 1 (JNum 5))) (after [call_add])
       = Normal ReturnedUndefined st3 ∧
     promises st3 !! 0%nat = Some (Resolved (JNum 5)) ∧
     listeners (pretty 1) st3 = []) ∧
  (∃ st3,
     step rpc_channel example_timeout (Timeout 0) (after [call_add])
       = Normal ReturnedUndefined st3 ∧
     promises st3 !! 0%nat
       = Some (Rejected
                 (JStr "Timeout after 30000 for requestId: 1, Calling function add.")) ∧
     listeners (pretty 1) st3 = []).
Proof.
  assert (_rpcRequestId (after [call_add]) < MAX_EXACT) as Hmax by (by vm_compute).
  assert (promises (after [call_add]) !! 0%nat = Some Pending) as Hpend by (by vm_compute).
  split; [apply after_is_reachable|]. split; [exact Hmax|]. split; [exact Hpend|].
  destruct (promise_settles_once rpc_channel example_timeout (after []) call_add
              (FunctionCall "add" 1 [JNum 2; JNum 3]) "Calling function add" []
              (after_is_reachable _) eq_refl Hmax)
    as (_ & _ & _ & Hlive & _).
  destruct (Hlive Hpend) as (_ & _ & Hanswer & Htimer).
  split.
  - destruct (Hanswer (reply 1 (JNum 5)) eq_refl eq_refl) as (st3 & H1 & H2 & H3 & _).
    exists st3. split; [exact H1|]. split; [exact H2|exact H3].
  - destruct (Htimer 0%nat eq_refl) as (st3 & H1 & H2 & H3).
    exists st3. split; [exact H1|]. split; [exact H2|exact H3].
Defined.

(** A second reply to an answered request changes nothing; in particular
    it writes nothing to the log. *)
Lemma late_reply_is_not_logged :
  step rpc_channel example_timeout (SocketMessage (reply 1 (JNum 5))) (after run_answered)
    = Normal ReturnedUndefined (after run_answered) ∧
  log (after run_answered) = [].
Proof. split; vm_compute; reflexivity. Qed.

Lemma unsubscribe_witness :
  ∃ s,
    subscriptions (after (run_watching ++ [SocketMessage (reply 1 (next (JStr "a")))]))
      !! 0%nat = Some s ∧
    sub_message s = FunctionCall "watch" 1 [] ∧
    seen s = [OnNext (JStr "a")] ∧
    _socket (unsubscribe 0
               (after (run_watching ++ [SocketMessage (reply 1 (next (JStr "a")))])))
      = [FunctionCall "watch" 1 []; DisposeObservable 1] ∧
    ∀ evs3,
      subscriptions
        (run rpc_channel example_timeout evs3
           (unsubscribe 0
              (after (run_watching ++ [SocketMessage (reply 1 (next (JStr "a")))]))))
        !! 0%nat
      = Some {| sub_message := FunctionCall "watch" 1 []; isStopped := true;
                seen := [OnNext (JStr "a")] |}.
Proof.
  destruct (unsubscribe_disposes_once rpc_channel example_timeout (after []) call_watch
              (FunctionCall "watch" 1 []) "Calling function watch" []
              [SocketMessage (reply 1 (next (JStr "a")))] eq_refl)
    as (_ & _ & s & Hs & Hm & Hlater).
  assert (s = {| sub_message := FunctionCall "watch" 1 []; isStopped := false;
                 seen := [OnNext (JStr "a")] |}) as ->.
  { vm_compute in Hs. by injection Hs as <-. }
  destruct (Hlater eq_refl) as (_ & Hsent & _ & _ & _ & Hkept).
  eexists. split; [by vm_compute|]. split; [reflexivity|]. split; [reflexivity|].
  split; [by vm_compute|]. exact Hkept.
Defined.

Lemma timer_witness :
  reachable rpc_channel example_timeout (after [call_add]) ∧
  _rpcRequestId (after [call_add]) < MAX_EXACT ∧
  PromiseListener 0 ∈ listeners (pretty 1) (after [call_add]) ∧
  ∃ text,
    {| timer_requestId := 1; timer_promise := 0; timer_message := text |}
    ∈ timers (after [call_add]).
Proof.
  assert (_rpcRequestId (after [call_add]) < MAX_EXACT) as Hmax by (by vm_compute).
  assert (PromiseListener 0 ∈ listeners (pretty 1) (after [call_add])) as Hin.
  { vm_compute. by left. }
  split; [apply after_is_reachable|]. split; [exact Hmax|]. split; [exact Hin|].
  exact (proj2 (timers_belong_to_promise_calls rpc_channel example_timeout
                  (after [call_add]))
           (after_is_reachable _) Hmax 1 (PromiseListener 0) Hin).
Defined.

(** The listener of a subscription is in the table and no timer is
    armed. *)
Lemma subscription_has_no_timer :
  listeners (pretty 1) (after run_watching) = [ObserverListener 0] ∧
  timers (after run_watching) = [].
Proof. split; vm_compute; reflexivity. Qed.

End ClientTheory.

(** * The checks on inbound frames *)

Module FrameChecks.

(** C5 (in the form that holds): the server checks the [protocol] field and the client
    checks the [channel] field, each with an assertion.  A frame that
    fails the check makes the assertion raise: no handler is called and
    the state, log included, is as before.  The server does not look at
    [channel] and the client does not look at [protocol]: a frame that
    passes the one check is dispatched. *)
Theorem frames_failing_the_check_raise (SERVICE_FRAMEWORK3_CHANNEL : string) :
  (∀ st c m p,
     js_member m "protocol" = Some p →
     truthy p && strict_eq_str p SERVICE_FRAMEWORK3_CHANNEL = false →
     Server._onSocketMessage SERVICE_FRAMEWORK3_CHANNEL c (Some m) st
       = Server.Thrown AssertionError st) ∧
  (∀ st c m,
     SERVICE_FRAMEWORK3_CHANNEL ≠ ""%string →
     js_member m "protocol" = Some (JStr SERVICE_FRAMEWORK3_CHANNEL) →
     Server._onSocketMessage SERVICE_FRAMEWORK3_CHANNEL c (Some m) st
       = Server.Normal (Server.add_handled c m st)) ∧
  (∀ st message,
     strict_eq_str (Client.channel message) SERVICE_FRAMEWORK3_CHANNEL = false →
     Client._handleSocketMessage SERVICE_FRAMEWORK3_CHANNEL message st
       = Client.Thrown AssertionError st) ∧
  (∀ st message r,
     Client.channel message = JStr SERVICE_FRAMEWORK3_CHANNEL →
     Client.requestId message = Some r →
     Client._handleSocketMessage SERVICE_FRAMEWORK3_CHANNEL message st
       = Client.emit (pretty r) (Client.hadError message) (Client.error message)
           (Client.result message) st).
Proof.
  split_and!.
  - intros st c m p Hp Hcheck. unfold Server._onSocketMessage. by rewrite Hp, Hcheck.
  - intros st c m Hne Hp. unfold Server._onSocketMessage. rewrite Hp. simpl.
    by rewrite bool_decide_eq_false_2, bool_decide_eq_true_2.
  - intros st message Hc. unfold Client._handleSocketMessage. by rewrite Hc.
  - intros st message r Hc Hr. unfold Client._handleSocketMessage. rewrite Hc, Hr. simpl.
    by rewrite bool_decide_eq_true_2.
Qed.

Lemma frame_check_witness :
  js_member Server.frame_without_protocol "protocol" = Some JUndefined ∧
  Server._onSocketMessage rpc_channel "c1" (Some Server.frame_without_protocol)
    (Server.after Server.run_attached)
    = Server.Thrown AssertionError (Server.after Server.run_attached) ∧
  Client._handleSocketMessage rpc_channel
    {| Client.protocol := JStr rpc_channel; Client.channel := JUndefined;
       Client.requestId := Some 1; Client.hadError := false;
       Client.error := JUndefined; Client.result := JNum 5 |}
    (Client.after [Client.call_add])
    = Client.Thrown AssertionError (Client.after [Client.call_add]).
Proof.
  destruct (frames_failing_the_check_raise rpc_channel) as (H1 & _ & H3 & _).
  split; [reflexivity|]. split.
  - apply (H1 _ _ _ JUndefined); reflexivity.
  - apply H3. reflexivity.
Defined.

(** A frame without the protocol tag makes the server raise; a frame
    without a channel is handed to the server component. *)
Lemma frame_without_protocol_raises :
  Server.step rpc_channel
    (Server.Message 0 Server.frame_without_protocol_text
       (Some Server.frame_without_protocol))
    (Server.after Server.run_attached)
  = Server.Thrown AssertionError (Server.after Server.run_attached) ∧
  Server.log (Server.after Server.run_attached)
  = [{| level := Debug; text := "WebSocket connecting"; params := [] |};
     {| level := Info; text := "Client #%s connecting with a new socket!";
        params := ["c1"%string] |}] ∧
  Server.step rpc_channel
    (Server.Message 0 Server.frame_without_channel_text
       (Some Server.frame_without_channel))
    (Server.after Server.run_attached)
  = Server.Normal
      (Server.add_handled "c1" Server.frame_without_channel
         (Server.after Server.run_attached)).
Proof. split_and!; vm_compute; reflexivity. Qed.

End FrameChecks.

(** * More properties of the server's sessions *)

Module ServerExtra.
Import Server ServerInvariants ServerTheory.

Lemma fresh_messages_refs r ds : ref <$> fresh_messages r ds = seq r (length ds).
Proof.
  revert r. induction ds as [|d ds IH]; intros r; [done|].
  rewrite fresh_messages_cons. simpl. by rewrite IH.
Qed.

Lemma remove_message_nodup r q :
  NoDup (ref <$> q) → NoDup (ref <$> remove_message r q).
Proof.
  induction q as [|m q IH]; simpl; [done|].
  rewrite NoDup_cons. intros [Hm Hq]. case_bool_decide; [done|].
  simpl. apply NoDup_cons. split; [|auto].
  intros (m' & Hr & Hm')%list_elem_of_fmap. apply Hm.
  apply list_elem_of_fmap. exists m'. split; [done|]. by eapply remove_message_subset.
Qed.

Lemma remove_message_at r pre m post :
  ref m = r → NoDup (ref <$> (pre ++ m :: post)) →
  remove_message r (pre ++ m :: post) = pre ++ post.
Proof.
  intros Hr Hnd. rewrite remove_message_skip.
  - simpl. by rewrite bool_decide_eq_true_2.
  - rewrite fmap_app in Hnd. apply NoDup_app in Hnd as (_ & Hd & _).
    intros Hin. apply (Hd _ Hin). subst r. simpl. by left.
Qed.

Lemma strict_eq_str_true v s : strict_eq_str v s = true → v = JStr s.
Proof. destruct v; simpl; try done. by intros ->%bool_decide_eq_true. Qed.

Lemma wf_sessions_constructor : wf_sessions constructor.
Proof.
  split; simpl.
  - intros c cl H. by rewrite lookup_empty in H.
  - intros c cl H. by rewrite lookup_empty in H.
  - intros s w c H. by rewrite lookup_nil in H.
Qed.

Section Steps.

Variable SERVICE_FRAMEWORK3_CHANNEL : string.

Local Abbreviation step := (step SERVICE_FRAMEWORK3_CHANNEL).
Local Abbreviation run := (run SERVICE_FRAMEWORK3_CHANNEL).
Local Abbreviation reachable := (reachable SERVICE_FRAMEWORK3_CHANNEL).
Local Abbreviation step_keeps_session :=
  (step_keeps_session SERVICE_FRAMEWORK3_CHANNEL).
Local Abbreviation run_keeps_session :=
  (run_keeps_session SERVICE_FRAMEWORK3_CHANNEL).


Lemma wf_sessions_step ev st st' :
  wf st → wf_sessions st → step ev st = Normal st' → wf_sessions st'.
Proof.
  intros [W1 B W2 W3] [I N G] Hstep.
  assert (Hg : ∀ s w c, sockets st !! s = Some w → client w = Some c →
                        is_Some (_clients st' !! c)).
  { intros s w c Hs Hc. destruct (G _ _ _ Hs Hc) as [cl E].
    destruct (step_keeps_session _ _ _ _ _ Hstep E) as (cl' & E' & _). by exists cl'. }
  destruct ev as [|s text parsed|s|s m|c' d|k err]; simpl in Hstep.
  - injection Hstep as <-. split; simpl; [done..|].
    intros s w c Hs Hc. apply lookup_app_Some in Hs as [Hs|[_ Hs]]; [by eapply G|].
    apply list_lookup_singleton_Some in Hs as [_ <-]. done.
  - destruct (sockets st !! s) as [w|] eqn:Hs; [|by injection Hstep as <-].
    destruct (client w) as [c0|] eqn:Hc.
    + apply on_socket_message_normal in Hstep as (m & _ & ->). by split.
    + apply first_message_normal in Hstep as [_ ->].
      destruct (first_message_spec s text st w Hs)
        as (H1 & H2 & _ & _ & _ & _ & _ & _ & _).
      split.
      * intros c cl E. destruct (decide (text = c)) as [->|Hne].
        -- rewrite H1 in E. injection E as <-. simpl. unfold session_or_new.
           destruct (_clients st !! c) as [cl0|] eqn:E0; simpl; [by eapply I|done].
        -- rewrite H2 in E by done. by eapply I.
      * intros c cl E. destruct (decide (text = c)) as [->|Hne].
        -- rewrite H1 in E. injection E as <-. simpl.
           rewrite fresh_messages_refs. apply NoDup_seq.
        -- rewrite H2 in E by done. by eapply N.
      * intros s' w' c Hs' Hc'.
        rewrite first_message_unfold in Hs'.
        match type of Hs' with
        | sockets (send_all ?c0 ?ds ?st0) !! _ = _ =>
            destruct (send_all_spec c0 ds st0 _ (lookup_insert_eq _ _ _))
              as (_ & _ & _ & _ & _ & _ & _ & Hcl & _)
        end.
        specialize (Hcl s'). rewrite Hs' in Hcl. simpl in Hcl. rewrite Hc' in Hcl.
        assert (alter (ws_bind text) s (sockets st) !! s' ≫= client = Some c) as Hb.
        { rewrite Hcl. destruct (socket (session_or_new text st)); [|done].
          symmetry. by apply client_alter. }
        destruct (decide (s = s')) as [<-|Hss].
        -- rewrite list_lookup_alter_eq, Hs in Hb. simpl in Hb. injection Hb as <-.
           by rewrite H1.
        -- rewrite list_lookup_alter_ne in Hb by done.
           destruct (sockets st !! s') as [w0|] eqn:Hs0; [|done]. simpl in Hb.
           by eapply Hg.
  - injection Hstep as <-. unfold on_close in *.
    destruct (sockets st !! s ≫= client) as [c0|]; [|by split].
    assert (wf_sessions (if bool_decide (socket_of c0 st = Some s)
                         then set_clients (alter (with_socket None) c0) st else st))
      as [I' N' G'].
    { case_bool_decide; [|by split]. split; simpl.
      - intros c cl E. rewrite lookup_alter in E. case_decide; [subst|by eapply I].
        destruct (_clients st !! c) as [cl0|] eqn:E0; [|done]. injection E as <-.
        simpl. by eapply I.
      - intros c cl E. rewrite lookup_alter in E. case_decide; [subst|by eapply N].
        destruct (_clients st !! c) as [cl0|] eqn:E0; [|done]. injection E as <-.
        simpl. by eapply N.
      - intros s' w' c Hs' Hc'. destruct (G _ _ _ Hs' Hc') as [cl E].
        rewrite lookup_alter. case_decide; [subst; by rewrite E|by exists cl]. }
    by split.
  - injection Hstep as <-. by split.
  - injection Hstep as <-. destruct (_clients st !! c') as [cl0|] eqn:E0;
      [|rewrite send_absent by done; by split].
    rewrite (send_unfold _ _ _ _ E0) in *. split; simpl.
    + intros c cl E. destruct (decide (c' = c)) as [->|Hne].
      * rewrite lookup_insert_eq in E. injection E as <-. simpl. by eapply I.
      * rewrite lookup_insert_ne in E by done. by eapply I.
    + intros c cl E. destruct (decide (c' = c)) as [->|Hne].
      * rewrite lookup_insert_eq in E. injection E as <-. simpl.
        rewrite fmap_app. apply NoDup_app. split_and!.
        -- by eapply N.
        -- intros r (m & -> & Hm)%list_elem_of_fmap. simpl.
           intros Heq%list_elem_of_singleton. specialize (W2 _ _ _ E0 Hm). lia.
        -- apply NoDup_singleton.
      * rewrite lookup_insert_ne in E by done. by eapply N.
    + intros s w c Hs Hc. simpl in Hg. destruct (socket cl0) as [s0|].
      * destruct (decide (s0 = s)) as [->|Hss].
        -- rewrite list_lookup_alter_eq in Hs.
           destruct (sockets st !! s) as [w0|] eqn:Hs0; [|done]. injection Hs as <-.
           by eapply Hg.
        -- rewrite list_lookup_alter_ne in Hs by done. by eapply Hg.
      * by eapply Hg.
  - destruct (callbacks st !! k) as [cb|]; [|by injection Hstep as <-].
    injection Hstep as <-. unfold send_callback in *. destruct err; [by split|].
    split; simpl.
    + intros c cl E. rewrite lookup_alter in E. case_decide; [subst|by eapply I].
      destruct (_clients st !! cb_client cb) as [cl0|] eqn:E0; [|done].
      injection E as <-. simpl. by eapply I.
    + intros c cl E. rewrite lookup_alter in E. case_decide; [subst|by eapply N].
      destruct (_clients st !! cb_client cb) as [cl0|] eqn:E0; [|done].
      injection E as <-. simpl. apply remove_message_nodup. by eapply N.
    + exact Hg.
Qed.

Lemma reachable_wf_sessions st : reachable st → wf_sessions st.
Proof.
  intros [evs H].
  assert (∀ st0, wf st0 → wf_sessions st0 → run evs st0 = Some st → wf_sessions st)
    as Hgen.
  { clear H. induction evs as [|ev evs IH]; intros st0 W S; simpl.
    - by intros [= <-].
    - destruct (step ev st0) as [st1|] eqn:E; [|done].
      apply IH; [by eapply wf_step|by eapply wf_sessions_step]. }
  eapply Hgen; [apply wf_constructor|apply wf_sessions_constructor|done].
Qed.

Lemma reachable_extends st evs st' :
  reachable st → run evs st = Some st' → reachable st'.
Proof.
  intros [evs0 H0] H. exists (evs0 ++ evs).
  revert H0. generalize constructor. induction evs0 as [|ev evs0 IH]; intros st0; simpl.
  - by intros [= ->].
  - destruct (step ev st0); [apply IH|done].
Qed.


(** Every frame handed to the service framework passed the check of
    [_onSocketMessage], and its session is in the table. *)
Lemma handled_step ev st st' :
  wf_sessions st → step ev st = Normal st' →
  (∀ c m, (c, m) ∈ handled st →
     js_member m "protocol" = Some (JStr SERVICE_FRAMEWORK3_CHANNEL) ∧
     SERVICE_FRAMEWORK3_CHANNEL ≠ "" ∧ is_Some (_clients st !! c)) →
  ∀ c m, (c, m) ∈ handled st' →
     js_member m "protocol" = Some (JStr SERVICE_FRAMEWORK3_CHANNEL) ∧
     SERVICE_FRAMEWORK3_CHANNEL ≠ "" ∧ is_Some (_clients st' !! c).
Proof.
  intros [I N G] Hstep Hold c m Hin.
  assert (∀ c m, (c, m) ∈ handled st →
     js_member m "protocol" = Some (JStr SERVICE_FRAMEWORK3_CHANNEL) ∧
     SERVICE_FRAMEWORK3_CHANNEL ≠ "" ∧ is_Some (_clients st' !! c)) as Hold'.
  { intros c0 m0 H0. destruct (Hold _ _ H0) as (H1 & H2 & [cl E]).
    split_and!; [done..|].
    destruct (step_keeps_session _ _ _ _ _ Hstep E) as (cl' & E' & _). by exists cl'. }
  assert (handled st' = handled st → js_member m "protocol"
            = Some (JStr SERVICE_FRAMEWORK3_CHANNEL) ∧
          SERVICE_FRAMEWORK3_CHANNEL ≠ "" ∧ is_Some (_clients st' !! c)) as Hsame.
  { intros Heq. rewrite Heq in Hin. by apply Hold'. }
  destruct ev as [|s text parsed|s|s msg|c' d|k err]; simpl in Hstep.
  - injection Hstep as <-. by apply Hsame.
  - destruct (sockets st !! s) as [w|] eqn:Hs; [|injection Hstep as <-; by apply Hsame].
    destruct (client w) as [c0|] eqn:Hc.
    + unfold _onSocketMessage in Hstep. destruct parsed as [m0|]; [|done].
      destruct (js_member m0 "protocol") as [p|] eqn:Hp; [|done].
      destruct (truthy p && strict_eq_str p SERVICE_FRAMEWORK3_CHANNEL) eqn:Hchk; [|done].
      injection Hstep as <-. simpl in *.
      apply elem_of_app in Hin as [Hin|Hin]; [by apply Hold|].
      apply list_elem_of_singleton in Hin. injection Hin as -> ->.
      apply andb_true_iff in Hchk as [Ht Heq]. apply strict_eq_str_true in Heq as ->.
      split_and!; [done| |by eapply G].
      intros Hempty. rewrite Hempty in Ht. done.
    + apply first_message_normal in Hstep as [_ ->]. apply Hsame.
      by destruct (first_message_spec s text st w Hs) as (_ & _ & _ & H & _).
  - injection Hstep as <-. apply Hsame. unfold on_close.
    destruct (sockets st !! s ≫= client); [|done]. by case_bool_decide.
  - injection Hstep as <-. by apply Hsame.
  - injection Hstep as <-. apply Hsame.
    destruct (_clients st !! c') as [cl0|] eqn:E0; [|by rewrite send_absent].
    by rewrite (send_unfold _ _ _ _ E0).
  - destruct (callbacks st !! k) as [cb|]; [|injection Hstep as <-; by apply Hsame].
    injection Hstep as <-. apply Hsame. unfold send_callback. by destruct err.
Qed.

(** X1: a session, once in the table, stays there through whatever
    happens to the server later: it is found under its id, with the id
    and the subscriptions it had. *)
Theorem sessions_are_never_removed st evs st' c cl :
  reachable st → _clients st !! c = Some cl → run evs st = Some st' →
  ∃ cl', _clients st' !! c = Some cl' ∧ id cl' = c ∧
         subscriptions cl' = subscriptions cl.
Proof.
  intros Hreach E Hrun.
  destruct (run_keeps_session _ _ _ _ _ Hrun E) as (cl' & E' & Hid & Hsub).
  exists cl'. split_and!; [done| |done].
  rewrite Hid. by eapply (wf_id _ (reachable_wf_sessions _ Hreach)).
Qed.

(** X2: a socket is attached to at most one session, and it is the
    session of the client id the socket greeted with. *)
Theorem socket_serves_one_session st c c' s :
  reachable st → socket_of c st = Some s → socket_of c' st = Some s →
  c = c' ∧ ∃ w, sockets st !! s = Some w ∧ client w = Some c.
Proof.
  intros Hreach H1 H2. pose proof (reachable_wf _ _ Hreach) as [_ B _ _].
  unfold socket_of in *.
  destruct (_clients st !! c) as [cl|] eqn:E; [|done].
  destruct (_clients st !! c') as [cl'|] eqn:E'; [|done]. simpl in *.
  pose proof (B _ _ _ E H1) as B1. pose proof (B _ _ _ E' H2) as B2.
  destruct (sockets st !! s) as [w|]; [|done]. simpl in *.
  split; [congruence|]. by exists w.
Qed.

(** X3: the report of a successful send takes its own wrapper out of the
    queue, wherever the wrapper stands and whatever data the wrappers
    around it hold; the other wrappers keep their order, and the queues
    of the other sessions, the sockets and the log are as before. *)
Theorem success_report_removes_its_wrapper st k cb pre post :
  reachable st → callbacks st !! k = Some cb →
  queue_of (cb_client cb) st = pre ++ cb_message cb :: post →
  ∃ st', step (SendDone k false) st = Normal st' ∧
    queue_of (cb_client cb) st' = pre ++ post ∧
    (∀ c', c' ≠ cb_client cb → queue_of c' st' = queue_of c' st) ∧
    sockets st' = sockets st ∧ log st' = log st.
Proof.
  intros Hreach Hk Hq. pose proof (reachable_wf_sessions _ Hreach) as [_ N _].
  simpl. rewrite Hk. eexists. split; [reflexivity|].
  unfold queue_of in *. simpl. split_and!; [| |done..].
  - rewrite lookup_alter_eq.
    destruct (_clients st !! cb_client cb) as [cl|] eqn:E; simpl in *.
    + rewrite Hq. apply remove_message_at; [done|]. rewrite <- Hq. by eapply N.
    + by destruct pre.
  - intros c' Hne. by rewrite lookup_alter_ne.
Qed.

(** C4 (as the code has it): frames passed to [_sendSocketMessage] while
    the session has no socket are all queued, in call order, and nothing is
    transmitted; they stay in the queue, in that order, through every run
    of events in which no socket attaches to the session; the socket that
    attaches next is handed the whole queue in queue order, and frames sent
    afterwards follow in call order; whenever a socket is attached, frames
    are handed to it in the order of the calls.  The queue itself does not
    drain in insertion order: a wrapper leaves the queue when the report of
    its own send is a success, wherever it stands, the wrappers before it
    and after it staying; a failure report removes nothing; until a success
    report for one of them or a new socket arrives, wrappers stay in the
    queue, contiguous and in order; and a socket that attaches is handed
    again all that is still queued. *)
Theorem queue_hands_over_in_order_and_drains_by_report st c cl ds evs st2 :
  reachable st →
  _clients st !! c = Some cl → socket cl = None →
  run_avoiding SERVICE_FRAMEWORK3_CHANNEL (attaches c) (send_all c ds st) evs st2 →
  data <$> queue_of c (send_all c ds st) = (data <$> messageQueue cl) ++ ds ∧
  (∀ s w, sockets st !! s = Some w → outbox_of s (send_all c ds st) = outbox w) ∧
  (∃ pre post,
    data <$> queue_of c st2 = pre ++ ds ++ post ∧
    ∀ s w parsed es, sockets st2 !! s = Some w → client w = None →
      ∃ st3, step (Message s c parsed) st2 = Normal st3 ∧
        outbox_of s st3 = outbox w ++ pre ++ ds ++ post ∧
        outbox_of s (send_all c es st3) = outbox w ++ pre ++ ds ++ post ++ es ∧
        data <$> queue_of c (send_all c es st3) = pre ++ ds ++ post ++ es) ∧
  (∀ st' s w es, socket_of c st' = Some s → sockets st' !! s = Some w →
     outbox_of s (send_all c es st') = outbox w ++ es) ∧
  (∀ st' k cb pre post,
     reachable st' → callbacks st' !! k = Some cb →
     queue_of (cb_client cb) st' = pre ++ cb_message cb :: post →
     (∃ st'', step (SendDone k false) st' = Normal st'' ∧
        queue_of (cb_client cb) st'' = pre ++ post) ∧
     (∃ st'', step (SendDone k true) st' = Normal st'' ∧
        queue_of (cb_client cb) st'' = pre ++ cb_message cb :: post)) ∧
  (∀ st' c' mid evs' st'',
     queued c' mid st' →
     run_avoiding SERVICE_FRAMEWORK3_CHANNEL
       (λ ev st, attaches c' ev st ∨ acks c' mid ev st) st' evs' st'' →
     queued c' mid st'') ∧
  (∀ st' c' s w parsed,
     is_Some (_clients st' !! c') → sockets st' !! s = Some w → client w = None →
     ∃ st'', step (Message s c' parsed) st' = Normal st'' ∧
       outbox_of s st'' = outbox w ++ (data <$> queue_of c' st') ∧
       data <$> queue_of c' st'' = data <$> queue_of c' st').
Proof.
  intros Hreach E Hnone Hrun.
  destruct (queue_is_handed_over_in_order SERVICE_FRAMEWORK3_CHANNEL
              st c cl ds evs st2 Hreach E Hnone Hrun) as (H1 & H2 & H3 & H4).
  split_and!; [exact H1|exact H2|exact H3|exact H4| | |].
  - intros st' k cb pre post Hreach' Hk Hq.
    pose proof (reachable_wf_sessions _ Hreach') as [_ N _].
    simpl. rewrite Hk. split; (eexists; split; [reflexivity|]); [|done].
    unfold queue_of in *. simpl. rewrite lookup_alter_eq.
    destruct (_clients st' !! cb_client cb) as [cl'|] eqn:E'; simpl in *.
    + rewrite Hq. apply remove_message_at; [done|]. rewrite <- Hq. by eapply N.
    + by destruct pre.
  - intros st' c' mid evs' st'' Hq Hrun'. by eapply queued_run.
  - intros st' c' s w parsed Hsome Hs Hc.
    destruct (attach_flushes SERVICE_FRAMEWORK3_CHANNEL st' s w c' parsed Hs Hc
                (inherits_session _ _ Hsome)) as (st'' & Hstep & _ & Hout & Hdata).
    by exists st''.
Qed.

Lemma fresh_messages_lookup r ds i d :
  ds !! i = Some d → fresh_messages r ds !! i = Some {| ref := (r + i)%nat; data := d |}.
Proof. intros H. unfold fresh_messages. by rewrite list_lookup_imap, H. Qed.

Lemma queue_session c st : queue_of c st ≠ [] → is_Some (_clients st !! c).
Proof. unfold queue_of. by destruct (_clients st !! c). Qed.

(** X4: a frame that is queued and whose send is still unreported when
    its client comes back on a new socket is sent again on that socket,
    in its place among the queued frames and in a new wrapper with a
    pending report of its own; the late report of the first send then
    removes nothing, and the new wrapper stays queued, its report
    pending. *)
Theorem late_report_of_resent_frame_removes_nothing st k cb s w parsed pre post :
  reachable st → callbacks st !! k = Some cb →
  queue_of (cb_client cb) st = pre ++ cb_message cb :: post →
  sockets st !! s = Some w → client w = None →
  ∃ st2 st3 m',
    step (Message s (cb_client cb) parsed) st = Normal st2 ∧
    outbox_of s st2
      = outbox w ++ (data <$> pre) ++ data (cb_message cb) :: (data <$> post) ∧
    queue_of (cb_client cb) st2 !! length pre = Some m' ∧
    data m' = data (cb_message cb) ∧ ref m' ≠ ref (cb_message cb) ∧
    length (queue_of (cb_client cb) st2) = length (queue_of (cb_client cb) st) ∧
    callbacks st2 !! k = Some cb ∧
    step (SendDone k false) st2 = Normal st3 ∧
    queue_of (cb_client cb) st3 = queue_of (cb_client cb) st2 ∧
    mk_callback (cb_client cb) m' ∈ callbacks st3.
Proof.
  intros Hreach Hk Hq Hs Hc. pose proof (reachable_wf _ _ Hreach) as [_ _ _ W3].
  assert (ref (cb_message cb) < next_ref st)%nat as Hold.
  { apply W3. by eapply list_elem_of_lookup_2. }
  assert (inherits (cb_client cb) st = false) as Hi.
  { apply inherits_session, queue_session. rewrite Hq. by destruct pre. }
  destruct (first_message_spec s (cb_client cb) st w Hs)
    as (H1 & _ & _ & _ & _ & Hout & _ & _ & Hcb).
  rewrite session_or_new_queue in *.
  set (m' := {| ref := (next_ref st + length pre)%nat; data := data (cb_message cb) |}).
  assert (fresh_messages (next_ref st) (data <$> queue_of (cb_client cb) st)
            !! length pre = Some m') as Hm'.
  { apply fresh_messages_lookup. rewrite Hq, fmap_app, fmap_cons.
    by rewrite lookup_app_r, length_fmap, Nat.sub_diag by by rewrite length_fmap. }
  assert (queue_of (cb_client cb) (attach_session s (cb_client cb) st)
          = fresh_messages (next_ref st) (data <$> queue_of (cb_client cb) st)) as Hq2.
  { unfold queue_of at 1. by rewrite H1. }
  exists (attach_session s (cb_client cb) st). eexists. exists m'.
  simpl. rewrite Hs, Hc, (first_message_attaches _ _ _ Hi).
  rewrite Hcb, lookup_app_l, Hk by by eapply lookup_lt_Some.
  split_and!; [done| |by rewrite Hq2|done|simpl; lia| |done|reflexivity| |].
  - by rewrite Hout, Hq, fmap_app, fmap_cons.
  - rewrite Hq2. unfold fresh_messages. by rewrite length_imap, length_fmap.
  - unfold queue_of. simpl. rewrite lookup_alter_eq, H1. simpl.
    apply remove_message_fresh. rewrite fresh_messages_refs.
    intros [Hlt _]%elem_of_seq. lia.
  - unfold send_callback. simpl.
    apply (ClientTheory.elem_of_delete_other _ _ _ cb).
    + rewrite Hcb. apply elem_of_app. right. apply list_elem_of_fmap. exists m'.
      split; [done|]. by eapply list_elem_of_lookup_2.
    + rewrite Hcb, lookup_app_l by by eapply lookup_lt_Some. done.
    + intros Heq. apply (f_equal (λ x, ref (cb_message x))) in Heq.
      simpl in Heq. lia.
Qed.

Lemma attach_session_clients s c st s' :
  sockets (attach_session s c st) !! s' ≫= client
  = alter (ws_bind c) s (sockets st) !! s' ≫= client.
Proof.
  rewrite first_message_unfold.
  match goal with
  | |- sockets (send_all ?c0 ?ds ?st0) !! _ ≫= _ = _ =>
      destruct (send_all_spec c0 ds st0 _ (lookup_insert_eq _ _ _))
        as (_ & _ & _ & _ & _ & _ & _ & Hcl & _)
  end.
  rewrite Hcl. simpl. destruct (socket (session_or_new c st)); [|done].
  by apply client_alter.
Qed.

(** A socket that has greeted keeps the name it greeted with. *)
Lemma step_keeps_greeting ev st st' s w c :
  step ev st = Normal st' → sockets st !! s = Some w → client w = Some c →
  ∃ w', sockets st' !! s = Some w' ∧ client w' = Some c.
Proof.
  intros Hstep Hs Hc.
  assert (sockets st' !! s ≫= client = Some c →
          ∃ w', sockets st' !! s = Some w' ∧ client w' = Some c) as Hex.
  { destruct (sockets st' !! s) as [w'|]; [|done]. simpl. intros H. by exists w'. }
  destruct ev as [|s0 text parsed|s0|s0 m|c' d|k err]; simpl in Hstep.
  - injection Hstep as <-. exists w. split; [|done]. simpl. by apply lookup_app_l_Some.
  - destruct (sockets st !! s0) as [w0|] eqn:Hs0; [|injection Hstep as <-; by exists w].
    destruct (client w0) as [c0|] eqn:Hc0.
    + apply on_socket_message_normal in Hstep as (m & _ & ->). by exists w.
    + apply first_message_normal in Hstep as [_ ->]. apply Hex.
      rewrite attach_session_clients, list_lookup_alter_ne, Hs; [done|].
      intros ->. congruence.
  - injection Hstep as <-. unfold on_close.
    destruct (sockets st !! s0 ≫= client); [|by exists w].
    case_bool_decide; by exists w.
  - injection Hstep as <-. by exists w.
  - injection Hstep as <-. destruct (_clients st !! c') as [cl0|] eqn:E0;
      [|rewrite send_absent by done; by exists w].
    apply Hex. rewrite (send_unfold _ _ _ _ E0). simpl.
    destruct (socket cl0) as [s1|]; [|by rewrite Hs].
    rewrite client_alter by done. by rewrite Hs.
  - destruct (callbacks st !! k) as [cb|]; [|injection Hstep as <-; by exists w].
    injection Hstep as <-. unfold send_callback. destruct err; by exists w.
Qed.

Lemma wf_names_constructor : wf_names constructor.
Proof. split; intros c [cl H]; simpl in H; by rewrite lookup_empty in H. Qed.

Lemma wf_names_step ev st st' : wf_names st → step ev st = Normal st' → wf_names st'.
Proof.
  intros [P C] Hstep.
  assert (∀ c, is_Some (_clients st !! c) →
            ∃ s w, sockets st' !! s = Some w ∧ client w = Some c) as Hold.
  { intros c Hc. destruct (C c Hc) as (s & w & Hs & Hw).
    destruct (step_keeps_greeting _ _ _ _ _ _ Hstep Hs Hw) as (w' & ? & ?).
    by exists s, w'. }
  assert ((∀ c, is_Some (_clients st' !! c) → is_Some (_clients st !! c)) →
          wf_names st') as Hsame.
  { intros H. split; intros c Hc; [by apply P, H|by apply Hold, H]. }
  destruct ev as [|s text parsed|s|s m|c' d|k err]; simpl in Hstep.
  - injection Hstep as <-. by apply Hsame.
  - destruct (sockets st !! s) as [w|] eqn:Hs; [|injection Hstep as <-; by apply Hsame].
    destruct (client w) as [c0|] eqn:Hc.
    + apply on_socket_message_normal in Hstep as (m & _ & ->). by apply Hsame.
    + apply first_message_normal in Hstep as [Hi ->].
      destruct (first_message_spec s text st w Hs) as (H1 & H2 & _).
      split; intros c Hc'.
      * destruct (decide (text = c)) as [->|Hne]; [|rewrite H2 in Hc' by done; by apply P].
        destruct (_clients st !! c) as [cl|] eqn:E; [apply P; by rewrite E|].
        unfold inherits in Hi. rewrite bool_decide_eq_true_2 in Hi by done.
        simpl in Hi. by apply bool_decide_eq_false_1 in Hi.
      * destruct (decide (text = c)) as [->|Hne];
          [|rewrite H2 in Hc' by done; by apply Hold].
        pose proof (attach_session_clients s c st s) as Hb.
        rewrite list_lookup_alter_eq, Hs in Hb. simpl in Hb.
        destruct (sockets (attach_session s c st) !! s) as [w'|] eqn:Hs'; [|done].
        by exists s, w'.
  - injection Hstep as <-. apply Hsame. intros c. unfold on_close.
    destruct (sockets st !! s ≫= client) as [c0|]; [|done].
    case_bool_decide; [|done]. simpl. rewrite lookup_alter.
    case_decide; [subst|done]. by destruct (_clients st !! c).
  - injection Hstep as <-. by apply Hsame.
  - injection Hstep as <-. apply Hsame. intros c.
    destruct (_clients st !! c') as [cl0|] eqn:E0; [|by rewrite send_absent].
    rewrite (send_unfold _ _ _ _ E0). simpl.
    destruct (decide (c' = c)) as [->|Hne]; [by rewrite E0|by rewrite lookup_insert_ne].
  - destruct (callbacks st !! k) as [cb|]; [|injection Hstep as <-; by apply Hsame].
    injection Hstep as <-. apply Hsame. intros c. unfold send_callback.
    destruct err; [done|]. simpl. rewrite lookup_alter.
    case_decide; [subst|done]. by destruct (_clients st !! cb_client cb).
Qed.

Lemma reachable_wf_names st : reachable st → wf_names st.
Proof.
  intros [evs H].
  assert (∀ st0, wf_names st0 → run evs st0 = Some st → wf_names st) as Hgen.
  { clear H. induction evs as [|ev evs IH]; intros st0 W; simpl.
    - by intros [= <-].
    - destruct (step ev st0) as [st1|] eqn:E; [|done].
      apply IH. by eapply wf_names_step. }
  eapply Hgen; [apply wf_names_constructor|done].
Qed.

(** X5: sessions come from greetings, and never under a name of
    [Object.prototype].  In every state the server can reach, each
    session is stored under a name that is not a member of
    [Object.prototype] and that some accepted socket has sent as its
    first message.  A socket whose first message is a name the table
    has no session for creates the session, attached to the socket and
    with nothing queued, sending nothing and closing nothing; unless the
    name is a member of [Object.prototype]: then the member is taken for
    the session, the connection is logged, nothing is sent and the
    listener raises a TypeError. *)
Theorem sessions_come_from_greetings st :
  reachable st →
  (∀ c, is_Some (_clients st !! c) →
     (c ∉ Object_prototype) ∧ ∃ s w, sockets st !! s = Some w ∧ client w = Some c) ∧
  (∀ s w c parsed,
     sockets st !! s = Some w → client w = None → _clients st !! c = None →
     if bool_decide (c ∈ Object_prototype)
     then ∃ st', step (Message s c parsed) st = Thrown TypeError st' ∧
            log st' = log st ++ [{| level := Info;
                                    text := "Client #%s connecting with a new socket!";
                                    params := [c] |}] ∧
            (∀ s', outbox_of s' st' = outbox_of s' st)
     else ∃ st', step (Message s c parsed) st = Normal st' ∧
            _clients st' !! c
              = Some {| id := c; subscriptions := ∅; socket := Some s;
                        messageQueue := [] |} ∧
            (∀ c', c' ≠ c → _clients st' !! c' = _clients st !! c') ∧
            outbox_of s st' = outbox w ∧
            callbacks st' = callbacks st ∧
            (∀ s', closed <$> sockets st' !! s' = closed <$> sockets st !! s')).
Proof.
  intros Hreach. pose proof (reachable_wf_names _ Hreach) as [P C]. split.
  - intros c Hc. split; [by apply P|by apply C].
  - intros s w c parsed Hs Hc E. simpl. rewrite Hs, Hc.
    unfold on_first_message, inherits. rewrite (bool_decide_eq_true_2 _ E). simpl.
    case_bool_decide; [by eexists|].
    eexists. split; [reflexivity|].
    unfold attach_session, outbox_of. rewrite E. simpl. split_and!.
    + by rewrite lookup_insert_eq.
    + intros c' Hne. by rewrite lookup_insert_ne.
    + rewrite list_lookup_alter_eq, Hs. done.
    + done.
    + intros s'. destruct (decide (s = s')) as [<-|Hne].
      * rewrite list_lookup_alter_eq. by destruct (sockets st !! s).
      * by rewrite list_lookup_alter_ne.
Qed.

(** X6: whatever the server hands to the service framework is a frame
    whose [protocol] is the channel tag, which is then not the empty
    string, and it is handed over for a session of the table. *)
Theorem dispatched_frames_carry_the_tag st c m :
  reachable st → (c, m) ∈ handled st →
  js_member m "protocol" = Some (JStr SERVICE_FRAMEWORK3_CHANNEL) ∧
  SERVICE_FRAMEWORK3_CHANNEL ≠ "" ∧ is_Some (_clients st !! c).
Proof.
  intros [evs H]. revert c m.
  assert (∀ st0, wf st0 → wf_sessions st0 →
    (∀ c m, (c, m) ∈ handled st0 →
       js_member m "protocol" = Some (JStr SERVICE_FRAMEWORK3_CHANNEL) ∧
       SERVICE_FRAMEWORK3_CHANNEL ≠ "" ∧ is_Some (_clients st0 !! c)) →
    run evs st0 = Some st →
    ∀ c m, (c, m) ∈ handled st →
       js_member m "protocol" = Some (JStr SERVICE_FRAMEWORK3_CHANNEL) ∧
       SERVICE_FRAMEWORK3_CHANNEL ≠ "" ∧ is_Some (_clients st !! c)) as Hgen.
  { clear H. induction evs as [|ev evs IH]; intros st0 W S P; simpl.
    - by intros [= <-].
    - destruct (step ev st0) as [st1|] eqn:E; [|done].
      apply IH; [by eapply wf_step|by eapply wf_sessions_step|by eapply handled_step]. }
  eapply Hgen; [apply wf_constructor|apply wf_sessions_constructor| |done].
  intros c m Hin. simpl in Hin. by apply elem_of_nil in Hin.
Qed.

End Steps.

Lemma sessions_witness :
  reachable rpc_channel (after run_attached) ∧
  ∃ cl', _clients (after (run_attached ++ [Close 0; Send "c1" (JStr "a")])) !! "c1"
           = Some cl' ∧
         id cl' = "c1" ∧ subscriptions cl' = ∅.
Proof.
  assert (reachable rpc_channel (after run_attached)) as Hreach.
  { eapply after_reachable. vm_compute. reflexivity. }
  split; [exact Hreach|].
  destruct (sessions_are_never_removed rpc_channel (after run_attached)
              [Close 0; Send "c1" (JStr "a")]
              (after (run_attached ++ [Close 0; Send "c1" (JStr "a")])) "c1"
              {| id := "c1"; subscriptions := ∅; socket := Some 0%nat;
                 messageQueue := [] |} Hreach)
    as (cl' & H1 & H2 & H3).
  - vm_compute. reflexivity.
  - vm_compute. reflexivity.
  - by exists cl'.
Defined.

Lemma one_session_witness :
  reachable rpc_channel (after run_attached) ∧
  ∃ w, sockets (after run_attached) !! 0%nat = Some w ∧ client w = Some "c1"%string.
Proof.
  assert (reachable rpc_channel (after run_attached)) as Hreach.
  { eapply after_reachable. vm_compute. reflexivity. }
  split; [exact Hreach|].
  apply (socket_serves_one_session rpc_channel (after run_attached) "c1" "c1" 0 Hreach);
    vm_compute; reflexivity.
Defined.

Lemma twins_witness :
  reachable rpc_channel (after run_twins) ∧
  queue_of "c1" (after run_twins)
    = [{| ref := 0; data := JStr "a" |}; {| ref := 1; data := JStr "a" |}] ∧
  ∃ st', step rpc_channel (SendDone 1 false) (after run_twins) = Normal st' ∧
         queue_of "c1" st' = [{| ref := 0; data := JStr "a" |}].
Proof.
  assert (reachable rpc_channel (after run_twins)) as Hreach.
  { eapply after_reachable. vm_compute. reflexivity. }
  split; [exact Hreach|]. split; [vm_compute; reflexivity|].
  destruct (success_report_removes_its_wrapper rpc_channel (after run_twins) 1
              {| cb_client := "c1"; cb_message := {| ref := 1; data := JStr "a" |} |}
              [{| ref := 0; data := JStr "a" |}] [] Hreach)
    as (st' & H1 & H2 & _).
  - vm_compute. reflexivity.
  - vm_compute. reflexivity.
  - by exists st'.
Defined.

Lemma queue_witness :
  reachable rpc_channel (after run_idle) ∧
  socket_of "c1" (after run_idle) = None ∧
  data <$> queue_of "c1" (send_all "c1" [JStr "a"; JStr "b"] (after run_idle))
    = [JStr "a"; JStr "b"] ∧
  (∃ pre post,
    data <$> queue_of "c1"
      (after (run_idle ++ [Send "c1" (JStr "a"); Send "c1" (JStr "b");
                           Send "c1" (JStr "c"); Connection]))
      = pre ++ [JStr "a"; JStr "b"] ++ post ∧
    ∃ st3,
      step rpc_channel (Message 1 "c1" None)
        (after (run_idle ++ [Send "c1" (JStr "a"); Send "c1" (JStr "b");
                             Send "c1" (JStr "c"); Connection]))
        = Normal st3 ∧
      outbox_of 1 st3 = pre ++ [JStr "a"; JStr "b"] ++ post) ∧
  reachable rpc_channel (after (run_attached ++ [Send "c1" (JStr "a"); Send "c1" (JStr "b")])) ∧
  queue_of "c1" (after (run_attached ++ [Send "c1" (JStr "a"); Send "c1" (JStr "b")]))
    = [{| ref := 0; data := JStr "a" |}; {| ref := 1; data := JStr "b" |}] ∧
  ∃ st4,
    step rpc_channel (SendDone 1 false)
      (after (run_attached ++ [Send "c1" (JStr "a"); Send "c1" (JStr "b")]))
      = Normal st4 ∧
    queue_of "c1" st4 = [{| ref := 0; data := JStr "a" |}].
Proof.
  assert (reachable rpc_channel (after run_idle)) as Hreach.
  { eapply after_reachable. vm_compute. reflexivity. }
  assert (reachable rpc_channel
            (after (run_attached ++ [Send "c1" (JStr "a"); Send "c1" (JStr "b")])))
    as Hreach'.
  { eapply after_reachable. vm_compute. reflexivity. }
  split; [exact Hreach|]. split; [by vm_compute|].
  destruct (queue_hands_over_in_order_and_drains_by_report rpc_channel
              (after run_idle) "c1"
              {| id := "c1"; subscriptions := ∅; socket := None; messageQueue := [] |}
              [JStr "a"; JStr "b"]
              [Send "c1" (JStr "c"); Connection]
              (after (run_idle ++ [Send "c1" (JStr "a"); Send "c1" (JStr "b");
                                   Send "c1" (JStr "c"); Connection]))
              Hreach)
    as (H1 & _ & (pre & post & H3 & H4) & _ & H5 & _).
  - vm_compute. reflexivity.
  - reflexivity.
  - eapply run_next.
    + intros (s & w & parsed & Heq & _). discriminate Heq.
    + reflexivity.
    + eapply run_next.
      * intros (s & w & parsed & Heq & _). discriminate Heq.
      * reflexivity.
      * vm_compute. apply run_done.
  - split; [exact H1|]. split; [|split; [exact Hreach'|split; [by vm_compute|]]].
    + exists pre, post. split; [exact H3|].
      destruct (H4 1%nat {| closed := false; outbox := []; client := None |} None [])
        as (st3 & Hstep & Hout & _).
      * vm_compute. reflexivity.
      * reflexivity.
      * exists st3. split; [exact Hstep|exact Hout].
    + destruct (H5 (after (run_attached ++ [Send "c1" (JStr "a"); Send "c1" (JStr "b")]))
                  1%nat
                  {| cb_client := "c1"; cb_message := {| ref := 1; data := JStr "b" |} |}
                  [{| ref := 0; data := JStr "a" |}] [] Hreach')
        as [(st4 & Hstep & Hq) _].
      * vm_compute. reflexivity.
      * vm_compute. reflexivity.
      * exists st4. split; [exact Hstep|exact Hq].
Defined.

(** The send of [a] fails and the send of [b] succeeds: [b] has left the
    queue and [a] has not, both were handed to the socket, and the socket
    that attaches next is handed [a], after [b] went out. *)
Lemma later_frame_leaves_the_queue_first :
  run rpc_channel run_first_send_failed constructor
    = Some (after run_first_send_failed) ∧
  outbox_of 0 (after run_first_send_failed) = [JStr "a"; JStr "b"] ∧
  data <$> queue_of "c1" (after run_first_send_failed) = [JStr "a"] ∧
  outbox_of 1 (after (run_first_send_failed ++ [Connection; Message 1 "c1" None]))
    = [JStr "a"].
Proof. split_and!; vm_compute; reflexivity. Qed.

Lemma resent_witness :
  reachable rpc_channel (after run_busy) ∧
  queue_of "c1" (after run_busy) = [{| ref := 0; data := JStr "a" |}] ∧
  ∃ st2 st3,
    step rpc_channel (Message 1 "c1" None) (after run_busy) = Normal st2 ∧
    outbox_of 1 st2 = [JStr "a"] ∧
    step rpc_channel (SendDone 0 false) st2 = Normal st3 ∧
    queue_of "c1" st3 = queue_of "c1" st2 ∧
    length (queue_of "c1" st2) = 1%nat.
Proof.
  assert (reachable rpc_channel (after run_busy)) as Hreach.
  { eapply after_reachable. vm_compute. reflexivity. }
  split; [exact Hreach|]. split; [by vm_compute|].
  destruct (late_report_of_resent_frame_removes_nothing rpc_channel (after run_busy) 0
              {| cb_client := "c1"; cb_message := {| ref := 0; data := JStr "a" |} |}
              1 {| closed := false; outbox := []; client := None |} None [] [] Hreach)
    as (st2 & st3 & m' & H1 & H2 & _ & _ & _ & H6 & _ & H8 & H9 & _).
  - vm_compute. reflexivity.
  - vm_compute. reflexivity.
  - vm_compute. reflexivity.
  - reflexivity.
  - exists st2, st3. split_and!; [exact H1|exact H2|exact H8|exact H9|].
    change (length (queue_of "c1" st2) = length (queue_of "c1" (after run_busy))) in H6.
    rewrite H6. by vm_compute.
Defined.

Lemma greeting_witness :
  reachable rpc_channel (after [Connection]) ∧
  (∃ st', step rpc_channel (Message 0 "toString" None) (after [Connection])
          = Thrown TypeError st' ∧
     log st' = log (after [Connection])
               ++ [{| level := Info; text := "Client #%s connecting with a new socket!";
                      params := ["toString"%string] |}]) ∧
  ∃ st', step rpc_channel (Message 0 "c1" None) (after [Connection]) = Normal st' ∧
    _clients st' !! "c1"
      = Some {| id := "c1"; subscriptions := ∅; socket := Some 0%nat;
                messageQueue := [] |} ∧
    outbox_of 0 st' = [].
Proof.
  assert (reachable rpc_channel (after [Connection])) as Hreach.
  { eapply after_reachable. vm_compute. reflexivity. }
  split; [exact Hreach|].
  destruct (sessions_come_from_greetings rpc_channel (after [Connection]) Hreach)
    as [_ H].
  split.
  - destruct (H 0%nat {| closed := false; outbox := []; client := None |} "toString"
                None eq_refl eq_refl eq_refl) as (st' & H1 & H2 & _).
    by exists st'.
  - destruct (H 0%nat {| closed := false; outbox := []; client := None |} "c1" None
                eq_refl eq_refl eq_refl) as (st' & H1 & H2 & _ & H3 & _).
    by exists st'.
Defined.

Lemma dispatch_witness :
  reachable rpc_channel (after run_dispatched) ∧
  js_member frame_with_protocol "protocol" = Some (JStr rpc_channel) ∧
  rpc_channel ≠ ""%string ∧ is_Some (_clients (after run_dispatched) !! "c1").
Proof.
  assert (reachable rpc_channel (after run_dispatched)) as Hreach.
  { eapply after_reachable. vm_compute. reflexivity. }
  split; [exact Hreach|].
  apply (dispatched_frames_carry_the_tag rpc_channel (after run_dispatched) "c1"
           frame_with_protocol Hreach).
  vm_compute. apply list_elem_of_here.
Defined.

End ServerExtra.

(** * More properties of the client *)

Module ClientExtra.
Import Client ClientFrames ClientTheory.

Section Steps.

Variable SERVICE_FRAMEWORK3_CHANNEL : string.
Variable SERVICE_FRAMEWORK_RPC_TIMEOUT_MS : Z.

Local Abbreviation step :=
  (step SERVICE_FRAMEWORK3_CHANNEL SERVICE_FRAMEWORK_RPC_TIMEOUT_MS).
Local Abbreviation run :=
  (run SERVICE_FRAMEWORK3_CHANNEL SERVICE_FRAMEWORK_RPC_TIMEOUT_MS).
Local Abbreviation reachable :=
  (reachable SERVICE_FRAMEWORK3_CHANNEL SERVICE_FRAMEWORK_RPC_TIMEOUT_MS).
Local Abbreviation frame := (frame SERVICE_FRAMEWORK3_CHANNEL).
Local Abbreviation step_call :=
  (step_call SERVICE_FRAMEWORK3_CHANNEL SERVICE_FRAMEWORK_RPC_TIMEOUT_MS).
Local Abbreviation step_not_call :=
  (step_not_call SERVICE_FRAMEWORK3_CHANNEL SERVICE_FRAMEWORK_RPC_TIMEOUT_MS).
Local Abbreviation run_snoc :=
  (run_snoc SERVICE_FRAMEWORK3_CHANNEL SERVICE_FRAMEWORK_RPC_TIMEOUT_MS).
Local Abbreviation reachable_inv :=
  (reachable_inv SERVICE_FRAMEWORK3_CHANNEL SERVICE_FRAMEWORK_RPC_TIMEOUT_MS).
Local Abbreviation listeners_origin :=
  (listeners_origin SERVICE_FRAMEWORK3_CHANNEL SERVICE_FRAMEWORK_RPC_TIMEOUT_MS).
Local Abbreviation counter_step :=
  (counter_step SERVICE_FRAMEWORK3_CHANNEL SERVICE_FRAMEWORK_RPC_TIMEOUT_MS).
Local Abbreviation frame_dropped :=
  (frame_dropped SERVICE_FRAMEWORK3_CHANNEL SERVICE_FRAMEWORK_RPC_TIMEOUT_MS).
Local Abbreviation timeout_reason := (timeout_reason SERVICE_FRAMEWORK_RPC_TIMEOUT_MS).

Lemma frame_channel r h e res :
  strict_eq_str (channel (frame r h e res)) SERVICE_FRAMEWORK3_CHANNEL = true.
Proof. simpl. by apply bool_decide_eq_true_2. Qed.

Lemma request_of_is_call ev r : request_of ev r = None ↔ is_call ev = false.
Proof. by destruct ev. Qed.

(** ** The counter *)

Lemma calls_snoc evs ev : calls (evs ++ [ev]) = calls evs + (if is_call ev then 1 else 0).
Proof.
  unfold calls. rewrite filter_app, length_app.
  rewrite filter_cons, filter_nil. destruct (is_call ev); simpl; lia.
Qed.

Lemma calls_nonneg evs : 0 ≤ calls evs.
Proof. unfold calls. lia. Qed.

(** X7: request ids are handed out consecutively: after a run, the
    counter is its value before the run plus the number of calls of the
    four operations in the run, whatever else happened in between and
    whether or not a call raised, as long as that sum is within 2^53. *)
Theorem counter_counts_calls evs st :
  _rpcRequestId st + calls evs ≤ MAX_EXACT →
  _rpcRequestId (run evs st) = _rpcRequestId st + calls evs.
Proof.
  induction evs as [|ev evs IH] using rev_ind; intros Hmax.
  - unfold calls. simpl. lia.
  - rewrite run_snoc, calls_snoc in *. pose proof (calls_nonneg evs).
    destruct (request_of ev (_rpcRequestId (run evs st))) as [[[m rt] text]|] eqn:E.
    + assert (is_call ev = true) as Hc.
      { destruct (is_call ev) eqn:Hc; [done|].
        apply request_of_is_call with (r := _rpcRequestId (run evs st)) in Hc. congruence. }
      rewrite Hc in *. destruct (step_call _ _ _ _ _ E) as [_ ->].
      assert (_rpcRequestId (state_of (_sendMessageAndListenForResult m rt text
                (set_rpcRequestId (number_succ (_rpcRequestId (run evs st))) (run evs st))))
              = number_succ (_rpcRequestId (run evs st))) as -> by by destruct rt.
      rewrite number_succ_below; rewrite IH by lia; lia.
    + destruct (step_not_call _ _ E) as [-> _].
      apply request_of_is_call in E. rewrite E in *. rewrite IH by lia. lia.
Qed.

(** ** Listeners of subscriptions *)

Lemma streams_constructor : inv_streams constructor.
Proof.
  split.
  - intros n sub H. unfold listeners in H. simpl in H. rewrite lookup_empty in H.
    by apply elem_of_nil in H.
  - intros s H. by apply elem_of_nil in H.
  - intros m H. by apply elem_of_nil in H.
Qed.

Lemma streams_alter f sub st :
  (∀ x, sub_message (f x) = sub_message x) →
  (∀ x, isStopped x = false → isStopped (f x) = false) →
  inv_streams st → inv_streams (set_subscriptions (alter f sub) st).
Proof.
  intros Hm Hs [J R O]. split; simpl; [| |done].
  - intros n q H. change (ObserverListener q ∈ listeners n st) in H.
    destruct (J _ _ H) as (s & E & Hn & Hst).
    destruct (decide (sub = q)) as [->|Hne].
    + exists (f s). rewrite list_lookup_alter_eq, E. simpl. rewrite Hm. auto.
    + exists s. by rewrite list_lookup_alter_ne.
  - intros s (s0 & H0 & Heq)%(alter_sub_message _ _ _ _ Hm). rewrite Heq. by apply R.
Qed.

Lemma listeners_socket_send n m st : listeners n (socket_send m st) = listeners n st.
Proof. done. Qed.

Lemma streams_stop f sub s st :
  inv_streams st → subscriptions st !! sub = Some s →
  (∀ x, sub_message (f x) = sub_message x) →
  inv_streams (dispose (sub_message s) (set_subscriptions (alter f sub) st)).
Proof.
  intros [J R O] E Hm. unfold dispose. split.
  - intros n q H. rewrite listeners_socket_send in H.
    destruct (decide (pretty (message_requestId (sub_message s)) = n)) as [<-|Hne].
    { rewrite listeners_removeAll_eq in H. by apply elem_of_nil in H. }
    rewrite listeners_removeAll_ne in H by done.
    change (ObserverListener q ∈ listeners n st) in H.
    destruct (J _ _ H) as (s' & E' & Hn & Hst). simpl.
    destruct (decide (sub = q)) as [->|Hq]; [congruence|].
    exists s'. by rewrite list_lookup_alter_ne.
  - intros s' (s0 & H0 & Heq)%(alter_sub_message _ _ _ _ Hm). rewrite Heq. simpl.
    destruct (R _ H0) as [? ?]. split; [done|]. apply elem_of_app. by left.
  - done.
Qed.

Lemma streams_unsubscribe sub st : inv_streams st → inv_streams (unsubscribe sub st).
Proof.
  intros I. unfold unsubscribe. destruct (subscriptions st !! sub) as [s|] eqn:E; [|done].
  destruct (isStopped s); [done|]. by apply (streams_stop _ sub s).
Qed.

Lemma streams_finish sub n st : inv_streams st → inv_streams (observer_finish sub n st).
Proof.
  intros I. unfold observer_finish.
  destruct (subscriptions st !! sub) as [s|] eqn:E; [|done].
  destruct (isStopped s); [done|]. by apply (streams_stop _ sub s).
Qed.

Lemma streams_onNext sub v st : inv_streams st → inv_streams (observer_onNext sub v st).
Proof.
  intros I. unfold observer_onNext.
  destruct (subscriptions st !! sub) as [s|] eqn:E; [|done].
  destruct (isStopped s); [done|]. apply streams_alter; [done| |done].
  intros x Hx. simpl. by rewrite Hx.
Qed.

Lemma subscriptions_settle p s st : subscriptions (settle p s st) = subscriptions st.
Proof. unfold settle. by destruct (promises st !! p) as [[]|]. Qed.

Lemma socket_settle p s st : _socket (settle p s st) = _socket st.
Proof. unfold settle. by destruct (promises st !! p) as [[]|]. Qed.

Lemma observables_settle p s st : observables (settle p s st) = observables st.
Proof. unfold settle. by destruct (promises st !! p) as [[]|]. Qed.

Lemma timers_settle p s st : timers (settle p s st) = timers st.
Proof. unfold settle. by destruct (promises st !! p) as [[]|]. Qed.

(** Removing listeners and settling promises keeps the facts about
    subscriptions. *)
Lemma streams_fewer_listeners st st' :
  (∀ n l, l ∈ listeners n st' → l ∈ listeners n st) →
  subscriptions st' = subscriptions st → _socket st' = _socket st →
  observables st' = observables st →
  inv_streams st → inv_streams st'.
Proof.
  intros Hl Hs Hk Ho [J R O]. split.
  - intros n q H. rewrite Hs. by apply J, Hl.
  - intros s. rewrite Hs, Hk. apply R.
  - intros m. rewrite Ho. apply O.
Qed.

Lemma streams_call_listener name l h e res st :
  inv_streams st → inv_streams (state_of (call_listener name l h e res st)).
Proof.
  intros I. destruct l as [p|q]; simpl.
  - apply (streams_fewer_listeners st); [| | | |done].
    + intros n l. destruct h; rewrite listeners_settle;
        unfold listeners, removeListener;
        (destruct (decide (name = n)) as [<-|Hne];
         [intros H; eapply remove_first_subseteq;
          destruct (remove_first _ _) eqn:Hr; simpl in H;
          [rewrite lookup_delete_eq in H; by apply elem_of_nil in H
          |rewrite lookup_insert_eq in H; simpl in H; unfold listeners in Hr;
           rewrite Hr; exact H]
         |destruct (remove_first _ _); simpl;
          [by rewrite lookup_delete_ne|by rewrite lookup_insert_ne]]).
    + destruct h; rewrite subscriptions_settle; unfold removeListener;
        by destruct (remove_first _ _).
    + destruct h; rewrite socket_settle; unfold removeListener;
        by destruct (remove_first _ _).
    + destruct h; rewrite observables_settle; unfold removeListener;
        by destruct (remove_first _ _).
  - destruct h; simpl; [by apply streams_finish|].
    destruct (truthy res); simpl; [|done].
    destruct (strict_eq_str (js_prop res "type") "completed"); simpl;
      [by apply streams_finish|].
    destruct (strict_eq_str (js_prop res "type") "next"); simpl; [|done].
    by apply streams_onNext.
Qed.

Lemma streams_call m rt text st :
  (rt = RObservable → is_request m) →
  inv_streams st →
  inv_streams (state_of (_sendMessageAndListenForResult m rt text st)).
Proof.
  intros Hm [J R O]. destruct rt; simpl.
  - split; simpl; [done| |done].
    intros s Hs. destruct (R _ Hs). split; [done|]. apply elem_of_app. by left.
  - split; simpl; [| |done].
    + intros n q H. unfold listeners in H. simpl in H.
      destruct (decide (pretty (message_requestId m) = n)) as [<-|Hne].
      * rewrite lookup_insert_eq in H. simpl in H.
        apply elem_of_app in H as [H|H]; [by apply J|].
        by apply list_elem_of_singleton in H.
      * rewrite lookup_insert_ne in H by done. by apply J.
    + intros s Hs. destruct (R _ Hs). split; [done|]. apply elem_of_app. by left.
  - split; simpl; [done..|].
    intros m' [Hm'| ->%list_elem_of_singleton]%elem_of_app; [by apply O|by apply Hm].
  - by split.
Qed.

Lemma streams_step ev st : inv_streams st → inv_streams (state_of (step ev st)).
Proof.
  intros I. pose proof I as [J R O].
  destruct (request_of ev (_rpcRequestId st)) as [[[m0 rt0] text0]|] eqn:E0.
  { destruct (step_call _ _ _ _ _ E0) as [_ ->]. apply streams_call; [|by split].
    intros ->. destruct ev; simpl in E0; try done; by injection E0 as <- _ _. }
  destruct ev as [f rt args|o m rt args|i args|o|o|sub|message|k]; try done; simpl.
  - unfold subscribe. destruct (observables st !! o) as [m|] eqn:E; [|done]. simpl.
    assert (m ∈ observables st) as Hm by by eapply list_elem_of_lookup_2.
    split; simpl.
    + intros n q H. unfold listeners in H. simpl in H.
      assert (ObserverListener q ∈ listeners n st →
              ∃ s, (subscriptions st ++ [{| sub_message := m; isStopped := false;
                                            seen := [] |}]) !! q = Some s ∧
                   n = pretty (message_requestId (sub_message s)) ∧ isStopped s = false)
        as Hold.
      { intros H'. destruct (J _ _ H') as (s & Es & ? & ?). exists s.
        split; [|done]. by apply lookup_app_l_Some. }
      destruct (decide (pretty (message_requestId m) = n)) as [<-|Hne].
      * rewrite lookup_insert_eq in H. simpl in H.
        apply elem_of_app in H as [H|H]; [by apply Hold|].
        apply list_elem_of_singleton in H. injection H as ->.
        eexists. split; [apply list_lookup_middle; done|]. done.
      * rewrite lookup_insert_ne in H by done. by apply Hold.
    + intros s [Hs| ->%list_elem_of_singleton]%elem_of_app.
      * destruct (R _ Hs). split; [done|]. apply elem_of_app. by left.
      * simpl. split; [by apply O|]. apply elem_of_app. right. by apply list_elem_of_singleton.
    + done.
  - by apply streams_unsubscribe.
  - unfold Client._handleSocketMessage. destruct (strict_eq_str _ _); [|done].
    destruct (requestId message) as [r|]; [|done]. unfold emit.
    apply (emit_to_preserves inv_streams); [|done].
    intros l st0 _. apply streams_call_listener.
  - destruct (timers st !! k) as [t|]; [|done]. simpl. unfold Client.on_timeout.
    apply (streams_fewer_listeners st); [| | | |done].
    + intros n l. rewrite listeners_settle. apply listeners_removeAll_subseteq.
    + by rewrite subscriptions_settle.
    + by rewrite socket_settle.
    + by rewrite observables_settle.
Qed.

Lemma reachable_streams st : reachable st → inv_streams st.
Proof.
  intros [evs ->]. induction evs as [|ev evs IH] using rev_ind.
  - apply streams_constructor.
  - rewrite run_snoc. by apply streams_step.
Qed.

(** ** Identifiers that nothing listens to *)

Lemma no_listener (ls : list Listener) : (∀ l, l ∉ ls) → ls = [].
Proof. destruct ls as [|l ls]; [done|]. intros H. destruct (H l). by left. Qed.

(** After a call that is neither a promise call nor an observable call,
    nothing is ever registered under its identifier. *)
Lemma key_unused st ev m rt text evs :
  reachable st → _rpcRequestId st < MAX_EXACT →
  request_of ev (_rpcRequestId st) = Some (m, rt, text) →
  rt ≠ RPromise → rt ≠ RObservable →
  (∀ m', m' ∈ observables (run evs (state_of (step ev st))) →
         message_requestId m' ≠ message_requestId m) ∧
  listeners (pretty (message_requestId m)) (run evs (state_of (step ev st))) = [] ∧
  message_requestId m < _rpcRequestId (run evs (state_of (step ev st))).
Proof.
  intros Hreach Hmax E Hp Ho.
  pose proof (reachable_inv _ Hreach Hmax) as I.
  destruct (step_call _ _ _ _ _ E) as [Hid Hstep].
  set (st1 := state_of (step ev st)).
  induction evs as [|ev' evs IH] using rev_ind.
  - simpl. subst st1. rewrite Hstep. destruct rt; try done; simpl; split_and!.
    + intros m' Hm'. pose proof (inv_observables _ I _ Hm'). lia.
    + change (listeners (pretty (message_requestId m)) st = []).
      apply listeners_fresh; [done|lia].
    + rewrite number_succ_below by done. lia.
    + intros m' Hm'. pose proof (inv_observables _ I _ Hm'). lia.
    + change (listeners (pretty (message_requestId m)) st = []).
      apply listeners_fresh; [done|lia].
    + rewrite number_succ_below by done. lia.
  - rewrite run_snoc. destruct IH as (IH1 & IH2 & IH3).
    set (st2 := run evs st1) in *.
    split_and!.
    + intros m' Hm'.
      destruct (request_of ev' (_rpcRequestId st2)) as [[[m2 rt2] text2]|] eqn:E2.
      * destruct (step_call _ _ _ _ _ E2) as [Hid2 Hstep2]. rewrite Hstep2 in Hm'.
        destruct rt2; simpl in Hm'; try (by apply IH1).
        apply elem_of_app in Hm' as [Hm'| ->%list_elem_of_singleton]; [by apply IH1|].
        lia.
      * destruct (step_not_call _ _ E2) as [_ Hobs]. rewrite Hobs in Hm'. by apply IH1.
    + apply no_listener. intros l Hl. apply listeners_origin in Hl as [Hl|[Hl|Hl]].
      * rewrite IH2 in Hl. by apply elem_of_nil in Hl.
      * destruct Hl as (m2 & text2 & E2 & Hn & _).
        destruct (step_call _ _ _ _ _ E2) as [Hid2 _].
        apply (inj pretty) in Hn. lia.
      * destruct Hl as (o & m2 & _ & Ho' & Hn & _).
        apply (inj pretty) in Hn. apply (IH1 m2); [|done].
        by eapply list_elem_of_lookup_2.
    + pose proof (counter_step ev' st2). lia.
Qed.

(** X8: a void call sends its frame and registers nothing: no listener,
    no promise and no timer.  Whatever the client does afterwards, a
    frame that answers the call, an error included, is dropped without a
    trace. *)
Theorem void_call_is_never_answered st ev m text evs message :
  reachable st → _rpcRequestId st < MAX_EXACT →
  request_of ev (_rpcRequestId st) = Some (m, RVoid, text) →
  strict_eq_str (channel message) SERVICE_FRAMEWORK3_CHANNEL = true →
  requestId message = Some (message_requestId m) →
  step ev st = Normal ReturnedUndefined (state_of (step ev st)) ∧
  _socket (state_of (step ev st)) = _socket st ++ [m] ∧
  _emitter (state_of (step ev st)) = _emitter st ∧
  promises (state_of (step ev st)) = promises st ∧
  timers (state_of (step ev st)) = timers st ∧
  step (SocketMessage message) (run evs (state_of (step ev st)))
    = Normal ReturnedUndefined (run evs (state_of (step ev st))).
Proof.
  intros Hreach Hmax E Hch Hr.
  destruct (key_unused st ev m RVoid text evs Hreach Hmax E) as (_ & Hl & _); [done..|].
  split_and!; [| | | | |by apply (frame_dropped _ (message_requestId m))];
    destruct (step_call _ _ _ _ _ E) as [_ ->]; done.
Qed.

(** ** Replies and timers *)

(** X9: the reply to a promise call settles the promise of that call and
    removes its listener; every other promise, the listeners under every
    other identifier, the frames sent and the subscriptions are as
    before, and the timer of the call is not cancelled. *)
Theorem reply_settles_only_its_call st (r : Z) p message :
  reachable st → _rpcRequestId st < MAX_EXACT →
  PromiseListener p ∈ listeners (pretty r) st →
  strict_eq_str (channel message) SERVICE_FRAMEWORK3_CHANNEL = true →
  requestId message = Some r →
  ∃ st',
    step (SocketMessage message) st = Normal ReturnedUndefined st' ∧
    promises st' !! p
      = Some (if hadError message then Rejected (decodeError (error message))
              else Resolved (result message)) ∧
    (∀ q, q ≠ p → promises st' !! q = promises st !! q) ∧
    listeners (pretty r) st' = [] ∧
    (∀ n, n ≠ pretty r → listeners n st' = listeners n st) ∧
    timers st' = timers st ∧
    (∃ text, {| timer_requestId := r; timer_promise := p; timer_message := text |}
             ∈ timers st') ∧
    _socket st' = _socket st ∧ subscriptions st' = subscriptions st.
Proof.
  intros Hreach Hmax Hl Hch Hr.
  pose proof (reachable_inv _ Hreach Hmax) as I.
  destruct (inv_listener _ I _ _ Hl) as (Hls & Hp & text & Ht).
  eexists. split.
  { simpl. unfold Client._handleSocketMessage. rewrite Hch, Hr.
    by rewrite (emit_promise _ _ _ _ _ _ Hls). }
  assert (∀ x, timers (settle p x (removeListener (pretty r) (PromiseListener p) st))
               = timers st) as Htim.
  { intros x. rewrite timers_settle. unfold removeListener.
    by destruct (remove_first _ _). }
  split_and!.
  - apply settle_pending. by rewrite promises_removeListener.
  - intros q Hq. rewrite settle_lookup_ne by done. by rewrite promises_removeListener.
  - rewrite listeners_settle, listeners_removeListener_eq, Hls. simpl.
    by rewrite bool_decide_eq_true_2.
  - intros n Hn. by rewrite listeners_settle, listeners_removeListener_ne.
  - apply Htim.
  - exists text. by rewrite Htim.
  - rewrite socket_settle. unfold removeListener. by destruct (remove_first _ _).
  - rewrite subscriptions_settle. unfold removeListener. by destruct (remove_first _ _).
Qed.

(** X10: the timer of a promise call that has been settled still fires;
    when it does, it changes nothing but the list of pending timers: the
    promise keeps its value, and no listener, frame, subscription or log
    entry is touched. *)
Theorem late_timer_changes_nothing st k t s :
  reachable st → _rpcRequestId st < MAX_EXACT →
  timers st !! k = Some t →
  promises st !! timer_promise t = Some s → s ≠ Pending →
  ∃ st',
    step (Timeout k) st = Normal ReturnedUndefined st' ∧
    timers st' = delete k (timers st) ∧
    promises st' = promises st ∧
    (∀ n, listeners n st' = listeners n st) ∧
    _socket st' = _socket st ∧ subscriptions st' = subscriptions st ∧
    log st' = log st.
Proof.
  intros Hreach Hmax Hk Hs Hne.
  pose proof (reachable_inv _ Hreach Hmax) as I.
  assert (t ∈ timers st) as Ht by by eapply list_elem_of_lookup_2.
  assert (listeners (pretty (timer_requestId t)) st = []) as Hnone.
  { apply no_listener. intros l Hl.
    pose proof (inv_timer_listener _ I _ _ Ht Hl) as ->.
    destruct (inv_listener _ I _ _ Hl) as (_ & Hp & _). congruence. }
  eexists. split; [simpl; by rewrite Hk|].
  unfold Client.on_timeout.
  rewrite (settle_settled _ _ _ s) by done. simpl. split_and!; try done.
  intros n. unfold listeners. simpl.
  destruct (decide (pretty (timer_requestId t) = n)) as [<-|Hn].
  - rewrite lookup_delete_eq. symmetry. exact Hnone.
  - by rewrite lookup_delete_ne.
Qed.

(** ** Streams *)

Lemma alter_as_insert {A} (f : A → A) i (l : list A) x :
  l !! i = Some x → alter f i l = <[i := f x]> l.
Proof.
  intros E. apply list_eq. intros j. destruct (decide (i = j)) as [<-|Hne].
  - rewrite list_lookup_alter_eq, E. simpl.
    by rewrite list_lookup_insert_eq by by eapply lookup_lt_Some.
  - by rewrite list_lookup_alter_ne, list_lookup_insert_ne.
Qed.

Lemma step_frame (r : Z) h e res st :
  step (SocketMessage (frame r h e res)) st = emit (pretty r) h e res st.
Proof.
  simpl. unfold Client._handleSocketMessage. by rewrite frame_channel.
Qed.

Lemma run_cons ev evs st : run (ev :: evs) st = run evs (state_of (step ev st)).
Proof. done. Qed.

(** One value frame reaching the only listener of its identifier. *)
Lemma next_frame st (r : Z) sub s e v :
  listeners (pretty r) st = [ObserverListener sub] →
  subscriptions st !! sub = Some s → isStopped s = false →
  step (SocketMessage (frame r false e (next v))) st
  = Normal ReturnedUndefined
      (set_subscriptions
         <[sub := {| sub_message := sub_message s; isStopped := false;
                     seen := seen s ++ [OnNext v] |}]> st).
Proof.
  intros Hl Hs Hst. rewrite step_frame. unfold emit. rewrite Hl. simpl.
  unfold observer_onNext. rewrite Hs, Hst. unfold tell, set_subscriptions.
  by rewrite (alter_as_insert _ _ _ _ Hs), Hst.
Qed.

(** X11: the values of a stream reach the subscriber in the order in
    which their frames arrive, and the frames have no other effect: the
    subscription stays active, nothing is sent, and listeners, promises
    and timers are untouched. *)
Theorem stream_values_arrive_in_order st (r : Z) sub vs :
  reachable st → listeners (pretty r) st = [ObserverListener sub] →
  ∃ s,
    subscriptions st !! sub = Some s ∧
    message_requestId (sub_message s) = r ∧
    let st' := run ((λ v, SocketMessage (frame r false JUndefined (next v))) <$> vs) st in
    subscriptions st'
      = <[sub := {| sub_message := sub_message s; isStopped := false;
                    seen := seen s ++ (OnNext <$> vs) |}]> (subscriptions st) ∧
    _socket st' = _socket st ∧ _emitter st' = _emitter st ∧
    promises st' = promises st ∧ timers st' = timers st.
Proof.
  intros Hreach Hl. pose proof (reachable_streams _ Hreach) as [J _ _].
  destruct (J (pretty r) sub) as (s & Hs & Hr & Hst); [rewrite Hl; by left|].
  apply (inj pretty) in Hr. exists s. split_and!; [done..|]. simpl.
  clear Hreach J Hr. revert st s Hl Hs Hst.
  induction vs as [|v vs IH]; intros st s Hl Hs Hst.
  - simpl. rewrite app_nil_r. split_and!; try done.
    rewrite <- Hst. destruct s. by rewrite list_insert_id.
  - rewrite fmap_cons, run_cons, (next_frame _ _ _ _ _ _ Hl Hs Hst).
    unfold state_of.
    match goal with |- context [Client.run _ _ _ ?st1] =>
      destruct (IH st1 {| sub_message := sub_message s; isStopped := false;
                          seen := seen s ++ [OnNext v] |})
        as (H1 & H2 & H3 & H4 & H5) end.
    + done.
    + simpl. apply list_lookup_insert_eq. by eapply lookup_lt_Some.
    + done.
    + rewrite H1, H2, H3, H4, H5. simpl. split_and!; try done.
      by rewrite list_insert_insert_eq, <- app_assoc.
Qed.

(** X12: the frame that ends a stream, by completion or by error, is
    told to the subscriber, stops the subscription, removes the listeners
    of the identifier and sends a [DisposeObservable] frame for it to the
    server; a frame for the identifier that comes after is dropped. *)
Theorem ended_stream_is_disposed st (r : Z) sub h e res :
  reachable st → listeners (pretty r) st = [ObserverListener sub] →
  h = true ∨ (truthy res = true ∧ js_prop res "type" = JStr "completed") →
  ∃ s st',
    subscriptions st !! sub = Some s ∧
    step (SocketMessage (frame r h e res)) st = Normal ReturnedUndefined st' ∧
    subscriptions st'
      = <[sub := {| sub_message := sub_message s; isStopped := true;
                    seen := seen s ++ [if h then OnError (decodeError e)
                                       else OnCompleted] |}]> (subscriptions st) ∧
    _socket st' = _socket st ++ [DisposeObservable r] ∧
    listeners (pretty r) st' = [] ∧
    ∀ h' e' res',
      step (SocketMessage (frame r h' e' res')) st' = Normal ReturnedUndefined st'.
Proof.
  intros Hreach Hl Hend. pose proof (reachable_streams _ Hreach) as [J _ _].
  destruct (J (pretty r) sub) as (s & Hs & Hr & Hst); [rewrite Hl; by left|].
  apply (inj pretty) in Hr.
  assert (∀ n, ∃ st',
    observer_finish sub n st = st' ∧
    subscriptions st'
      = <[sub := {| sub_message := sub_message s; isStopped := true;
                    seen := seen s ++ [n] |}]> (subscriptions st) ∧
    _socket st' = _socket st ++ [DisposeObservable r] ∧
    listeners (pretty r) st' = [] ∧
    ∀ h' e' res',
      step (SocketMessage (frame r h' e' res')) st' = Normal ReturnedUndefined st')
    as Hfin.
  { intros n. eexists. split; [reflexivity|].
    unfold observer_finish. rewrite Hs, Hst. unfold dispose, tell. simpl.
    rewrite <- Hr.
    assert (listeners (pretty r)
              (socket_send (DisposeObservable r)
                 (removeAllListeners (pretty r)
                    (set_subscriptions
                       (alter (λ s0, {| sub_message := sub_message s0;
                                        isStopped := isStopped s0 || true;
                                        seen := seen s0 ++ [n] |}) sub) st))) = [])
      as Hnone.
    { rewrite listeners_socket_send. apply listeners_removeAll_eq. }
    split_and!.
    - rewrite (alter_as_insert _ _ _ _ Hs), Hst. done.
    - done.
    - exact Hnone.
    - intros h' e' res'. apply (frame_dropped _ r); [apply frame_channel|done|exact Hnone]. }
  exists s. destruct h.
  - destruct (Hfin (OnError (decodeError e))) as (st' & Hst' & H1 & H2 & H3 & H4).
    exists st'. split_and!; try done.
    rewrite step_frame. unfold emit. rewrite Hl. simpl. by rewrite Hst'.
  - destruct Hend as [|[Ht Hc]]; [done|].
    destruct (Hfin OnCompleted) as (st' & Hst' & H1 & H2 & H3 & H4).
    exists st'. split_and!; try done.
    rewrite step_frame. unfold emit. rewrite Hl. simpl. rewrite Ht, Hc. simpl.
    by rewrite Hst'.
Qed.

(** X13: a stream frame without an error and with a falsy result makes
    the message handler raise an AssertionError before anything is
    changed; a stream frame whose result has a type other than
    [completed] and [next] is ignored. *)
Theorem malformed_stream_frames st (r : Z) sub e res :
  reachable st → _rpcRequestId st < MAX_EXACT →
  ObserverListener sub ∈ listeners (pretty r) st →
  (truthy res = false →
   step (SocketMessage (frame r false e res)) st = Thrown AssertionError st) ∧
  (truthy res = true →
   strict_eq_str (js_prop res "type") "completed" = false →
   strict_eq_str (js_prop res "type") "next" = false →
   step (SocketMessage (frame r false e res)) st = Normal ReturnedUndefined st).
Proof.
  intros Hreach Hmax Hin. pose proof (reachable_inv _ Hreach Hmax) as I.
  assert (∀ l, l ∈ listeners (pretty r) st → is_observer l) as Hobs.
  { intros [p|q] Hl; [|done].
    destruct (inv_listener _ I _ _ Hl) as (Hls & _). rewrite Hls in Hin.
    by apply list_elem_of_singleton in Hin. }
  rewrite step_frame. unfold emit. split.
  - intros Ht. destruct (listeners (pretty r) st) as [|l ls]; [by apply elem_of_nil in Hin|].
    specialize (Hobs l (list_elem_of_here _ _)). destruct l as [p|q]; [done|].
    simpl. by rewrite Ht.
  - intros Ht Hc Hn. clear Hin. induction (listeners (pretty r) st) as [|l ls IH]; [done|].
    pose proof (Hobs l (list_elem_of_here _ _)) as Hl. destruct l as [p|q]; [done|].
    simpl. rewrite Ht, Hc, Hn. simpl. apply IH. intros l' Hl'. apply Hobs. by right.
Qed.

(** Subscribing to an observable. *)
Lemma subscribe_unfold o m st :
  observables st !! o = Some m →
  ∃ st',
    step (Subscribe o) st = Normal (ReturnedSubscription (length (subscriptions st))) st' ∧
    listeners (pretty (message_requestId m)) st'
      = listeners (pretty (message_requestId m)) st
        ++ [ObserverListener (length (subscriptions st))] ∧
    subscriptions st'
      = subscriptions st ++ [{| sub_message := m; isStopped := false; seen := [] |}] ∧
    _socket st' = _socket st ++ [m] ∧
    observables st' = observables st.
Proof.
  intros E. eexists. split; [simpl; unfold subscribe; by rewrite E|].
  split_and!; try done. unfold listeners at 1. simpl. by rewrite lookup_insert_eq.
Qed.

Lemma onNext_active sub s v st :
  subscriptions st !! sub = Some s → isStopped s = false →
  observer_onNext sub v st
  = set_subscriptions <[sub := {| sub_message := sub_message s; isStopped := false;
                                   seen := seen s ++ [OnNext v] |}]> st.
Proof.
  intros Hs Hst. unfold observer_onNext. rewrite Hs, Hst. unfold tell, set_subscriptions.
  by rewrite (alter_as_insert _ _ _ _ Hs), Hst.
Qed.

(** X14: an observable that is subscribed to twice sends its request
    twice, under the one identifier, and both subscribers are told each
    value.  Unsubscribing the first removes the listeners of both: the
    second subscription is not stopped, and yet every later frame of the
    stream is dropped. *)
Theorem unsubscribing_one_silences_the_other st o m v :
  observables st !! o = Some m →
  listeners (pretty (message_requestId m)) st = [] →
  ∃ st2 st3 st4,
    run [Subscribe o; Subscribe o] st = st2 ∧
    _socket st2 = _socket st ++ [m; m] ∧
    listeners (pretty (message_requestId m)) st2
      = [ObserverListener (length (subscriptions st));
         ObserverListener (S (length (subscriptions st)))] ∧
    step (SocketMessage (frame (message_requestId m) false JUndefined (next v))) st2
      = Normal ReturnedUndefined st3 ∧
    subscriptions st3
      = subscriptions st
        ++ [{| sub_message := m; isStopped := false; seen := [OnNext v] |};
            {| sub_message := m; isStopped := false; seen := [OnNext v] |}] ∧
    step (Unsubscribe (length (subscriptions st))) st3 = Normal ReturnedUndefined st4 ∧
    subscriptions st4
      = subscriptions st
        ++ [{| sub_message := m; isStopped := true; seen := [OnNext v] |};
            {| sub_message := m; isStopped := false; seen := [OnNext v] |}] ∧
    _socket st4 = _socket st ++ [m; m; DisposeObservable (message_requestId m)] ∧
    listeners (pretty (message_requestId m)) st4 = [] ∧
    ∀ h e res,
      step (SocketMessage (frame (message_requestId m) h e res)) st4
        = Normal ReturnedUndefined st4.
Proof.
  intros Ho Hl. set (r := message_requestId m) in *.
  set (a := length (subscriptions st)).
  destruct (subscribe_unfold o m st Ho) as (st1 & S1 & L1 & B1 & K1 & O1).
  rewrite <- O1 in Ho.
  destruct (subscribe_unfold o m st1 Ho) as (st2 & S2 & L2 & B2 & K2 & O2).
  fold r in L1, L2. rewrite Hl in L1. rewrite L1 in L2. simpl in L1, L2.
  rewrite B1 in B2. rewrite B1, length_app in L2. simpl in L2.
  replace (length (subscriptions st) + 1)%nat with (S a) in L2 by (subst a; lia).
  rewrite <- app_assoc in B2. simpl in B2. rewrite K1, <- app_assoc in K2. simpl in K2.
  fold a in L2.
  assert (∀ (l : list Subscription) x y,
            length l = a → (l ++ [x; y]) !! a = Some x ∧ (l ++ [x; y]) !! S a = Some y)
    as Hlook.
  { intros l x y <-. split.
    - by rewrite lookup_app_r, Nat.sub_diag by lia.
    - rewrite lookup_app_r by lia.
      by replace (S (length l) - length l)%nat with 1%nat by lia. }
  assert (∀ (l : list Subscription) z x y,
            length l = a → <[a := z]> (l ++ [x; y]) = l ++ [z; y]) as Hins0.
  { intros l z x y <-. rewrite insert_app_r_alt by lia. by rewrite Nat.sub_diag. }
  assert (∀ (l : list Subscription) z x y,
            length l = a → <[S a := z]> (l ++ [x; y]) = l ++ [x; z]) as Hins1.
  { intros l z x y <-. rewrite insert_app_r_alt by lia.
    by replace (S (length l) - length l)%nat with 1%nat by lia. }
  set (sv := {| sub_message := m; isStopped := false; seen := [OnNext v] |}).
  set (st3 := observer_onNext (S a) v (observer_onNext a v st2)).
  assert (subscriptions st3 = subscriptions st ++ [sv; sv]) as B3.
  { subst st3.
    destruct (Hlook (subscriptions st)
                {| sub_message := m; isStopped := false; seen := [] |}
                {| sub_message := m; isStopped := false; seen := [] |} eq_refl) as [Ha Hb].
    rewrite <- B2 in Ha, Hb.
    rewrite (onNext_active a _ v st2 Ha) by done. simpl.
    rewrite (onNext_active (S a) {| sub_message := m; isStopped := false; seen := [] |}).
    - simpl. rewrite B2. by rewrite Hins0, Hins1.
    - simpl. rewrite B2, Hins0 by done. by apply Hlook.
    - done. }
  assert (_socket st3 = _socket st2 ∧ _emitter st3 = _emitter st2) as [K3 E3].
  { subst st3. unfold observer_onNext. simpl.
    destruct (subscriptions st2 !! a) as [x|]; [destruct (isStopped x)|]; simpl;
      (destruct (_ !! S a) as [y|]; [destruct (isStopped y)|]); done. }
  set (st4 := unsubscribe a st3).
  assert (st4 = dispose m (stop a st3)) as H4.
  { subst st4. unfold unsubscribe.
    destruct (Hlook (subscriptions st) sv sv eq_refl) as [Ha _]. rewrite <- B3 in Ha.
    by rewrite Ha. }
  assert (listeners (pretty r) st4 = []) as L4.
  { rewrite H4. unfold dispose. rewrite listeners_socket_send. apply listeners_removeAll_eq. }
  exists st2, st3, st4. split_and!.
  - rewrite !run_cons, S1. cbn [state_of]. by rewrite S2.
  - done.
  - done.
  - rewrite step_frame. unfold emit. fold r. by rewrite L2.
  - done.
  - done.
  - rewrite H4. simpl. rewrite B3.
    destruct (Hlook (subscriptions st) sv sv eq_refl) as [Ha _].
    rewrite (alter_as_insert _ _ _ _ Ha). by rewrite Hins0.
  - rewrite H4. simpl. rewrite K3, K2, <- app_assoc. done.
  - done.
  - intros h e res. apply (frame_dropped _ r); [apply frame_channel|done|done].
Qed.

(** ** What is sent *)


Lemma disposals_app_other sent m :
  disposals_follow_requests sent → (∀ r, m ≠ DisposeObservable r) →
  disposals_follow_requests (sent ++ [m]).
Proof.
  intros D Hm i r Hi. apply lookup_app_Some in Hi as [Hi|[_ Hi]].
  - destruct (D _ _ Hi) as (j & m' & Hj & Hm' & ? & ?). exists j, m'.
    split_and!; try done. by apply lookup_app_l_Some.
  - apply list_lookup_singleton_Some in Hi as [_ ->]. by destruct (Hm r).
Qed.

Lemma disposals_app_dispose sent m :
  disposals_follow_requests sent → m ∈ sent → is_request m →
  disposals_follow_requests (sent ++ [DisposeObservable (message_requestId m)]).
Proof.
  intros D Hm Hreq i r Hi. apply lookup_app_Some in Hi as [Hi|[Hlen Hi]].
  - destruct (D _ _ Hi) as (j & m' & Hj & Hm' & ? & ?). exists j, m'.
    split_and!; try done. by apply lookup_app_l_Some.
  - apply list_lookup_singleton_Some in Hi as [_ [= <-]].
    apply list_elem_of_lookup in Hm as [j Hj]. exists j, m.
    split_and!; try done.
    + pose proof (lookup_lt_Some _ _ _ Hj). lia.
    + by apply lookup_app_l_Some.
Qed.

Lemma is_request_not_disposal m r : is_request m → m ≠ DisposeObservable r.
Proof. by destruct m. Qed.

Lemma disposals_stop f sub s st :
  inv_streams st → subscriptions st !! sub = Some s →
  disposals_follow_requests (_socket st) →
  disposals_follow_requests
    (_socket (dispose (sub_message s) (set_subscriptions f st))).
Proof.
  intros [_ R _] E D. simpl.
  destruct (R s) as [Hreq Hin]; [by eapply list_elem_of_lookup_2|].
  by apply disposals_app_dispose.
Qed.

Lemma disposals_call_listener name l h e res st :
  inv_streams st → disposals_follow_requests (_socket st) →
  disposals_follow_requests (_socket (state_of (call_listener name l h e res st))).
Proof.
  intros I D.
  assert (∀ q n, disposals_follow_requests (_socket (observer_finish q n st))) as Hfin.
  { intros q n. unfold observer_finish. destruct (subscriptions st !! q) as [s|] eqn:E; [|done].
    destruct (isStopped s); [done|]. by apply (disposals_stop _ q s). }
  destruct l as [p|q]; simpl.
  - destruct h; rewrite socket_settle; unfold removeListener;
      by destruct (remove_first _ _).
  - destruct h; simpl; [apply Hfin|].
    destruct (truthy res); simpl; [|done].
    destruct (strict_eq_str (js_prop res "type") "completed"); simpl; [apply Hfin|].
    destruct (strict_eq_str (js_prop res "type") "next"); simpl; [|done].
    unfold observer_onNext. destruct (subscriptions st !! q) as [s|]; [|done].
    by destruct (isStopped s).
Qed.

Lemma disposals_step ev st :
  inv_streams st → disposals_follow_requests (_socket st) →
  disposals_follow_requests (_socket (state_of (step ev st))).
Proof.
  intros I D. pose proof I as [J R O].
  destruct (request_of ev (_rpcRequestId st)) as [[[m0 rt0] text0]|] eqn:E0.
  { destruct (step_call _ _ _ _ _ E0) as [_ ->].
    assert (∀ r, m0 ≠ DisposeObservable r) as Hm0.
    { intros r ->. destruct ev; simpl in E0; done. }
    destruct rt0; simpl; try done; by apply disposals_app_other. }
  destruct ev as [f rt args|o m rt args|i args|o|o|sub|message|k]; try done; simpl.
  - unfold subscribe. destruct (observables st !! o) as [m|] eqn:E; [|done]. simpl.
    apply disposals_app_other; [done|]. intros r.
    apply is_request_not_disposal, O. by eapply list_elem_of_lookup_2.
  - unfold unsubscribe. destruct (subscriptions st !! sub) as [s|] eqn:E; [|done].
    destruct (isStopped s); [done|]. by apply (disposals_stop _ sub s).
  - unfold Client._handleSocketMessage. destruct (strict_eq_str _ _); [|done].
    destruct (requestId message) as [r|]; [|done]. unfold emit.
    apply (emit_to_preserves
             (λ st, inv_streams st ∧ disposals_follow_requests (_socket st))); [|done].
    intros l st0 _ [I0 D0]. split;
      [by apply streams_call_listener|by apply disposals_call_listener].
  - destruct (timers st !! k) as [t|]; [|done]. simpl. unfold Client.on_timeout.
    by rewrite socket_settle.
Qed.

(** X15: the client sends a [DisposeObservable] frame only for a stream
    it has asked for: among the frames sent, each one comes after the
    request of an observable call with the same identifier. *)
Theorem disposal_follows_its_request st i r :
  reachable st → _socket st !! i = Some (DisposeObservable r) →
  ∃ j m, (j < i)%nat ∧ _socket st !! j = Some m ∧ is_request m ∧
         message_requestId m = r.
Proof.
  intros [evs ->]. revert i r.
  change (disposals_follow_requests (_socket (run evs constructor))).
  assert (inv_streams (run evs constructor)
          ∧ disposals_follow_requests (_socket (run evs constructor))) as [_ H]; [|done].
  induction evs as [|ev evs [I D]] using rev_ind.
  - split; [apply streams_constructor|]. intros i r Hi. simpl in Hi.
    by rewrite lookup_nil in Hi.
  - rewrite run_snoc. split; [by apply streams_step|by apply disposals_step].
Qed.

End Steps.

Lemma counter_witness :
  _rpcRequestId constructor + calls run_out_of_order ≤ MAX_EXACT ∧
  _rpcRequestId (after run_out_of_order) = 1 + 2.
Proof.
  assert (_rpcRequestId constructor + calls run_out_of_order ≤ MAX_EXACT) as H
    by (by vm_compute).
  split; [exact H|].
  exact (counter_counts_calls rpc_channel example_timeout run_out_of_order constructor H).
Defined.

Lemma void_call_witness :
  reachable rpc_channel example_timeout (after []) ∧
  _socket (after [call_log]) = [FunctionCall "log" 1 [JStr "x"]] ∧
  promises (after [call_log]) = [] ∧ timers (after [call_log]) = [] ∧
  step rpc_channel example_timeout
    (SocketMessage (frame rpc_channel 1 true (JStr "boom") JUndefined))
    (after [call_log; call_add])
  = Normal ReturnedUndefined (after [call_log; call_add]).
Proof.
  split; [apply after_is_reachable|].
  destruct (void_call_is_never_answered rpc_channel example_timeout (after []) call_log
              (FunctionCall "log" 1 [JStr "x"]) "Calling function log" [call_add]
              (frame rpc_channel 1 true (JStr "boom") JUndefined)
              (after_is_reachable _))
    as (_ & H2 & _ & H4 & H5 & H6).
  - by vm_compute.
  - reflexivity.
  - reflexivity.
  - reflexivity.
  - split_and!; [exact H2|exact H4|exact H5|exact H6].
Defined.

Lemma reply_witness :
  reachable rpc_channel example_timeout (after run_two_calls) ∧
  PromiseListener 0 ∈ listeners (pretty 1) (after run_two_calls) ∧
  ∃ st',
    step rpc_channel example_timeout (SocketMessage (reply 1 (JNum 5)))
      (after run_two_calls) = Normal ReturnedUndefined st' ∧
    promises st' !! 0%nat = Some (Resolved (JNum 5)) ∧
    promises st' !! 1%nat = Some Pending ∧
    timers st' = timers (after run_two_calls).
Proof.
  assert (PromiseListener 0 ∈ listeners (pretty 1) (after run_two_calls)) as Hin.
  { vm_compute. by left. }
  split; [apply after_is_reachable|]. split; [exact Hin|].
  destruct (reply_settles_only_its_call rpc_channel example_timeout (after run_two_calls)
              1 0 (reply 1 (JNum 5)) (after_is_reachable _))
    as (st' & H1 & H2 & H3 & _ & _ & H6 & _).
  - by vm_compute.
  - exact Hin.
  - reflexivity.
  - reflexivity.
  - exists st'. split_and!; [exact H1|exact H2| |exact H6].
    by rewrite (H3 1%nat).
Defined.

Lemma late_timer_witness :
  reachable rpc_channel example_timeout (after run_answered) ∧
  promises (after run_answered) !! 0%nat = Some (Resolved (JNum 5)) ∧
  ∃ st',
    step rpc_channel example_timeout (Timeout 0) (after run_answered)
      = Normal ReturnedUndefined st' ∧
    timers st' = [] ∧
    promises st' = promises (after run_answered).
Proof.
  split; [apply after_is_reachable|]. split; [by vm_compute|].
  destruct (late_timer_changes_nothing rpc_channel example_timeout (after run_answered) 0
              {| timer_requestId := 1; timer_promise := 0;
                 timer_message := "Calling function add" |}
              (Resolved (JNum 5)) (after_is_reachable _))
    as (st' & H1 & H2 & H3 & _).
  - by vm_compute.
  - by vm_compute.
  - by vm_compute.
  - done.
  - exists st'. split_and!; [exact H1| |exact H3]. by rewrite H2.
Defined.

Lemma stream_witness :
  reachable rpc_channel example_timeout (after run_watching) ∧
  listeners (pretty 1) (after run_watching) = [ObserverListener 0] ∧
  subscriptions
    (run rpc_channel example_timeout
       [SocketMessage (frame rpc_channel 1 false JUndefined (next (JStr "a")));
        SocketMessage (frame rpc_channel 1 false JUndefined (next (JStr "b")))]
       (after run_watching))
  = [{| sub_message := FunctionCall "watch" 1 []; isStopped := false;
        seen := [OnNext (JStr "a"); OnNext (JStr "b")] |}].
Proof.
  assert (listeners (pretty 1) (after run_watching) = [ObserverListener 0]) as Hl
    by (by vm_compute).
  split; [apply after_is_reachable|]. split; [exact Hl|].
  destruct (stream_values_arrive_in_order rpc_channel example_timeout (after run_watching)
              1 0 [JStr "a"; JStr "b"] (after_is_reachable _) Hl)
    as (s & Hs & _ & H & _).
  assert (s = {| sub_message := FunctionCall "watch" 1 []; isStopped := false;
                 seen := [] |}) as ->.
  { vm_compute in Hs. by injection Hs as <-. }
  exact H.
Defined.

Lemma ended_stream_witness :
  reachable rpc_channel example_timeout (after run_watching) ∧
  ∃ st',
    step rpc_channel example_timeout
      (SocketMessage (frame rpc_channel 1 false JUndefined completed)) (after run_watching)
      = Normal ReturnedUndefined st' ∧
    _socket st' = [FunctionCall "watch" 1 []; DisposeObservable 1] ∧
    listeners (pretty 1) st' = [].
Proof.
  split; [apply after_is_reachable|].
  destruct (ended_stream_is_disposed rpc_channel example_timeout (after run_watching)
              1 0 false JUndefined completed (after_is_reachable _))
    as (s & st' & _ & H1 & _ & H3 & H4 & _).
  - by vm_compute.
  - right. split; reflexivity.
  - exists st'. split_and!; [exact H1|exact H3|exact H4].
Defined.

Lemma malformed_frame_witness :
  reachable rpc_channel example_timeout (after run_watching) ∧
  ObserverListener 0 ∈ listeners (pretty 1) (after run_watching) ∧
  step rpc_channel example_timeout
    (SocketMessage (frame rpc_channel 1 false JUndefined JUndefined)) (after run_watching)
  = Thrown AssertionError (after run_watching).
Proof.
  assert (ObserverListener 0 ∈ listeners (pretty 1) (after run_watching)) as Hin.
  { vm_compute. by left. }
  split; [apply after_is_reachable|]. split; [exact Hin|].
  apply (proj1 (malformed_stream_frames rpc_channel example_timeout (after run_watching)
                  1 0 JUndefined JUndefined (after_is_reachable _)
                  ltac:(by vm_compute) Hin)).
  reflexivity.
Defined.

Lemma two_subscribers_witness :
  observables (after [call_watch]) !! 0%nat = Some (FunctionCall "watch" 1 []) ∧
  ∃ st3 st4,
    step rpc_channel example_timeout
      (SocketMessage (frame rpc_channel 1 false JUndefined (next (JStr "a"))))
      (after [call_watch; Subscribe 0; Subscribe 0]) = Normal ReturnedUndefined st3 ∧
    step rpc_channel example_timeout (Unsubscribe 0) st3 = Normal ReturnedUndefined st4 ∧
    subscriptions st4
      = [{| sub_message := FunctionCall "watch" 1 []; isStopped := true;
            seen := [OnNext (JStr "a")] |};
         {| sub_message := FunctionCall "watch" 1 []; isStopped := false;
            seen := [OnNext (JStr "a")] |}] ∧
    listeners (pretty 1) st4 = [].
Proof.
  split; [reflexivity|].
  destruct (unsubscribing_one_silences_the_other rpc_channel example_timeout
              (after [call_watch]) 0 (FunctionCall "watch" 1 []) (JStr "a"))
    as (st2 & st3 & st4 & H1 & _ & _ & H4 & _ & H6 & H7 & _ & H9 & _).
  - reflexivity.
  - reflexivity.
  - exists st3, st4. rewrite <- H1 in H4. split_and!; [exact H4|exact H6|exact H7|exact H9].
Defined.

Lemma disposal_witness :
  reachable rpc_channel example_timeout (after run_unsubscribed) ∧
  _socket (after run_unsubscribed) !! 1%nat = Some (DisposeObservable 1) ∧
  ∃ j m, (j < 1)%nat ∧ _socket (after run_unsubscribed) !! j = Some m ∧
         is_request m ∧ message_requestId m = 1.
Proof.
  split; [apply after_is_reachable|]. split; [reflexivity|].
  apply (disposal_follows_its_request rpc_channel example_timeout
           (after run_unsubscribed) 1 1 (after_is_reachable _)).
  reflexivity.
Defined.

End ClientExtra.

(** * Properties of the registry of remote objects *)

Module ObjectRegistryTheory.
Import ObjectRegistry.

Lemma registry_ok_empty : registry_ok empty.
Proof. split; intros *; simpl; by rewrite lookup_empty. Qed.

Lemma registry_ok_unmarshal name k reg :
  registry_ok reg → registry_ok (unmarshal name k reg).2.
Proof.
  intros [I A D]. unfold unmarshal.
  destruct (_objectRegistry reg !! k) as [o|] eqn:E; [by split|]. split; simpl.
  - intros k' o'. destruct (decide (k = k')) as [<-|Hne].
    + rewrite lookup_insert_eq. by intros [= <-].
    + rewrite lookup_insert_ne by done. apply I.
  - intros k' o'. destruct (decide (k = k')) as [<-|Hne].
    + rewrite lookup_insert_eq. intros [= <-]. simpl. lia.
    + rewrite lookup_insert_ne by done. intros H. specialize (A _ _ H). lia.
  - intros k1 k2 o1 o2.
    destruct (decide (k = k1)) as [<-|H1]; destruct (decide (k = k2)) as [<-|H2];
      rewrite ?lookup_insert_eq, ?lookup_insert_ne by done; try done.
    + intros [= <-] H Heq. simpl in Heq. specialize (A _ _ H). lia.
    + intros H [= <-] Heq. simpl in Heq. specialize (A _ _ H). lia.
    + apply D.
Qed.

Lemma unmarshal_all_snoc calls c reg :
  unmarshal_all (calls ++ [c]) reg = (unmarshal c.1 c.2 (unmarshal_all calls reg)).2.
Proof. unfold unmarshal_all. by rewrite foldl_app. Qed.

Lemma reachable_ok reg : reachable reg → registry_ok reg.
Proof.
  intros [calls ->]. induction calls as [|c calls IH] using rev_ind.
  - apply registry_ok_empty.
  - rewrite unmarshal_all_snoc. by apply registry_ok_unmarshal.
Qed.

Lemma unmarshal_keeps name k reg k' o :
  _objectRegistry reg !! k' = Some o →
  _objectRegistry (unmarshal name k reg).2 !! k' = Some o.
Proof.
  intros H. unfold unmarshal. destruct (_objectRegistry reg !! k) as [o0|] eqn:E; [done|].
  simpl. rewrite lookup_insert_ne; [done|]. intros ->. congruence.
Qed.

(** X16: unmarshalling an object id gives a proxy that marshals back to
    that id.  The proxy is cached under the id alone: unmarshalling the
    id again, for whatever interface and after any other ids, returns
    the very same object, with the prototype of the interface that
    unmarshalled it first; and different ids never share a proxy. *)
Theorem unmarshal_is_cached_and_round_trips reg name k calls name' k' :
  reachable reg →
  let '(o, reg1) := unmarshal name k reg in
  let '(o', reg2) := unmarshal name' k (unmarshal_all calls reg1) in
  marshal o = k ∧
  o' = o ∧ reg2 = unmarshal_all calls reg1 ∧
  (_objectRegistry reg !! k = None → prototype o = name) ∧
  (k' ≠ k → identity (unmarshal name' k' reg1).1 ≠ identity o).
Proof.
  intros Hreach. pose proof (reachable_ok _ Hreach) as Hok.
  destruct (unmarshal name k reg) as [o reg1] eqn:E1.
  assert (_objectRegistry reg1 !! k = Some o) as Hin.
  { unfold unmarshal in E1. destruct (_objectRegistry reg !! k) as [o0|] eqn:E.
    - by injection E1 as <- <-.
    - injection E1 as <- <-. simpl. by rewrite lookup_insert_eq. }
  assert (registry_ok reg1) as Hok1.
  { replace reg1 with (unmarshal name k reg).2 by by rewrite E1.
    by apply registry_ok_unmarshal. }
  assert (_objectRegistry (unmarshal_all calls reg1) !! k = Some o) as Hkept.
  { induction calls as [|c calls IH] using rev_ind; [done|].
    rewrite unmarshal_all_snoc. by apply unmarshal_keeps. }
  unfold unmarshal at 1. rewrite Hkept. split_and!; try done.
  - by apply (ok_id _ Hok1).
  - intros Hnone. unfold unmarshal in E1. rewrite Hnone in E1. by injection E1 as <- _.
  - intros Hne Heq. unfold unmarshal in Heq.
    destruct (_objectRegistry reg1 !! k') as [o1|] eqn:E'; simpl in Heq.
    + by apply Hne, (ok_distinct _ Hok1 _ _ _ _ E' Hin).
    + pose proof (ok_allocated _ Hok1 _ _ Hin). lia.
Qed.

Lemma unmarshal_witness :
  reachable empty ∧
  marshal (unmarshal "Foo" 7 empty).1 = 7 ∧
  (unmarshal "Bar" 7 (unmarshal_all [("Bar"%string, 8)] (unmarshal "Foo" 7 empty).2)).1
    = {| identity := 0; _idPromise := 7; prototype := "Foo" |}.
Proof.
  assert (reachable empty) as Hreach by by exists [].
  split; [exact Hreach|].
  pose proof (unmarshal_is_cached_and_round_trips empty "Foo" 7 [("Bar"%string, 8)]
                "Bar" 8 Hreach) as H.
  destruct (unmarshal "Foo" 7 empty) as [o reg1] eqn:E1. cbn [fst snd].
  destruct (unmarshal "Bar" 7 (unmarshal_all [("Bar"%string, 8)] reg1)) as [o' reg2] eqn:E2.
  destruct H as (H1 & H2 & _). cbn [fst snd]. split; [exact H1|].
  rewrite H2. vm_compute in E1. by injection E1 as <- _.
Defined.

End ObjectRegistryTheory.

(** * Properties of the service registry *)

Module ServicesTheory.
Import Services.

Lemma registry_get_insert_eq name f st :
  registry_get name (set_serviceRegistry <[name := f]> st) = Some (Own f).
Proof. unfold registry_get. simpl. by rewrite lookup_insert_eq. Qed.

Lemma registry_get_insert_ne name name' f st :
  name ≠ name' →
  registry_get name' (set_serviceRegistry <[name := f]> st) = registry_get name' st.
Proof. intros Hne. unfold registry_get. simpl. by rewrite lookup_insert_ne. Qed.

Lemma registry_get_use name m st : registry_get name (use m st) = registry_get name st.
Proof. done. Qed.

Lemma upper_lower_char c : upper_char (lower_char c) = upper_char c.
Proof.
  destruct c as [[] [] [] [] [] [] [] []]; vm_compute; reflexivity.
Qed.

Lemma toUpperCase_toLowerCase s : toUpperCase (toLowerCase s) = toUpperCase s.
Proof. induction s as [|c s IH]; simpl; [done|]. by rewrite upper_lower_char, IH. Qed.

(** What a registration does to the registry, whatever becomes of the
    route. *)
Lemma register_registry name f method isText st :
  _serviceRegistry (registration_state (_registerService name f method isText st))
  = match registry_get name st with
    | Some _ => _serviceRegistry st
    | None => <[name := f]> (_serviceRegistry st)
    end.
Proof.
  unfold _registerService, _registerHttpService.
  destruct (registry_get name st); [done|]. by case_bool_decide.
Qed.

(** X17: a service registered under a free name is the one that
    [callService] applies from then on, to the arguments it is given,
    whatever the method of the registration; calls of the other names
    are as before.  A name that is not registered, and is not a member
    of [Object.prototype], makes [callService] throw an error that names
    it. *)
Theorem registered_service_is_called st name (f : Service) method isText args :
  registry_get name st = None →
  let st' := registration_state (_registerService name f method isText st) in
  callService name args st
    = Raised (Error ("No service registered with name: " +:+ name)) ∧
  callService name args st' = Applied (f args) ∧
  (∀ name', name' ≠ name → callService name' args st' = callService name' args st).
Proof.
  intros Hfree. simpl. split_and!.
  - unfold callService. by rewrite Hfree.
  - unfold callService, registry_get. rewrite register_registry, Hfree.
    by rewrite lookup_insert_eq.
  - intros name' Hne. unfold callService, registry_get.
    rewrite register_registry, Hfree. by rewrite lookup_insert_ne.
Qed.

(** X18: the first registration of a name wins.  Registering a name
    that is taken, by a service or by a member of [Object.prototype],
    throws an error whose message does not say which name it was, and
    changes nothing; so through any sequence of registrations a
    registered service stays the one that is called. *)
Theorem first_registration_wins st name (f : Service) rs :
  _serviceRegistry st !! name = Some f →
  (∀ g method isText,
     _registerService name g method isText st
     = Thrown (Error "A service with this name is already registered:") st) ∧
  ∀ args, callService name args (register_all rs st) = Applied (f args).
Proof.
  intros Hf. split.
  - intros g method isText. unfold _registerService, registry_get. by rewrite Hf.
  - intros args. unfold callService, registry_get.
    assert (_serviceRegistry (register_all rs st) !! name = Some f) as ->; [|done].
    revert st Hf. induction rs as [|r rs IH]; intros st Hf; [done|].
    apply IH. rewrite register_registry.
    destruct (registry_get _ st) eqn:E; [done|].
    rewrite lookup_insert_ne; [done|]. intros Heq. rewrite Heq in E.
    unfold registry_get in E. by rewrite Hf in E.
Qed.

(** X19: a service registered under a free name with one of the methods
    get, post, delete and put, in any letter case, gets a route on the
    application.  The handler of the route passes a request of another
    method on; for a request of its method, compared without regard to
    case, it answers with what the service returns for the arguments of
    the request, a text route sending the empty string in place of a
    falsy result, and it hands the failure of the service to the next
    error handler. *)
Theorem registered_route_serves_the_service st name (f : Service) method isText request :
  registry_get name st = None → toLowerCase method ∈ methods →
  ∃ st',
    _registerService name f method isText st = Registered st' ∧
    _app st' = _app st ++ [ServiceRoute name (toLowerCase method) isText] ∧
    service_handler name (toLowerCase method) isText request st'
    = if bool_decide (toUpperCase (req_method request) = toUpperCase method)
      then match f (req_args request) with
           | Returns result =>
               if isText then SendText (if truthy result then result else JStr "")
               else SendJson result
           | Fails e => NextError (inr e)
           end
      else Next.
Proof.
  intros Hfree Hm. eexists. split_and!.
  - unfold _registerService, _registerHttpService. rewrite Hfree.
    by rewrite bool_decide_eq_true_2.
  - done.
  - unfold service_handler, callService. rewrite toUpperCase_toLowerCase.
    rewrite registry_get_use, registry_get_insert_eq.
    case_bool_decide; [by rewrite bool_decide_eq_false_2|].
    rewrite bool_decide_eq_true_2 by by destruct (decide (toUpperCase (req_method request)
                                                        = toUpperCase method)).
    done.
Qed.

Lemma slash_not_inherited s : registry_get ("/" +:+ s)
    {| _serviceRegistry := ∅; _app := []; _version := "" |} = None.
Proof.
  unfold registry_get. simpl. by rewrite lookup_empty.
Qed.

(** X20: setting up the services of a server leaves exactly one service,
    the heartbeat: [callService] on ['/' + HEARTBEAT_CHANNEL] returns the
    version of the server for any arguments, its route answers POST
    requests with the version as text, the error handler comes after it
    on the application, and a later registration under the heartbeat's
    name throws. *)
Theorem setup_registers_the_heartbeat HEARTBEAT_CHANNEL st :
  ∃ st',
    _setupServices HEARTBEAT_CHANNEL st = Registered st' ∧
    _version st' = _version st ∧
    (∀ args, callService ("/" +:+ HEARTBEAT_CHANNEL) args st'
             = Applied (Returns (JStr (_version st)))) ∧
    (∀ name args, name ≠ "/" +:+ HEARTBEAT_CHANNEL → name ∉ Object_prototype →
       callService name args st'
       = Raised (Error ("No service registered with name: " +:+ name))) ∧
    _app st' = _app st ++ [ServiceRoute ("/" +:+ HEARTBEAT_CHANNEL) "post" true;
                           ErrorHandler] ∧
    (∀ args, service_handler ("/" +:+ HEARTBEAT_CHANNEL) "post" true
               {| req_method := "POST"; req_args := args |} st'
             = SendText (JStr (_version st))) ∧
    (∀ g method isText,
       _registerService ("/" +:+ HEARTBEAT_CHANNEL) g method isText st'
       = Thrown (Error "A service with this name is already registered:") st').
Proof.
  assert (∀ st0 : NuclideServer, _serviceRegistry st0 = ∅ →
            registry_get ("/" +:+ HEARTBEAT_CHANNEL) st0 = None) as Hfree.
  { intros st0 H0. generalize (slash_not_inherited HEARTBEAT_CHANNEL).
    unfold registry_get. simpl. by rewrite H0. }
  eexists. split.
  { unfold _setupServices, _setupHeartbeatHandler, _registerService, _registerHttpService.
    rewrite Hfree by done. simpl. reflexivity. }
  split_and!.
  - done.
  - intros args. unfold callService, registry_get. simpl. by rewrite lookup_insert_eq.
  - intros name args Hne Hni. unfold callService, registry_get. simpl.
    rewrite lookup_insert_ne by done. rewrite lookup_empty.
    by rewrite bool_decide_eq_false_2.
  - simpl. by rewrite <- app_assoc.
  - intros args. unfold service_handler, callService, registry_get. simpl.
    rewrite lookup_insert_eq. unfold truthy.
    case_bool_decide as Hv; simpl; [by rewrite Hv|done].
  - intros g method isText. unfold _registerService, registry_get. simpl.
    by rewrite lookup_insert_eq.
Qed.

Lemma registration_witness :
  registry_get "/echo" example_server = None ∧
  callService "/echo" [JNum 1] example_server
    = Raised (Error "No service registered with name: /echo") ∧
  callService "/echo" [JNum 1]
    (registration_state (_registerService "/echo" echo "GET" false example_server))
    = Applied (Returns (JNum 1)).
Proof.
  assert (registry_get "/echo" example_server = None) as Hfree by (by vm_compute).
  split; [exact Hfree|].
  destruct (registered_service_is_called example_server "/echo" echo "GET" false [JNum 1]
              Hfree) as (H1 & H2 & _).
  split; [exact H1|exact H2].
Defined.

Lemma first_registration_witness :
  _serviceRegistry (registration_state
                      (_registerService "/echo" echo "GET" false example_server))
    !! "/echo"%string = Some echo ∧
  callService "/echo" [JNum 1]
    (register_all [{| reg_name := "/echo"; reg_function := λ _, Returns JNull;
                      reg_method := "POST"; reg_text := true |}]
       (registration_state (_registerService "/echo" echo "GET" false example_server)))
  = Applied (Returns (JNum 1)).
Proof.
  assert (_serviceRegistry (registration_state
                              (_registerService "/echo" echo "GET" false example_server))
            !! "/echo"%string = Some echo) as Hin by (by vm_compute).
  split; [exact Hin|].
  exact (proj2 (first_registration_wins _ "/echo" echo
                  [{| reg_name := "/echo"; reg_function := λ _, Returns JNull;
                      reg_method := "POST"; reg_text := true |}] Hin) [JNum 1]).
Defined.

Lemma route_witness :
  registry_get "/echo" example_server = None ∧
  toLowerCase "Get" ∈ methods ∧
  ∃ st',
    _registerService "/echo" echo "Get" true example_server = Registered st' ∧
    service_handler "/echo" "get" true {| req_method := "GET"; req_args := [JNum 0] |} st'
      = SendText (JStr "") ∧
    service_handler "/echo" "get" true {| req_method := "POST"; req_args := [JNum 0] |} st'
      = Next.
Proof.
  assert (registry_get "/echo" example_server = None) as Hfree by (by vm_compute).
  assert (toLowerCase "Get" ∈ methods) as Hm by (vm_compute; by left).
  split; [exact Hfree|]. split; [exact Hm|].
  destruct (registered_route_serves_the_service example_server "/echo" echo "Get" true
              {| req_method := "GET"; req_args := [JNum 0] |} Hfree Hm)
    as (st' & H1 & _ & H3).
  exists st'. split; [exact H1|]. split; [exact H3|].
  destruct (registered_route_serves_the_service example_server "/echo" echo "Get" true
              {| req_method := "POST"; req_args := [JNum 0] |} Hfree Hm)
    as (st2 & H1' & _ & H3').
  rewrite H1 in H1'. injection H1' as <-. exact H3'.
Defined.

End ServicesTheory.

(** * Properties of the server process *)

Module ProcessTheory.
Import Process.

Lemma one_server_start : one_server start.
Proof.
  split; simpl.
  - done.
  - intros i Hi. by apply elem_of_nil in Hi.
  - intros i Hi. lia.
  - apply NoDup_nil_2.
Qed.

Lemma one_server_step ev p : one_server p → one_server (step ev p).
Proof.
  intros I. pose proof I as [C B R N].
  destruct ev as [options building|this closing]; simpl.
  - unfold new_NuclideServer. destruct (_theServer p) as [cur|] eqn:E; [exact I|].
    assert (∀ o, one_server {| _theServer := Some (length (servers p));
                               servers := servers p ++ [o];
                               released := released p; exited := exited p;
                               log := log p |}) as H.
    { intros o. split; simpl.
      + intros this [= <-]. rewrite length_app. simpl. lia.
      + intros i Hi. rewrite length_app. specialize (B _ Hi). lia.
      + intros i Hi. rewrite length_app in Hi. simpl in Hi.
        destruct (decide (i = length (servers p))) as [->|Hne].
        * right. split; [|done]. intros Hin. specialize (B _ Hin). lia.
        * left. destruct (R i) as [[? ?]|[? ?]]; [lia| |congruence].
          split; [done|]. intros [= Heq]. lia.
      + done. }
    destruct building; apply H.
  - unfold close. case_bool_decide as Hc; [|exact I].
    assert (one_server {| _theServer := None; servers := servers p;
                          released := released p ++ [this]; exited := exited p;
                          log := log p |}) as H.
    { split; simpl.
      - done.
      - intros i [Hi| ->%list_elem_of_singleton]%elem_of_app; [by apply B|by apply C].
      - intros i Hi. left. split; [|done]. apply elem_of_app.
        destruct (R i Hi) as [[? ?]|[? Hcur]]; [by left|]. right.
        apply list_elem_of_singleton. congruence.
      - apply NoDup_app. split_and!; [done| |apply NoDup_singleton].
        intros j Hj ->%list_elem_of_singleton.
        destruct (R this (C _ Hc)) as [[? ?]|[? ?]]; done. }
    by destruct closing.
Qed.

Lemma process_run_snoc evs ev p : run (evs ++ [ev]) p = step ev (run evs p).
Proof. unfold run. by rewrite foldl_app. Qed.

Lemma reachable_one_server p : reachable p → one_server p.
Proof.
  intros [evs ->]. induction evs as [|ev evs IH] using rev_ind.
  - apply one_server_start.
  - rewrite process_run_snoc. by apply one_server_step.
Qed.

(** X21: there is at most one current [NuclideServer] in a process.  In
    every state a program can reach by constructing and closing servers,
    each object the constructor was run on has been released by its
    [close], except the current one if there is one.  The constructor
    raises an AssertionError, changing nothing, when a server is
    current; otherwise it makes the new object the current server before
    it builds anything, so it returns the object when the building
    raises nothing, and when the building raises, the exception leaves
    the constructor with the unfinished object current: every later
    construction then raises an AssertionError until that object is
    closed.  [close] succeeds on the current server only, so a second
    [close] of a server raises an AssertionError and changes nothing,
    and after a [close] a server can be constructed again. *)
Theorem one_server_at_a_time p :
  reachable p →
  (∀ i, (i < length (servers p))%nat → _theServer p ≠ Some i → i ∈ released p) ∧
  (∀ options building,
     let p' := process_of (new_NuclideServer building options p) in
     match _theServer p, building with
     | Some _, _ => new_NuclideServer building options p = Thrown AssertionError p
     | None, None =>
         new_NuclideServer building options p = Normal (length (servers p)) p' ∧
         _theServer p' = Some (length (servers p)) ∧
         ∃ server, servers p' = servers p ++ [Some server]
     | None, Some e =>
         new_NuclideServer building options p = Thrown e p' ∧
         _theServer p' = Some (length (servers p)) ∧
         servers p' = servers p ++ [None] ∧
         (∀ options' building',
            new_NuclideServer building' options' p' = Thrown AssertionError p') ∧
         ∃ p'', close None (length (servers p)) p' = Normal () p'' ∧
                _theServer p'' = None
     end) ∧
  (∀ this, this ∈ released p → close None this p = Thrown AssertionError p) ∧
  (∀ this, _theServer p = Some this →
     ∃ p', close None this p = Normal () p' ∧ _theServer p' = None ∧
           close None this p' = Thrown AssertionError p' ∧
           ∀ options, ∃ p'', new_NuclideServer None options p'
                             = Normal (length (servers p)) p'').
Proof.
  intros Hreach. pose proof (reachable_one_server _ Hreach) as [C B R N]. split_and!.
  - intros i Hi Hne. destruct (R i Hi) as [[? ?]|[? ?]]; done.
  - intros options building. unfold new_NuclideServer.
    destruct (_theServer p); [done|]. destruct building as [e|]; simpl.
    + split_and!; [done..|]. eexists. unfold close. simpl.
      rewrite bool_decide_eq_true_2 by done. done.
    + split_and!; [done..|]. by eexists.
  - intros this Hin. unfold close. rewrite bool_decide_eq_false_2; [done|].
    intros Hcur. destruct (R this (C _ Hcur)) as [[? ?]|[? ?]]; done.
  - intros this Hcur. eexists. unfold close at 1. rewrite bool_decide_eq_true_2 by done.
    split_and!; [reflexivity|done|done|]. intros options. by eexists.
Qed.

(** X22: [shutdown] ends the process with exit code 0 in every case:
    when no server is current, when the current server closes, and when
    closing it raises, which is logged as an error and otherwise
    ignored; and it leaves no server current. *)
Theorem shutdown_exits_with_zero closing p :
  exited (shutdown closing p) = Some 0 ∧
  _theServer (shutdown closing p) = None ∧
  servers (shutdown closing p) = servers p ∧
  log (shutdown closing p)
  = log p ++ {| level := Info; text := "Shutting down the server"; params := [] |}
          :: match _theServer p, closing with
             | Some _, Some _ =>
                 [{| level := Err;
                     text := "Error while shutting down, but proceeding anyway:";
                     params := [] |}]
             | _, _ => []
             end.
Proof.
  unfold shutdown. simpl.
  destruct (_theServer p) as [this|] eqn:E; simpl.
  - unfold close. simpl. rewrite E, bool_decide_eq_true_2 by done.
    destruct closing; simpl; split_and!; try done; by rewrite <- app_assoc.
  - by rewrite E.
Qed.

Section Main.

Variable readFileSync : JsVal → option string.
Variable building : option Exn.
Variable listen_error : option JsVal.

Local Abbreviation main := (main readFileSync building listen_error).

(** X23: [main] starts an HTTPS server exactly when the key, the
    certificate and the authority certificate are all given, their files
    can be read, the constructor of the server raises nothing on what
    was read and the web server listens; it starts an HTTP server when
    one of the three is missing (no file is read then) and constructing
    and listening succeed.  In every other case it logs a fatal entry
    and ends the process with exit code 1: with no server constructed
    when a file cannot be read, with the unfinished server current when
    the constructor raises, and after an error entry of the socket
    server when the web server fails to listen. *)
Theorem main_serves_https_iff_all_three args p :
  _theServer p = None → exited p = None →
  let tls := truthy (arg_key args) && truthy (arg_cert args) && truthy (arg_ca args) in
  let readable :=
    bool_decide (is_Some (readFileSync (arg_key args))
                 ∧ is_Some (readFileSync (arg_cert args))
                 ∧ is_Some (readFileSync (arg_ca args))) in
  let fatal := {| level := Fatal; text := ""; params := [] |} in
  let started :=
    (negb tls || readable) && bool_decide (building = None)
    && bool_decide (listen_error = None) in
  exited (main args p) = (if started then None else Some 1) ∧
  (started = true →
     _theServer (main args p) = Some (length (servers p)) ∧
     servers (main args p)
       = servers p ++ [Some {| secure := tls; _port := arg_port args |}] ∧
     log (main args p)
       = log p ++ [{| level := Info;
                      text := "NuclideServer started on port "
                              +:+ pretty (arg_port args) +:+ ".";
                      params := [] |}]) ∧
  (tls && negb readable = true →
     _theServer (main args p) = None ∧ servers (main args p) = servers p ∧
     log (main args p) = log p ++ [fatal]) ∧
  (negb tls || readable = true → building ≠ None →
     _theServer (main args p) = Some (length (servers p)) ∧
     servers (main args p) = servers p ++ [None] ∧
     log (main args p) = log p ++ [fatal]) ∧
  (negb tls || readable = true → building = None → listen_error ≠ None →
     _theServer (main args p) = Some (length (servers p)) ∧
     servers (main args p)
       = servers p ++ [Some {| secure := tls; _port := arg_port args |}] ∧
     log (main args p)
       = log p ++ [{| level := Err; text := "WebSocketServer Error:"; params := [] |};
                   fatal]).
Proof.
  intros Hnone Hrun. simpl. unfold Process.main, new_NuclideServer. rewrite Hnone.
  destruct (truthy (arg_key args) && truthy (arg_cert args) && truthy (arg_ca args))
    eqn:Htls; simpl.
  - destruct (readFileSync (arg_key args)) as [key|] eqn:Hk;
      destruct (readFileSync (arg_cert args)) as [cert|] eqn:Hc;
      destruct (readFileSync (arg_ca args)) as [ca|] eqn:Ha;
      unfold bool_decide, decide_rel; simpl;
      destruct building, listen_error; simpl; rewrite <- ?app_assoc;
      split_and!; done.
  - destruct building, listen_error; simpl; rewrite ?Htls, <- ?app_assoc;
      split_and!; done.
Qed.

End Main.

Lemma one_server_witness :
  reachable (run [New plain_options None; Close 0 None] start) ∧
  new_NuclideServer None plain_options (run [New plain_options None] start)
    = Thrown AssertionError (run [New plain_options None] start) ∧
  new_NuclideServer (Some TypeError) plain_options start
    = Thrown TypeError (run [New plain_options (Some TypeError)] start) ∧
  new_NuclideServer None plain_options (run [New plain_options (Some TypeError)] start)
    = Thrown AssertionError (run [New plain_options (Some TypeError)] start) ∧
  close None 0 (run [New plain_options None; Close 0 None] start)
    = Thrown AssertionError (run [New plain_options None; Close 0 None] start).
Proof.
  assert (∀ evs, reachable (run evs start)) as Hreach by (intros evs; by exists evs).
  split; [apply Hreach|]. split_and!.
  - exact (proj1 (proj2 (one_server_at_a_time _ (Hreach [New plain_options None])))
             plain_options None).
  - exact (proj1 (proj1 (proj2 (one_server_at_a_time _ (Hreach [])))
             plain_options (Some TypeError))).
  - exact (proj1 (proj2 (proj2 (proj2
             (proj1 (proj2 (one_server_at_a_time _ (Hreach [])))
                plain_options (Some TypeError)))))
             plain_options None).
  - apply (proj1 (proj2 (proj2 (one_server_at_a_time _
             (Hreach [New plain_options None; Close 0 None]))))).
    vm_compute. by left.
Defined.

Lemma shutdown_witness :
  exited (shutdown (Some TypeError) (run [New plain_options None] start)) = Some 0 ∧
  _theServer (shutdown (Some TypeError) (run [New plain_options None] start)) = None.
Proof.
  destruct (shutdown_exits_with_zero (Some TypeError) (run [New plain_options None] start))
    as (H1 & H2 & _).
  split; [exact H1|exact H2].
Defined.

Lemma main_witness :
  exited (main example_fs None None
            {| arg_port := 9090; arg_key := JStr "key.pem"; arg_cert := JStr "cert.pem";
               arg_ca := JUndefined |} start) = None ∧
  servers (main example_fs None None
             {| arg_port := 9090; arg_key := JStr "key.pem"; arg_cert := JStr "cert.pem";
                arg_ca := JUndefined |} start)
    = [Some {| secure := false; _port := 9090 |}] ∧
  exited (main example_fs None None
            {| arg_port := 9090; arg_key := JStr "key.pem"; arg_cert := JStr "cert.pem";
               arg_ca := JStr "ca.pem" |} start) = Some 1 ∧
  exited (main example_fs (Some TypeError) None
            {| arg_port := 9090; arg_key := JStr "key.pem"; arg_cert := JStr "cert.pem";
               arg_ca := JUndefined |} start) = Some 1 ∧
  _theServer (main example_fs (Some TypeError) None
                {| arg_port := 9090; arg_key := JStr "key.pem";
                   arg_cert := JStr "cert.pem"; arg_ca := JUndefined |} start)
    = Some 0%nat.
Proof.
  destruct (main_serves_https_iff_all_three example_fs None None
              {| arg_port := 9090; arg_key := JStr "key.pem"; arg_cert := JStr "cert.pem";
                 arg_ca := JUndefined |} start eq_refl eq_refl) as (H1 & H2 & _).
  destruct (H2 eq_refl) as (_ & H3 & _).
  destruct (main_serves_https_iff_all_three example_fs None None
              {| arg_port := 9090; arg_key := JStr "key.pem"; arg_cert := JStr "cert.pem";
                 arg_ca := JStr "ca.pem" |} start eq_refl eq_refl) as (H4 & _).
  destruct (main_serves_https_iff_all_three example_fs (Some TypeError) None
              {| arg_port := 9090; arg_key := JStr "key.pem"; arg_cert := JStr "cert.pem";
                 arg_ca := JUndefined |} start eq_refl eq_refl) as (H5 & _ & _ & H6 & _).
  destruct (H6 eq_refl) as (H7 & _); [done|].
  split_and!; [exact H1|exact H3|exact H4|exact H5|exact H7].
Defined.

End ProcessTheory.

(** * Properties of the keys of the file tree *)

Module FileTreeTheory.
Import FileTreeHelpers.

Lemma append_cons c s t : String c s +:+ t = String c (s +:+ t).
Proof. done. Qed.

Lemma slice_last_cons c s :
  s ≠ EmptyString → slice_last (String c s) = slice_last s.
Proof. by destruct s. Qed.

Lemma slice_last_app s c : slice_last (s +:+ String c EmptyString) = String c EmptyString.
Proof.
  induction s as [|c' s IH]; [done|].
  change (String c' s +:+ String c EmptyString)
    with (String c' (s +:+ String c EmptyString)).
  rewrite slice_last_cons; [done|]. by destruct s.
Qed.

(** The stripped string does not end in a slash. *)
Lemma strip_no_trailing_slash s :
  slice_last (strip_trailing_slashes s) ≠ "/"%string.
Proof.
  induction s as [|c s IH]; simpl; [done|].
  destruct (strip_trailing_slashes s) as [|c' r] eqn:E.
  - case_bool_decide; simpl; [done|]. congruence.
  - rewrite slice_last_cons by done. exact IH.
Qed.

(** A string that does not end in a slash is left as it is. *)
Lemma strip_id s : slice_last s ≠ "/"%string → strip_trailing_slashes s = s.
Proof.
  induction s as [|c s IH]; simpl; [done|]. intros H.
  destruct s as [|c' s'].
  - simpl. rewrite bool_decide_eq_false_2; [done|]. intros ->. done.
  - rewrite IH by exact H. done.
Qed.

Lemma strip_only_slashes n : strip_trailing_slashes (slashes n) = EmptyString.
Proof. induction n as [|n IH]; simpl; [done|]. by rewrite IH. Qed.

(** The slashes at the end are what is removed: this is the match of
    [/\/+$/]. *)
Lemma strip_slashes s n :
  slice_last s ≠ "/"%string → strip_trailing_slashes (s +:+ slashes n) = s.
Proof.
  induction s as [|c s IH]; intros H.
  - apply strip_only_slashes.
  - destruct s as [|c' s'].
    + change (String c (slashes n)) with (String c (slashes n)).
      change (strip_trailing_slashes (String c "" +:+ slashes n))
        with (match strip_trailing_slashes (slashes n) with
              | EmptyString =>
                  if bool_decide (c = "/"%char) then EmptyString else String c EmptyString
              | r => String c r
              end).
      rewrite strip_only_slashes.
      rewrite bool_decide_eq_false_2; [done|]. intros ->. done.
    + change (strip_trailing_slashes (String c (String c' s') +:+ slashes n))
        with (match strip_trailing_slashes (String c' s' +:+ slashes n) with
              | EmptyString =>
                  if bool_decide (c = "/"%char) then EmptyString else String c EmptyString
              | r => String c r
              end).
      rewrite IH by exact H. done.
Qed.

Lemma strip_decompose s :
  ∃ n, s = strip_trailing_slashes s +:+ slashes n.
Proof.
  induction s as [|c s [n IH]]; simpl; [by exists O|].
  destruct (strip_trailing_slashes s) as [|c' r] eqn:E.
  - case_bool_decide as Hc.
    + exists (S n). simpl. subst c. by rewrite IH at 1.
    + exists n. simpl. by rewrite IH at 1.
  - exists n. simpl. by rewrite IH at 1.
Qed.

Lemma strip_app_slash s :
  strip_trailing_slashes (s +:+ "/") = strip_trailing_slashes s.
Proof.
  induction s as [|c s IH]; [done|].
  change (String c s +:+ "/") with (String c (s +:+ "/")). simpl. by rewrite IH.
Qed.

Lemma strip_idempotent s :
  strip_trailing_slashes (strip_trailing_slashes s) = strip_trailing_slashes s.
Proof. apply strip_id, strip_no_trailing_slash. Qed.

(** X24: a directory key ends in a slash and a path never does.  Making
    a key of a path and a path of a key undo each other up to the
    slashes at the end: [keyToPath (dirPathToKey path)] is [path]
    without its trailing slashes, so it is [path] itself when [path] is
    not a key; both functions are idempotent; and the key of the root
    directory maps to the empty path. *)
Theorem dir_key_round_trip path :
  isDirKey (dirPathToKey path) = true ∧
  isDirKey (keyToPath path) = false ∧
  keyToPath (dirPathToKey path) = keyToPath path ∧
  dirPathToKey (keyToPath path) = dirPathToKey path ∧
  dirPathToKey (dirPathToKey path) = dirPathToKey path ∧
  keyToPath (keyToPath path) = keyToPath path ∧
  (isDirKey path = false → keyToPath (dirPathToKey path) = path) ∧
  (∃ n, path = keyToPath path +:+ slashes n) ∧
  dirPathToKey "/" = "/"%string ∧ keyToPath "/" = ""%string.
Proof.
  unfold isDirKey, dirPathToKey, keyToPath. split_and!.
  - apply bool_decide_eq_true_2, slice_last_app.
  - apply bool_decide_eq_false_2, strip_no_trailing_slash.
  - by rewrite strip_app_slash, strip_idempotent.
  - by rewrite strip_idempotent.
  - by rewrite strip_app_slash, strip_idempotent.
  - apply strip_idempotent.
  - intros H%bool_decide_eq_false_1. rewrite strip_app_slash, strip_idempotent.
    by apply strip_id.
  - apply strip_decompose.
  - done.
  - done.
Qed.

Lemma lastIndexOf_None_slice_last c s :
  lastIndexOf c s = None → slice_last s ≠ String c EmptyString.
Proof.
  induction s as [|c' s IH]; [done|]. cbn [lastIndexOf].
  destruct (lastIndexOf c s) as [i|] eqn:E; [done|].
  case_bool_decide as Hc; [done|]. intros _.
  destruct s as [|c'' s'']; [simpl; congruence|].
  rewrite slice_last_cons by done. by apply IH.
Qed.

(** The string splits at the last occurrence of the character. *)
Lemma lastIndexOf_split c s i :
  lastIndexOf c s = Some i →
  ∃ pre, s = pre +:+ String c (slice (i + 1) s) ∧ String.length pre = i ∧
         lastIndexOf c (slice (i + 1) s) = None.
Proof.
  revert i. induction s as [|c' s IH]; intros i; simpl; [done|].
  destruct (lastIndexOf c s) as [j|] eqn:E.
  - intros [= <-]. destruct (IH j eq_refl) as (pre & Hs & Hlen & Hnone).
    exists (String c' pre). simpl. split_and!; [by rewrite Hs at 1|by rewrite Hlen|done].
  - case_bool_decide as Hc; [|done]. intros [= <-]. subst c'.
    exists EmptyString. simpl. done.
Qed.

(** X25: the name of a key is the part of its path after the last
    slash: the path is the name, or a prefix that ends in a slash
    followed by the name; the name holds no slash; and a directory key
    and the path it was made from have the same name. *)
Theorem key_name_is_last_segment key :
  lastIndexOf "/" (keyToName key) = None ∧
  (∃ pre, keyToPath key = pre +:+ keyToName key ∧
          (pre = ""%string ∨ isDirKey pre = true)) ∧
  keyToName (dirPathToKey key) = keyToName key ∧
  (lastIndexOf "/" key = None → keyToName key = key).
Proof.
  unfold keyToName. split_and!.
  - destruct (lastIndexOf "/" (keyToPath key)) as [i|] eqn:E; [|done].
    by destruct (lastIndexOf_split _ _ _ E) as (_ & _ & _ & H).
  - destruct (lastIndexOf "/" (keyToPath key)) as [i|] eqn:E.
    + destruct (lastIndexOf_split _ _ _ E) as (pre & Hs & _ & _).
      exists (pre +:+ "/"). split.
      * revert Hs. generalize (slice (i + 1) (keyToPath key)) as rest.
        intros rest ->. clear. induction pre as [|c pre IH]; [done|].
        by rewrite !append_cons, IH.
      * right. unfold isDirKey. apply bool_decide_eq_true_2, slice_last_app.
    + exists EmptyString. split; [done|by left].
  - unfold keyToPath, dirPathToKey. by rewrite strip_app_slash, strip_idempotent.
  - intros Hnone. unfold keyToPath.
    rewrite strip_id by by apply lastIndexOf_None_slice_last. by rewrite Hnone.
Qed.

End FileTreeTheory.

(** * Properties of the validation of a connection profile *)

Module ConnectionProfileTheory.
Import ConnectionProfile.

Lemma app_not_nil {A} (l : list A) x : l ++ [x] ≠ [].
Proof. by destruct l. Qed.

Section Validate.

Variable PRIVATE_KEY : string.
Variable PASSWORD : string.

Local Abbreviation collect := (collect PRIVATE_KEY).
Local Abbreviation validateFormInputs := (validateFormInputs PRIVATE_KEY PASSWORD).
Local Abbreviation complete := (complete PRIVATE_KEY).

(** What is collected for a complete form. *)
Lemma collect_complete profileName connectionDetails :
  complete profileName connectionDetails = true →
  collect profileName connectionDetails
  = ([], [("username"%string, get connectionDetails "username");
          ("server"%string, get connectionDetails "server");
          ("cwd"%string, get connectionDetails "cwd");
          ("sshPort"%string, get connectionDetails "sshPort");
          ("authMethod"%string, get connectionDetails "authMethod");
          ("pathToPrivateKey"%string, get connectionDetails "pathToPrivateKey")]).
Proof.
  unfold ConnectionProfile.complete, ConnectionProfile.collect, copy_field.
  intros H. repeat (apply andb_true_iff in H as [H ?]).
  repeat match goal with H : truthy _ = true |- _ => rewrite H; clear H end. simpl.
  destruct (strict_eq_str (get connectionDetails "authMethod") PRIVATE_KEY); simpl in *.
  - by match goal with H : truthy _ = true |- _ => rewrite H end.
  - done.
Qed.



(** X27: what is saved of a complete form.  The profile has the title
    and the six fields of the form; the password is not among its
    fields; the remote server command is saved only if it is given and
    differs from the default, and as the empty string otherwise; the
    warning is there exactly when the method is the password and a
    password was given.  Validating the saved fields again gives the
    same profile, without a warning. *)
Theorem validated_profile_omits_password_and_default profileName connectionDetails command :
  complete profileName connectionDetails = true →
  ∃ params warning,
    validateFormInputs profileName connectionDetails command
      = Valid profileName params warning ∧
    params.*1 = ["username"; "server"; "cwd"; "sshPort"; "authMethod";
                 "pathToPrivateKey"; "remoteServerCommand"]%string ∧
    (∀ k, k ∈ ["username"; "server"; "cwd"; "sshPort"; "authMethod";
               "pathToPrivateKey"]%string → get params k = get connectionDetails k) ∧
    get params "password" = JUndefined ∧
    get params "remoteServerCommand"
      = (if truthy (get connectionDetails "remoteServerCommand")
            && negb (strict_eq_str (get connectionDetails "remoteServerCommand") command)
         then get connectionDetails "remoteServerCommand" else JStr "") ∧
    (warning = if strict_eq_str (get connectionDetails "authMethod") PASSWORD
                  && truthy (get connectionDetails "password")
               then Some password_warning else None) ∧
    validateFormInputs profileName params command = Valid profileName params None.
Proof.
  intros Hc. unfold ConnectionProfile.validateFormInputs at 1.
  rewrite (collect_complete _ _ Hc). simpl.
  set (cmd := get connectionDetails "remoteServerCommand").
  set (saved := if truthy cmd && negb (strict_eq_str cmd command) then cmd else JStr "").
  exists [("username"%string, get connectionDetails "username");
          ("server"%string, get connectionDetails "server");
          ("cwd"%string, get connectionDetails "cwd");
          ("sshPort"%string, get connectionDetails "sshPort");
          ("authMethod"%string, get connectionDetails "authMethod");
          ("pathToPrivateKey"%string, get connectionDetails "pathToPrivateKey");
          ("remoteServerCommand"%string, saved)].
  eexists. split_and!.
  - subst saved. destruct (truthy cmd && negb (strict_eq_str cmd command)); reflexivity.
  - done.
  - intros k Hk. repeat (apply elem_of_cons in Hk as [->|Hk]; [done|]).
    by apply elem_of_nil in Hk.
  - done.
  - done.
  - destruct (strict_eq_str _ PASSWORD && truthy _); [|done].
    rewrite bool_decide_eq_false_2; [done|]. unfold password_warning. done.
  - assert (complete profileName
              [("username"%string, get connectionDetails "username");
               ("server"%string, get connectionDetails "server");
               ("cwd"%string, get connectionDetails "cwd");
               ("sshPort"%string, get connectionDetails "sshPort");
               ("authMethod"%string, get connectionDetails "authMethod");
               ("pathToPrivateKey"%string, get connectionDetails "pathToPrivateKey");
               ("remoteServerCommand"%string, saved)] = true) as Hc' by exact Hc.
    unfold ConnectionProfile.validateFormInputs. rewrite (collect_complete _ _ Hc').
    match goal with |- context [get ?P "password"] =>
      change (get P "password") with JUndefined;
      change (get P "remoteServerCommand") with saved;
      change (get P "authMethod") with (get connectionDetails "authMethod");
      change (get P "username") with (get connectionDetails "username");
      change (get P "server") with (get connectionDetails "server");
      change (get P "cwd") with (get connectionDetails "cwd");
      change (get P "sshPort") with (get connectionDetails "sshPort");
      change (get P "pathToPrivateKey") with (get connectionDetails "pathToPrivateKey")
    end.
    cbn [truthy]. rewrite andb_false_r. simpl.
    destruct (truthy saved && negb (strict_eq_str saved command)) eqn:E; [done|].
    subst saved. destruct (truthy cmd && negb (strict_eq_str cmd command)) eqn:E'; [|done].
    congruence.
Qed.

End Validate.

Lemma profile_witness :
  complete "PRIVATE_KEY" (JStr "work") example_details = true ∧
  validateFormInputs "PRIVATE_KEY" "PASSWORD" (JStr "work") example_details
    "nuclide-start-server"
  = Valid (JStr "work")
      [("username"%string, JStr "me"); ("server"%string, JStr "host");
       ("cwd"%string, JStr "/home/me"); ("sshPort"%string, JStr "22");
       ("authMethod"%string, JStr "PASSWORD"); ("pathToPrivateKey"%string, JUndefined);
       ("remoteServerCommand"%string, JStr "")]
      (Some password_warning).
Proof.
  assert (complete "PRIVATE_KEY" (JStr "work") example_details = true) as Hc
    by reflexivity.
  split; [exact Hc|].
  destruct (validated_profile_omits_password_and_default "PRIVATE_KEY" "PASSWORD"
              (JStr "work") example_details "nuclide-start-server" Hc)
    as (params & warning & H1 & _ & _ & _ & _ & H6 & _).
  rewrite H1, H6. vm_compute in H1. by injection H1 as <- _.
Defined.

End ConnectionProfileTheory.

(** * Properties of the diagnostics of the Hack provider *)

Module HackDiagnosticsTheory.
Import HackDiagnostics.

Lemma Map_get_app {A} k (m m' : Map A) :
  Map_get k (m ++ m') = match Map_get k m with Some v => Some v | None => Map_get k m' end.
Proof.
  induction m as [|[k' v] m IH]; simpl; [done|]. by case_bool_decide.
Qed.

Lemma Map_get_push_eq {A} k (x : A) m v :
  Map_get k m = Some v → Map_get k (Map_push k x m) = Some (v ++ [x]).
Proof.
  induction m as [|[k' v'] m IH]; simpl; [done|].
  case_bool_decide as Hk; simpl.
  - rewrite bool_decide_eq_true_2 by done. by intros [= ->].
  - rewrite bool_decide_eq_false_2 by done. exact IH.
Qed.

Lemma Map_get_push_ne {A} k k' (x : A) m :
  k ≠ k' → Map_get k' (Map_push k x m) = Map_get k' m.
Proof.
  intros Hne. induction m as [|[k0 v0] m IH]; simpl; [done|].
  case_bool_decide as Hk; simpl.
  - subst k0. by rewrite !bool_decide_eq_false_2 by done.
  - case_bool_decide; [done|exact IH].
Qed.

Lemma Map_push_keys {A} k (x : A) m : (Map_push k x m).*1 = m.*1.
Proof.
  induction m as [|[k0 v0] m IH]; [done|]. cbn [Map_push].
  case_bool_decide; rewrite !fmap_cons; [done|by rewrite IH].
Qed.

Lemma Map_push_values {A} k (x : A) m v :
  Map_get k m = Some v → concat (Map_push k x m).*2 ≡ₚ x :: concat m.*2.
Proof.
  induction m as [|[k0 v0] m IH]; [done|]. cbn [Map_push Map_get].
  case_bool_decide as Hk; rewrite !fmap_cons; cbn [snd concat].
  - intros _. rewrite <- app_assoc. simpl.
    by rewrite <- Permutation_middle.
  - intros H. rewrite (IH H). by rewrite Permutation_middle.
Qed.

Lemma Map_get_key {A} k (m : Map A) : is_Some (Map_get k m) ↔ k ∈ m.*1.
Proof.
  induction m as [|[k0 v0] m IH].
  - split; [by intros [? ?]|by intros ?%elem_of_nil].
  - cbn [Map_get]. rewrite fmap_cons. cbn [fst]. case_bool_decide as Hk.
    + subst. split; [intros _; by left|by eexists].
    + rewrite IH. split; [by right|]. by intros [?|?]%elem_of_cons.
Qed.

Lemma of_file_snoc p ds d :
  of_file p (ds ++ [d]) = of_file p ds ++ (if bool_decide (filePath d = p) then [d] else []).
Proof.
  unfold of_file. rewrite filter_app, filter_cons, filter_nil.
  case_bool_decide; [by rewrite decide_True|by rewrite decide_False].
Qed.

Lemma group_from_snoc m ds d : group_from m (ds ++ [d]) = group_step (group_from m ds) d.
Proof. unfold group_from. by rewrite foldl_app. Qed.

Lemma first_occurrences_snoc l x :
  first_occurrences (l ++ [x])
  = if bool_decide (x ∈ first_occurrences l) then first_occurrences l
    else first_occurrences l ++ [x].
Proof. unfold first_occurrences. by rewrite foldl_app. Qed.

(** What the loop has built after the diagnostics [ds]. *)
Lemma group_spec ds :
  (∀ p, Map_get p (group ds)
        = if bool_decide (of_file p ds = []) then None else Some (of_file p ds)) ∧
  (group ds).*1 = first_occurrences (filePath <$> ds) ∧
  NoDup (group ds).*1 ∧
  concat (group ds).*2 ≡ₚ ds.
Proof.
  unfold group. induction ds as [|d ds (IH1 & IH2 & IH3 & IH4)] using rev_ind.
  - split_and!; try done. apply NoDup_nil_2.
  - rewrite group_from_snoc. unfold group_step.
    set (m := group_from [] ds) in *. set (q := filePath d).
    pose proof (IH1 q) as Hq.
    destruct (Map_get q m) as [arr|] eqn:E.
    + assert (q ∈ m.*1) as Hin by (apply Map_get_key; by rewrite E).
      split_and!.
      * intros p. rewrite of_file_snoc. fold q.
        destruct (decide (q = p)) as [<-|Hne].
        -- rewrite (Map_get_push_eq _ _ _ _ E), (bool_decide_eq_true_2 (q = q)) by done.
           destruct (decide (of_file q ds = [])) as [H0|H0];
             [by rewrite bool_decide_eq_true_2 in Hq by done|].
           rewrite bool_decide_eq_false_2 in Hq by done. injection Hq as ->.
           rewrite bool_decide_eq_false_2; [done|]. by destruct (of_file q ds).
        -- rewrite Map_get_push_ne by done. rewrite (bool_decide_eq_false_2 (q = p)) by done.
           rewrite app_nil_r. apply IH1.
      * rewrite Map_push_keys, fmap_app. change (filePath <$> [d]) with [q].
        rewrite first_occurrences_snoc, <- IH2. by rewrite bool_decide_eq_true_2.
      * by rewrite Map_push_keys.
      * rewrite (Map_push_values _ _ _ _ E), IH4. by rewrite <- Permutation_cons_append.
    + assert (q ∉ m.*1) as Hin.
      { intros H%Map_get_key. rewrite E in H. by destruct H. }
      split_and!.
      * intros p. rewrite of_file_snoc, Map_get_app. fold q. rewrite IH1. simpl.
        destruct (decide (q = p)) as [<-|Hne].
        -- rewrite !(bool_decide_eq_true_2 (q = q)) by done.
           destruct (decide (of_file q ds = [])) as [H0|H0];
             [|by rewrite bool_decide_eq_false_2 in Hq by done].
           rewrite H0. simpl. done.
        -- rewrite !(bool_decide_eq_false_2 (q = p)) by done. rewrite app_nil_r.
           by destruct (bool_decide (of_file p ds = [])).
      * rewrite !fmap_app. change (filePath <$> [d]) with [q].
        rewrite first_occurrences_snoc, <- IH2. by rewrite bool_decide_eq_false_2.
      * rewrite fmap_app. apply NoDup_app. split_and!; [done| |apply NoDup_singleton].
        intros x Hx ->%list_elem_of_singleton. done.
      * rewrite fmap_app, concat_app, IH4. done.
Qed.

Lemma conversion_fails ms : hackMessageToDiagnosticMessage ms = None ↔ ms = [].
Proof. by destruct ms. Qed.

(** X28: [_processDiagnostics] raises exactly when a diagnostic has an
    empty message array.  Otherwise each diagnostic has the text and the
    path of its first message and, when there are more messages, a trace
    with one entry for each of them, in order, with its text and its
    path; and the result
    maps each file path to the diagnostics of that file, in the order in
    which they came; a path without diagnostics is not a key, the keys
    are in the order in which the paths first occur, and every
    diagnostic is in the map once. *)
Theorem diagnostics_are_grouped_by_file diagnostics :
  match _processDiagnostics diagnostics with
  | None => [] ∈ diagnostics
  | Some filePathToMessages =>
      ∃ fileDiagnostics,
        Forall2 (λ ms d, ∃ cause rest,
                   ms = cause :: rest ∧ text d = descr cause ∧ filePath d = path cause ∧
                   match trace d with
                   | None => rest = []
                   | Some traces =>
                       rest ≠ [] ∧
                       trace_text <$> traces = descr <$> rest ∧
                       trace_filePath <$> traces = path <$> rest
                   end)
                diagnostics fileDiagnostics ∧
        (∀ p, Map_get p filePathToMessages
              = if bool_decide (of_file p fileDiagnostics = []) then None
                else Some (of_file p fileDiagnostics)) ∧
        filePathToMessages.*1 = first_occurrences (filePath <$> fileDiagnostics) ∧
        NoDup filePathToMessages.*1 ∧
        concat filePathToMessages.*2 ≡ₚ fileDiagnostics
  end.
Proof.
  unfold _processDiagnostics.
  destruct (mapM hackMessageToDiagnosticMessage diagnostics) as [fds|] eqn:E; simpl.
  - exists fds. destruct (group_spec fds) as (H1 & H2 & H3 & H4).
    split_and!; try done.
    apply mapM_Some in E. eapply Forall2_impl; [exact E|].
    intros ms d Hd. destruct ms as [|cause rest]; [done|]. injection Hd as <-.
    exists cause, rest. simpl. split_and!; try done.
    destruct rest as [|m rest]; [done|]. simpl.
    split_and!; [done|f_equal..]; rewrite <- list_fmap_compose;
      by apply list_fmap_ext.
  - apply mapM_None in E. apply Exists_exists in E as (ms & Hin & Hms).
    apply conversion_fails in Hms. by subst.
Qed.

End HackDiagnosticsTheory.
